(** * typedash string utilities: a shallow embedding of [src/strings.ts]

    The development follows the source file top to bottom.

    - [JsString]: JavaScript strings as sequences of UTF-16 code units, with
      the case conversions of the runtime.
    - [RegExp]: the backtracking matcher of the language standard
      (continuation-passing, leftmost alternative first, greedy and lazy
      repetition, lookahead, capture groups), the string methods built on it
      that the source calls ([test], [exec], [match] with the [g] flag,
      [split] and [replace]), and what a pattern can match at all ([den]).
    - [Strings]: the functions of [strings.ts], one definition each, in the
      order of the source.
    - [Spec]: the vocabulary of the specification (word-forming code units,
      token shapes, camel-case text, globs, kebab form).
    - [RegExpFacts] to [FuelFacts]: the matcher is sound for [den], its
      repetition obeys the equations of the standard, and the loops never
      run out of fuel; the tokens of [words]; the glob branch of
      [wildcardToRegExp]; [kebabCase] on its own results.
    - [SeparatorFacts] to [GenerationFacts]: [caseStr] with any separator
      and how the case conversions compose; what [words] keeps; the escape
      hatch of [wildcardToRegExp]; rendering with [templateObject]; the
      code generation of [template].
    - The properties of the specification, C1 to C10, at the end, and
      further properties of the code after them. *)

From Stdlib Require Import List NArith ZArith Lia Bool String Ascii DecimalString.
From stdpp Require Import gmap.
Import ListNotations.

(* ===================================================================== *)
(** ** JavaScript strings *)
(* ===================================================================== *)

Module JsString.

(** A string is a sequence of UTF-16 code units. *)
Abbreviation jsstring := (list N).

(** String literals of this file are ASCII; [js] gives their code units. *)
Fixpoint js (s : string) : jsstring :=
  match s with
  | EmptyString => []
  | String a s' => N_of_ascii a :: js s'
  end.

Definition inRange (lo hi c : N) : bool := ((lo <=? c) && (c <=? hi))%N.

Definition isLatin1 (c : N) : bool := (c <=? 255)%N.

(** Lowercase mapping of one code unit of U+0000..U+00FF: A-Z and the
    capitals of the Latin-1 supplement move up by 32, nothing else moves. *)
Definition lower1 (c : N) : N :=
  if inRange 65 90 c || inRange 192 214 c || inRange 216 222 c
  then (c + 32)%N else c.

(** Uppercase mapping of one code unit of U+0000..U+00FF.  Three code
    units do not stay in the range or in length: the micro sign goes to
    U+039C, sharp s to the two letters SS and y with diaeresis to U+0178. *)
Definition upper1 (c : N) : jsstring :=
  if inRange 97 122 c || inRange 224 246 c || inRange 248 254 c
  then [(c - 32)%N]
  else if (c =? 181)%N then [924%N]
  else if (c =? 223)%N then [83%N; 83%N]
  else if (c =? 255)%N then [376%N]
  else [c].

Section Runtime.

(** The Unicode case tables of the runtime beyond U+00FF are not part of
    the repository; the conversions of a string that has a code unit
    above U+00FF are parameters. *)
Variable unicodeLower : jsstring -> jsstring.
Variable unicodeUpper : jsstring -> jsstring.

(** [String.prototype.toLowerCase] *)
Definition toLowerCase (s : jsstring) : jsstring :=
  if forallb isLatin1 s then map lower1 s else unicodeLower s.

(** [String.prototype.toUpperCase] *)
Definition toUpperCase (s : jsstring) : jsstring :=
  if forallb isLatin1 s then flat_map upper1 s else unicodeUpper s.

End Runtime.

(** [s.startsWith(p)] *)
Fixpoint startsWith (p s : jsstring) : bool :=
  match p, s with
  | [], _ => true
  | a :: p', b :: s' => (a =? b)%N && startsWith p' s'
  | _ :: _, [] => false
  end.

(** [Array.prototype.join] on an array whose elements are strings or
    [undefined]; an [undefined] element contributes the empty string. *)
Fixpoint join (sep : jsstring) (l : list (option jsstring)) : jsstring :=
  match l with
  | [] => []
  | [x] => default [] x
  | x :: tl => default [] x ++ sep ++ join sep tl
  end.

End JsString.

Import JsString.

(* ===================================================================== *)
(** ** Regular expressions *)
(* ===================================================================== *)

Module RegExp.

(** Members of a character class. *)
Inductive citem : Type :=
| CChar (c : N)              (* a single code unit *)
| CRange (lo hi : N)         (* lo-hi *)
| CSpace                     (* \s *)
| CDigit.                    (* \d *)

(** The pattern language that the source uses (no [i], [m], [s] or [u]
    flag on any literal of the file). *)
Inductive re : Type :=
| Eps
| Cls (negated : bool) (items : list citem)   (* [...] and [^...] *)
| Dot                                          (* . *)
| Seq (r1 r2 : re)
| Alt (r1 r2 : re)                             (* r1|r2 *)
| Quant (min : nat) (max : option nat) (greedy : bool) (r : re)
| Look (r : re)                                (* (?=r) *)
| Bos                                          (* ^ *)
| Eos                                          (* $ *)
| Grp (i : nat) (r : re).                      (* the i-th capture group *)

Definition Chr (c : N) : re := Cls false [CChar c].
Definition Star (r : re) : re := Quant 0 None true r.
Definition Plus (r : re) : re := Quant 1 None true r.
Definition Opt (r : re) : re := Quant 0 (Some 1) true r.
Definition StarLazy (r : re) : re := Quant 0 None false r.
Definition PlusLazy (r : re) : re := Quant 1 None false r.

(** White space and line terminators, as [\s] has them. *)
Definition isSpace (c : N) : bool :=
  inRange 9 13 c || (c =? 32)%N || (c =? 160)%N || (c =? 5760)%N
  || inRange 8192 8202 c || (c =? 8232)%N || (c =? 8233)%N
  || (c =? 8239)%N || (c =? 8287)%N || (c =? 12288)%N || (c =? 65279)%N.

Definition isLineTerminator (c : N) : bool :=
  (c =? 10)%N || (c =? 13)%N || (c =? 8232)%N || (c =? 8233)%N.

Definition inItem (it : citem) (c : N) : bool :=
  match it with
  | CChar d => (c =? d)%N
  | CRange lo hi => inRange lo hi c
  | CSpace => isSpace c
  | CDigit => inRange 48 57 c
  end.

Definition inClass (negated : bool) (items : list citem) (c : N) : bool :=
  xorb negated (existsb (fun it => inItem it c) items).

(** The state of a match: the index reached, the input from there on, and
    the captures made so far. *)
Record mstate : Type := MState {
  endIndex : nat;
  rest : jsstring;
  captures : list (nat * jsstring)
}.

Definition advance (x : mstate) : mstate :=
  MState (S (endIndex x)) (tl (rest x)) (captures x).

Fixpoint groups (r : re) : list nat :=
  match r with
  | Seq r1 r2 | Alt r1 r2 => groups r1 ++ groups r2
  | Quant _ _ _ r1 | Look r1 => groups r1
  | Grp i r1 => i :: groups r1
  | _ => []
  end.

Definition clearCaptures (gs : list nat) (x : mstate) : mstate :=
  MState (endIndex x) (rest x)
         (List.filter (fun p => negb (existsb (Nat.eqb (fst p)) gs)) (captures x)).

Definition setCapture (i : nat) (x y : mstate) : mstate :=
  MState (endIndex y) (rest y)
         ((i, firstn (endIndex y - endIndex x) (rest x))
            :: List.filter (fun p => negb (Nat.eqb (fst p) i)) (captures y)).

Definition capture (i : nat) (x : mstate) : option jsstring :=
  snd <$> List.find (fun p => Nat.eqb (fst p) i) (captures x).

Definition cont : Type := mstate -> option mstate.

(** The repetition matcher: [mr] matches the repeated atom.  An iteration
    that consumes nothing once the minimum is reached is rejected, so every
    further iteration either lowers [min] or shortens the input; [fuel]
    bounds the iterations by that measure. *)
Fixpoint repeatMatcher (mr : mstate -> cont -> option mstate) (gs : list nat)
    (fuel : nat) (min : nat) (max : option nat) (greedy : bool)
    (x : mstate) (c : cont) {struct fuel} : option mstate :=
  match fuel with
  | O => None
  | S fuel' =>
    match max with
    | Some O => c x
    | _ =>
      let d : cont := fun y =>
        if Nat.eqb min 0 && Nat.eqb (endIndex y) (endIndex x) then None
        else repeatMatcher mr gs fuel' (Nat.pred min) (Nat.pred <$> max) greedy y c in
      let xr := clearCaptures gs x in
      match min with
      | S _ => mr xr d
      | O =>
        if greedy then
          match mr xr d with
          | Some z => Some z
          | None => c x
          end
        else
          match c x with
          | Some z => Some z
          | None => mr xr d
          end
      end
    end
  end.

(** The matcher of a pattern: [matcher r x c] matches [r] at state [x] and
    hands every state it can reach, in priority order, to the continuation
    [c] until [c] accepts one. *)
Fixpoint matcher (r : re) (x : mstate) (c : cont) {struct r} : option mstate :=
  match r with
  | Eps => c x
  | Cls negated items =>
    match rest x with
    | ch :: _ => if inClass negated items ch then c (advance x) else None
    | [] => None
    end
  | Dot =>
    match rest x with
    | ch :: _ => if isLineTerminator ch then None else c (advance x)
    | [] => None
    end
  | Seq r1 r2 => matcher r1 x (fun y => matcher r2 y c)
  | Alt r1 r2 =>
    match matcher r1 x c with
    | Some z => Some z
    | None => matcher r2 x c
    end
  | Quant min max greedy r1 =>
    repeatMatcher (matcher r1) (groups r1)
                  (min + length (rest x) + 1) min max greedy x c
  | Look r1 =>
    match matcher r1 x Some with
    | Some y => c (MState (endIndex x) (rest x) (captures y))
    | None => None
    end
  | Bos => if Nat.eqb (endIndex x) 0 then c x else None
  | Eos => match rest x with [] => c x | _ :: _ => None end
  | Grp i r1 => matcher r1 x (fun y => c (setCapture i x y))
  end.

(** One attempt at index [i], where [s] is the input from [i] on. *)
Definition matchAt (r : re) (i : nat) (s : jsstring) : option mstate :=
  matcher r (MState i s []) Some.

(** The search of [exec] for a pattern without the sticky flag: the first
    index from [i] on at which the pattern matches, and the final state. *)
Fixpoint search (r : re) (i : nat) (s : jsstring) : option (nat * mstate) :=
  match matchAt r i s with
  | Some y => Some (i, y)
  | None =>
    match s with
    | [] => None
    | _ :: s' => search r (S i) s'
    end
  end.

Definition succeeds {A} (o : option A) : bool :=
  match o with Some _ => true | None => false end.

(** [r.test(s)] for a pattern without the [g] flag. *)
Definition test (r : re) (s : jsstring) : bool := succeeds (search r 0 s).

(** [r.exec(s)] for a pattern without the [g] flag: the captures of the
    first match. *)
Definition exec (r : re) (s : jsstring) : option mstate :=
  snd <$> search r 0 s.

(** The loop of [s.match(r)] for a pattern with the [g] flag, from index
    [i]: every match in turn; after an empty match the search resumes one
    code unit further. *)
Fixpoint matchLoop (fuel : nat) (r : re) (i : nat) (s : jsstring) : list jsstring :=
  match fuel with
  | O => []
  | S fuel' =>
    match search r i s with
    | None => []
    | Some (j, y) =>
      let matched := firstn (endIndex y - j) (skipn (j - i) s) in
      matched ::
        (if Nat.eqb (endIndex y) j then
           match rest y with
           | [] => []
           | _ :: s' => matchLoop fuel' r (S j) s'
           end
         else matchLoop fuel' r (endIndex y) (rest y))
    end
  end.

(** [s.match(r)] for a pattern with the [g] flag: [null] ([None]) when
    nothing matches, the array of matched substrings otherwise. *)
Definition matchAll (r : re) (s : jsstring) : option (list jsstring) :=
  match matchLoop (S (length s)) r 0 s with
  | [] => None
  | l => Some l
  end.

(** [s.split(r)]: the pattern is tried at every index [q] of a non-empty
    input; a match that ends where the last piece began is skipped; a kept
    match contributes the piece before it and its [n] captures.  [lit] is
    the input between the start [p] of the current piece and [q]. *)
Fixpoint splitLoop (fuel : nat) (r : re) (n : nat) (p q : nat)
    (lit s : jsstring) : list (option jsstring) :=
  match fuel with
  | O => []
  | S fuel' =>
    match s with
    | [] => [Some lit]
    | ch :: s' =>
      match matchAt r q s with
      | None => splitLoop fuel' r n p (S q) (lit ++ [ch]) s'
      | Some y =>
        let e := endIndex y in
        if Nat.eqb e p then splitLoop fuel' r n p (S q) (lit ++ [ch]) s'
        else Some lit :: map (fun i => capture i y) (seq 1 n)
                      ++ splitLoop fuel' r n e e [] (rest y)
      end
    end
  end.

Definition split (r : re) (s : jsstring) : list (option jsstring) :=
  match s with
  | [] => match matchAt r 0 [] with Some _ => [] | None => [Some []] end
  | _ :: _ => splitLoop (2 * length s + 2) r (length (groups r)) 0 0 [] s
  end.

(** The expansion of a replacement text for a match without captures:
    [$$] is a dollar sign and [$&] the matched text.  The replacement texts
    of the source use no other [$] form. *)
Fixpoint getSubstitution (matched repl : jsstring) : jsstring :=
  match repl with
  | 36%N :: 36%N :: tl => 36%N :: getSubstitution matched tl
  | 36%N :: 38%N :: tl => matched ++ getSubstitution matched tl
  | ch :: tl => ch :: getSubstitution matched tl
  | [] => []
  end.

(** The loop of [s.replace(r, repl)] for a pattern with the [g] flag. *)
Fixpoint replaceLoop (fuel : nat) (r : re) (repl : jsstring) (i : nat)
    (s : jsstring) : jsstring :=
  match fuel with
  | O => s
  | S fuel' =>
    match search r i s with
    | None => s
    | Some (j, y) =>
      let matched := firstn (endIndex y - j) (skipn (j - i) s) in
      firstn (j - i) s ++ getSubstitution matched repl ++
        (if Nat.eqb (endIndex y) j then
           match rest y with
           | [] => []
           | ch :: s' => ch :: replaceLoop fuel' r repl (S j) s'
           end
         else replaceLoop fuel' r repl (endIndex y) (rest y))
    end
  end.

Definition replaceAll (r : re) (repl s : jsstring) : jsstring :=
  replaceLoop (S (length s)) r repl 0 s.

(** [s.replace(pat, repl)] with a string pattern: only the first
    occurrence of [pat] is replaced. *)
Fixpoint replaceFirst (pat repl s : jsstring) : jsstring :=
  if startsWith pat s then getSubstitution pat repl ++ skipn (length pat) s
  else match s with
       | [] => []
       | ch :: s' => ch :: replaceFirst pat repl s'
       end.

(** *** What a pattern can match

    [den r p q]: from position [p] (an index and the input from there on)
    the pattern [r] can reach position [q], whatever the priorities.  The
    matcher only ever accepts such a [q] ([matcher_sound]). *)
Definition pos : Type := nat * jsstring.

Definition posOf (x : mstate) : pos := (endIndex x, rest x).

Fixpoint iter (n : nat) (R : pos -> pos -> Prop) (p q : pos) : Prop :=
  match n with
  | O => p = q
  | S n' => exists m, R p m /\ iter n' R m q
  end.

Definition withinBounds (min : nat) (max : option nat) (n : nat) : Prop :=
  match max with
  | Some m => n <= m /\ Nat.min min m <= n
  | None => min <= n
  end.

Fixpoint den (r : re) (p q : pos) : Prop :=
  match r with
  | Eps => p = q
  | Cls negated items =>
    exists ch, snd p = ch :: snd q /\ inClass negated items ch = true
               /\ fst q = S (fst p)
  | Dot =>
    exists ch, snd p = ch :: snd q /\ isLineTerminator ch = false
               /\ fst q = S (fst p)
  | Seq r1 r2 => exists m, den r1 p m /\ den r2 m q
  | Alt r1 r2 => den r1 p q \/ den r2 p q
  | Quant min max _ r1 => exists n, withinBounds min max n /\ iter n (den r1) p q
  | Look r1 => p = q /\ exists q', den r1 p q'
  | Bos => p = q /\ fst p = 0
  | Eos => p = q /\ snd p = []
  | Grp _ r1 => den r1 p q
  end.

(** [later x y]: the state [y] is at or after [x] in the same input. *)
Definition later (x y : mstate) : Prop :=
  exists w, rest x = w ++ rest y /\ endIndex y = endIndex x + length w.

(** A matcher looks at its continuation only on states further along. *)
Definition respectful (mr : mstate -> cont -> option mstate) : Prop :=
  forall x c c', (forall y, later x y -> c y = c' y) -> mr x c = mr x c'.

(** A match consumes a piece of the input, and the index moves with it. *)
Definition consumes (w : jsstring) (p q : pos) : Prop :=
  snd p = w ++ snd q /\ fst q = fst p + length w.

End RegExp.

Import RegExp.

(* ===================================================================== *)
(** ** strings.ts *)
(* ===================================================================== *)

Module Strings.

Inductive exn : Type := TypeError | SyntaxError.

Inductive result (A : Type) : Type :=
| Ok (a : A)
| Throw (e : exn).
Arguments Ok {A} a.
Arguments Throw {A} e.

Definition bind {A B} (r : result A) (f : A -> result B) : result B :=
  match r with
  | Ok a => f a
  | Throw e => Throw e
  end.

(** [const asciiWords = /[^\x00-\x2f\x3a-\x40\x5b-\x60\x7b-\x7f]+/g] *)
Definition asciiSeparators : list citem :=
  [CRange 0x00 0x2f; CRange 0x3a 0x40; CRange 0x5b 0x60; CRange 0x7b 0x7f].

Definition asciiWords : re := Plus (Cls true asciiSeparators).

(** The three classes of [unicodeWords]:
    [[A-Z\xc0-\xd6\xd8-\xde]], [[a-z\xdf-\xf6\xf8-\xff]] and
    [[\xac\xb1\xd7\xf7\x00-\x2f\x3a-\x40\x5b-\x60\x7b-\xbf \t\x0b\f\xa0\n\r]]. *)
Definition upperItems : list citem :=
  [CRange 65 90; CRange 0xc0 0xd6; CRange 0xd8 0xde].
Definition lowerItems : list citem :=
  [CRange 97 122; CRange 0xdf 0xf6; CRange 0xf8 0xff].
Definition breakItems : list citem :=
  [CChar 0xac; CChar 0xb1; CChar 0xd7; CChar 0xf7; CRange 0x00 0x2f;
   CRange 0x3a 0x40; CRange 0x5b 0x60; CRange 0x7b 0xbf; CChar 32; CChar 9;
   CChar 0x0b; CChar 12; CChar 0xa0; CChar 10; CChar 13].

Definition U : re := Cls false upperItems.
Definition L : re := Cls false lowerItems.
Definition B : re := Cls false breakItems.

(** [const unicodeWords = /U?L+(?=B|U|$)|(?:U)+(?=B|U(?:L)|$)|U?(?:L)+|U+|\d+/g] *)
Definition unicodeWords : re :=
  Alt (Seq (Opt U) (Seq (Plus L) (Look (Alt B (Alt U Eos)))))
 (Alt (Seq (Plus U) (Look (Alt B (Alt (Seq U L) Eos))))
 (Alt (Seq (Opt U) (Plus L))
 (Alt (Plus U)
      (Plus (Cls false [CDigit]))))).

(** [const hasUnicodeWord =
      /[a-z][A-Z]|[A-Z]{2,}[a-z]|[0-9][a-zA-Z]|[a-zA-Z][0-9]|[^a-zA-Z0-9 ]/] *)
Definition az : list citem := [CRange 97 122].
Definition AZ : list citem := [CRange 65 90].
Definition d09 : list citem := [CRange 48 57].
Definition azAZ : list citem := [CRange 97 122; CRange 65 90].

Definition plainItems : list citem :=
  [CRange 97 122; CRange 65 90; CRange 48 57; CChar 32].

Definition hasUnicodeWord : re :=
  Alt (Seq (Cls false az) (Cls false AZ))
 (Alt (Seq (Quant 2 None true (Cls false AZ)) (Cls false az))
 (Alt (Seq (Cls false d09) (Cls false azAZ))
 (Alt (Seq (Cls false azAZ) (Cls false d09))
      (Cls true plainItems)))).

(** The argument of [words]: [str?: string | null]. *)
Inductive strArg : Type :=
| ArgUndefined
| ArgNull
| ArgStr (s : jsstring).

(** [[
export function words (str?: string | null): string[] {
  return (str && str.match(hasUnicodeWord.test(str) ? unicodeWords : asciiWords)) || []
}
]] *)
Definition words (str : strArg) : list jsstring :=
  match str with
  | ArgStr ((_ :: _) as s) =>
    match matchAll (if test hasUnicodeWord s then unicodeWords else asciiWords) s with
    | Some l => l
    | None => []
    end
  | _ => []
  end.

(** [Array.prototype.map] with a callback that may throw: the callback gets
    the element and its index, and the first exception ends the loop. *)
Fixpoint arrayMap {A B} (f : A -> nat -> result B) (i : nat) (l : list A)
    : result (list B) :=
  match l with
  | [] => Ok []
  | a :: tl => bind (f a i) (fun b => bind (arrayMap f (S i) tl) (fun bs => Ok (b :: bs)))
  end.

(** [[
function mapWords (str, wordMapFn, join = '') {
  return words(str).map(wordMapFn).join(join)
}
]] *)
Definition mapWords (str : jsstring)
    (wordMapFn : jsstring -> nat -> result (option jsstring))
    (joinWith : jsstring) : result jsstring :=
  bind (arrayMap wordMapFn 0 (words (ArgStr str))) (fun l => Ok (join joinWith l)).

(** Modelled from the spec: [curry] of [./functions], which is not among
    the sources; the spec requires of it only that it fixes the first of
    two positional arguments and returns a one-argument function. *)
Definition curry {A B C} (f : A -> B -> C) : A -> B -> C := fun a b => f a b.

Section Runtime.

Variable unicodeLower : jsstring -> jsstring.
Variable unicodeUpper : jsstring -> jsstring.

(** [export function lowerCase (s: string) { return s.toLowerCase() }] *)
Definition lowerCase (s : jsstring) : jsstring := toLowerCase unicodeLower s.

(** [function caseStr (casing, str) { return mapWords(str, lowerCase, casing) }] *)
Definition caseStr (casing str : jsstring) : result jsstring :=
  mapWords str (fun word _ => Ok (Some (lowerCase word))) casing.

(** [export const kebabCase = curry(caseStr)('-')] *)
Definition kebabCase : jsstring -> result jsstring := curry caseStr (js "-").

(** [export const snakeCase = curry(caseStr)('_')] *)
Definition snakeCase : jsstring -> result jsstring := curry caseStr (js "_").

(** [[
export function capitalize (str: string): string {
  return str[0].toUpperCase() + str.slice(1)
}
]]
    [str[0]] of the empty string is [undefined], and reading
    [toUpperCase] of it throws a [TypeError]. *)
Definition capitalize (str : jsstring) : result jsstring :=
  match str with
  | [] => Throw TypeError
  | c :: _ => Ok (toUpperCase unicodeUpper [c] ++ skipn 1 str)
  end.

(** [[
export function camelCase (str: string): string {
  return mapWords(str, (word, i) => {
    word = lowerCase(word)
    return i === 0 ? word : capitalize(word!)
  })
}
]]
    [camelWord] is the arrow function. *)
Definition camelWord (word : jsstring) (i : nat) : result (option jsstring) :=
  let word := lowerCase word in
  if Nat.eqb i 0 then Ok (Some word)
  else bind (capitalize word) (fun w => Ok (Some w)).

Definition camelCase (str : jsstring) : result jsstring :=
  mapWords str camelWord [].

End Runtime.

(** A [RegExp] object, as far as this file looks at one: the pattern text
    and the flags it was constructed with.  [new RegExp] rejects a text that
    is no pattern with a [SyntaxError]; a pattern is read when it is used
    ([regExpTest]), and a text that [compile] does not read has no result
    there. *)
Record RegExpObj : Type := NewRegExp {
  source : jsstring;
  flags : option jsstring
}.

(** [/^\/(.+)\/([im]+)?$/] *)
Definition rawPattern : re :=
  Seq Bos (Seq (Chr 47) (Seq (Grp 1 (Plus Dot)) (Seq (Chr 47)
    (Seq (Opt (Grp 2 (Plus (Cls false [CChar 105; CChar 109])))) Eos)))).

(** [/[\-\[\]\/{}()?.\\^$|]/g] *)
Definition metaItems : list citem :=
  [CChar 45; CChar 91; CChar 93; CChar 47; CChar 123; CChar 125; CChar 40;
   CChar 41; CChar 63; CChar 46; CChar 92; CChar 94; CChar 36; CChar 124].

(** [[
export function wildcardToRegExp (wildcardPattern: string, flags?: string): RegExp {
  const regexMatch = /^\/(.+)\/([im]+)?$/.exec(wildcardPattern)
  if (regexMatch) {
    return new RegExp(regexMatch[1], regexMatch[2] || flags)
  }
  const pattern = wildcardPattern
    .replace(/[\-\[\]\/{}()?.\\^$|]/g, '\\$&')
    .replace(/\*/g, '.*?')
    .replace(/\+/g, '.+?')
  return new RegExp(`^${pattern}$`, flags)
}
]] *)
Definition wildcardToRegExp (wildcardPattern : jsstring) (flags : option jsstring)
    : RegExpObj :=
  match exec rawPattern wildcardPattern with
  | Some regexMatch =>
    NewRegExp (default [] (capture 1 regexMatch))
              (match capture 2 regexMatch with
               | Some ((_ :: _) as f) => Some f
               | _ => flags
               end)
  | None =>
    let pattern :=
      replaceAll (Chr 43) (js ".+?")
        (replaceAll (Chr 42) (js ".*?")
          (replaceAll (Cls false metaItems) (js "\$&") wildcardPattern)) in
    NewRegExp (js "^" ++ pattern ++ js "$") flags
  end.

(** Reading a pattern text.  The reader knows the syntax that the glob
    branch of [wildcardToRegExp] can produce: [^], [$], [.], a backslash
    before a code unit that is no ASCII letter or digit (the code unit
    itself), any code unit that is no syntax character, and the quantifiers
    [*], [+], [?] with their lazy forms after an atom. *)
Definition isSyntaxChar (c : N) : bool :=
  existsb (N.eqb c) [94; 36; 92; 46; 42; 43; 63; 40; 41; 91; 93; 123; 125; 124]%N.

Definition isAsciiAlnum (c : N) : bool :=
  inRange 48 57 c || inRange 65 90 c || inRange 97 122 c.

Definition quantifierOf (c : N) : option (nat * option nat) :=
  if (c =? 42)%N then Some (0, None)
  else if (c =? 43)%N then Some (1, None)
  else if (c =? 63)%N then Some (0, Some 1)
  else None.

Definition readQuantifier (atom : re) (s : jsstring) : re * jsstring :=
  match s with
  | q :: s1 =>
    match quantifierOf q with
    | Some (lo, hi) =>
      match s1 with
      | a :: s2 =>
        if (a =? 63)%N then (Quant lo hi false atom, s2)
        else (Quant lo hi true atom, s1)
      | [] => (Quant lo hi true atom, s1)
      end
    | None => (atom, s)
    end
  | [] => (atom, s)
  end.

Fixpoint readTerms (fuel : nat) (s : jsstring) : option (list re) :=
  match fuel with
  | O => None
  | S fuel' =>
    match s with
    | [] => Some []
    | c :: s1 =>
      if (c =? 94)%N || (c =? 36)%N then
        match s1 with
        | q :: _ =>
          match quantifierOf q with
          | Some _ => None
          | None => cons (if (c =? 94)%N then Bos else Eos) <$> readTerms fuel' s1
          end
        | [] => Some [if (c =? 94)%N then Bos else Eos]
        end
      else if (c =? 46)%N then
        let '(t, s2) := readQuantifier Dot s1 in cons t <$> readTerms fuel' s2
      else if (c =? 92)%N then
        match s1 with
        | e :: s2 =>
          if isAsciiAlnum e then None
          else let '(t, s3) := readQuantifier (Chr e) s2 in
               cons t <$> readTerms fuel' s3
        | [] => None
        end
      else if isSyntaxChar c then None
      else let '(t, s2) := readQuantifier (Chr c) s1 in cons t <$> readTerms fuel' s2
    end
  end.

Definition compile (src : jsstring) : option re :=
  foldr Seq Eps <$> readTerms (S (length src)) src.

(** [r.test(s)] for a [RegExp] object without flags. *)
Definition regExpTest (r : RegExpObj) (s : jsstring) : option bool :=
  match flags r with
  | None | Some [] => (fun p => test p s) <$> compile (source r)
  | Some (_ :: _) => None
  end.

(** Values that a template resolves to. Numbers are the integers and
    [NaN]; an object or a function is known by a name only. *)
Inductive jsval : Type :=
| VUndefined
| VNull
| VBool (b : bool)
| VNum (z : Z)
| VNaN
| VStr (s : jsstring)
| VObject (name : jsstring).

(** [ToBoolean]: every object is truthy. *)
Definition truthy (v : jsval) : bool :=
  match v with
  | VUndefined | VNull | VNaN => false
  | VBool b => b
  | VNum z => negb (z =? 0)%Z
  | VStr s => match s with [] => false | _ :: _ => true end
  | VObject _ => true
  end.

(** [ToString] of a value, for [join]: [undefined] and [null] give the
    empty string there.  An integer below 10^21 in size prints in decimal
    digits; the exponent form of the larger ones is not written out, and
    neither is the text of an object or a function. *)
Definition numberToString (z : Z) : option jsstring :=
  if (Z.abs z <? 10 ^ 21)%Z then
    Some ((if (z <? 0)%Z then js "-" else [])
          ++ js (NilEmpty.string_of_uint (N.to_uint (Z.abs_N z))))
  else None.

Definition elementToString (v : jsval) : option jsstring :=
  match v with
  | VUndefined | VNull => Some []
  | VBool true => Some (js "true")
  | VBool false => Some (js "false")
  | VNum z => numberToString z
  | VNaN => Some (js "NaN")
  | VStr s => Some s
  | VObject _ => None
  end.

(** [Array.prototype.join] on an array of values. *)
Fixpoint joinValues (sep : jsstring) (l : list jsval) : option jsstring :=
  match l with
  | [] => Some []
  | [v] => elementToString v
  | v :: tl =>
    match elementToString v, joinValues sep tl with
    | Some a, Some b => Some (a ++ sep ++ b)
    | _, _ => None
    end
  end.

(** The pattern of [template], written here with blanks between its parts:
    [( \$ { ( [\s]* [^;\s{]+ [\s]* ) } )] with the [g] flag.  Group 1 is the
    whole placeholder, group 2 what stands between the braces. *)
Definition placeholder : re :=
  Grp 1 (Seq (Chr 36) (Seq (Chr 123)
    (Seq (Grp 2 (Seq (Star (Cls false [CSpace]))
                (Seq (Plus (Cls true [CChar 59; CSpace; CChar 123]))
                     (Star (Cls false [CSpace])))))
         (Chr 125)))).

(** The text that a template literal gives for a string or [undefined]. *)
Definition interpolate (x : option jsstring) : jsstring :=
  default (js "undefined") x.

Definition startsWithDollar (piece : jsstring) : bool :=
  match piece with
  | c :: _ => (c =? 36)%N
  | [] => false
  end.

(** The loop of [template] over the pieces of the split.  A piece whose
    first code unit is a dollar sign ([sanitized[i][0] === '$']) is skipped
    and the piece after it ([sanitized[++i]], [undefined] past the end) goes
    between [$d('] and ['),]; any other piece goes between double quotes
    followed by a comma, after [replace] with a string pattern has put a
    backslash before its first double quote. *)
Fixpoint templateLoop (sanitized : list (option jsstring)) : result jsstring :=
  match sanitized with
  | [] => Ok []
  | None :: _ => Throw TypeError
  | Some piece :: tl =>
    if startsWithDollar piece then
      match tl with
      | [] => Ok (js "$d('" ++ interpolate None ++ js "'),")
      | next :: tl' =>
        bind (templateLoop tl')
             (fun fn => Ok (js "$d('" ++ interpolate next ++ js "')," ++ fn))
      end
    else
      bind (templateLoop tl)
           (fun fn => Ok ([34%N] ++ replaceFirst [34%N] [92%N; 34%N] piece
                          ++ [34%N; 44%N] ++ fn))
  end.

(** The elements of the array that the generated function returns. *)
Inductive item : Type :=
| Lit (s : jsstring)       (* a string literal *)
| Call (key : jsstring).   (* $d('key') *)

(** A string literal of the generated code after its opening quote [q]:
    the value and the text after the closing quote.  A backslash before one
    of [b f n r t v] is the control character, before a quote or a
    backslash the character itself, before any other code unit that starts
    no numeric, hexadecimal or Unicode escape and is no line terminator
    the code unit itself.  A literal holds no raw line terminator. *)
Definition escapeValue (e : N) : option N :=
  if (e =? 98)%N then Some 8%N
  else if (e =? 116)%N then Some 9%N
  else if (e =? 110)%N then Some 10%N
  else if (e =? 118)%N then Some 11%N
  else if (e =? 102)%N then Some 12%N
  else if (e =? 114)%N then Some 13%N
  else if inRange 48 57 e || (e =? 120)%N || (e =? 117)%N || isLineTerminator e
  then None
  else Some e.

Fixpoint stringLiteral (q : N) (s : jsstring) : option (jsstring * jsstring) :=
  match s with
  | [] => None
  | c :: tl =>
    if (c =? q)%N then Some ([], tl)
    else if (c =? 92)%N then
      match tl with
      | e :: tl' =>
        match escapeValue e, stringLiteral q tl' with
        | Some v, Some (lit, after) => Some (v :: lit, after)
        | _, _ => None
        end
      | [] => None
      end
    else if isLineTerminator c then None
    else
      match stringLiteral q tl with
      | Some (lit, after) => Some (c :: lit, after)
      | None => None
      end
  end.

(** The elements of the array literal after [return []: string literals in
    double quotes and calls [$d('...')], each followed by a comma, up to
    the closing bracket.  Code of any other shape has no result here. *)
Fixpoint arrayElements (fuel : nat) (s : jsstring) : option (list item) :=
  match fuel with
  | O => None
  | S fuel' =>
    match s with
    | [] => None
    | c :: s1 =>
      if (c =? 93)%N then
        match s1 with [] => Some [] | _ :: _ => None end
      else if (c =? 34)%N then
        match stringLiteral 34 s1 with
        | Some (lit, d :: after) =>
          if (d =? 44)%N then cons (Lit lit) <$> arrayElements fuel' after else None
        | _ => None
        end
      else if startsWith (js "$d('") s then
        match stringLiteral 39 (skipn 4 s) with
        | Some (key, d :: e :: after) =>
          if (d =? 41)%N && (e =? 44)%N
          then cons (Call key) <$> arrayElements fuel' after else None
        | _ => None
        end
      else None
    end
  end.

(** [Function('$d', body)] for a body of the shape that [template]
    generates. *)
Definition functionBody (body : jsstring) : option (list item) :=
  if startsWith (js "return [") body
  then arrayElements (S (length body)) (skipn 8 body)
  else None.

(** The call of a compiled template function with the resolver [d]. *)
Definition callTemplate (prog : list item) (d : jsstring -> jsval) : list jsval :=
  map (fun it => match it with Lit s => VStr s | Call key => d key end) prog.

(** [[
export function template<T> (template: string): (data: (key: string) => T) => string[] {
  const sanitized = template.split(placeholder)
  let fn = 'return ['
  for ... (see [templateLoop])
  return Function('$d', `${fn}]`) as (data: (key: string) => T) => string[]
}
]]
    [templateProgram] is the array literal of the function that [template]
    returns, [None] when the generated code is outside [functionBody]. *)
Definition templateSource (tpl : jsstring) : result jsstring :=
  bind (templateLoop (split placeholder tpl))
       (fun fn => Ok (js "return [" ++ fn ++ js "]")).

Definition templateProgram (tpl : jsstring) : result (option (list item)) :=
  bind (templateSource tpl) (fun body => Ok (functionBody body)).

Definition template (tpl : jsstring)
    : result (option ((jsstring -> jsval) -> list jsval)) :=
  bind (templateProgram tpl) (fun prog => Ok (callTemplate <$> prog)).

(** An object, as far as a property read looks at one: its own
    properties, and the properties that its prototype chain has for it.
    [value[key]] is the own property when there is one, the inherited one
    otherwise, and [undefined] when there is neither. *)
Record jsobject : Type := JsObject {
  own : gmap jsstring jsval;
  inherited : gmap jsstring jsval
}.

Definition getProperty (o : jsobject) (key : jsstring) : jsval :=
  match own o !! key with
  | Some v => v
  | None => default VUndefined (inherited o !! key)
  end.

(** The properties of [Object.prototype], which an object literal and
    every other plain object inherits: functions, and under [__proto__]
    the prototype itself. *)
Definition objectPrototype : gmap jsstring jsval :=
  list_to_map
    [(js "constructor", VObject (js "Object"));
     (js "hasOwnProperty", VObject (js "hasOwnProperty"));
     (js "isPrototypeOf", VObject (js "isPrototypeOf"));
     (js "propertyIsEnumerable", VObject (js "propertyIsEnumerable"));
     (js "toLocaleString", VObject (js "toLocaleString"));
     (js "toString", VObject (js "toString"));
     (js "valueOf", VObject (js "valueOf"));
     (js "__proto__", VObject (js "Object.prototype"));
     (js "__defineGetter__", VObject (js "__defineGetter__"));
     (js "__defineSetter__", VObject (js "__defineSetter__"));
     (js "__lookupGetter__", VObject (js "__lookupGetter__"));
     (js "__lookupSetter__", VObject (js "__lookupSetter__"))].

(** An object literal with the properties [props], and an object with the
    same properties that inherits nothing ([Object.create(null)]). *)
Definition objectLiteral (props : gmap jsstring jsval) : jsobject :=
  JsObject props objectPrototype.


(** [[
export function templateObject<T> (value: { [key: string]: T }, nullValue?: T): (key: string) => T {
  return function (key: string): T {
    return value[key] || nullValue
  }
}
]]
    A [nullValue] that was not given reads as [undefined]. *)
Definition templateObject (value : jsobject) (nullValue : option jsval)
    : jsstring -> jsval :=
  fun key =>
    let v := getProperty value key in
    if truthy v then v else default VUndefined nullValue.

End Strings.

(* ===================================================================== *)
(** ** The vocabulary of the specification *)
(* ===================================================================== *)

Module Spec.

Import Strings.

(** The letters and digits of the extended matcher. *)
Definition isUpper (c : N) : bool := inClass false upperItems c.
Definition isLower (c : N) : bool := inClass false lowerItems c.
Definition isDigit (c : N) : bool := inClass false [CDigit] c.

(** A word-forming code unit: a letter of U+0000..U+00FF or a digit. *)
Definition isWordChar (c : N) : bool := isUpper c || isLower c || isDigit c.

(** The shapes of the extended matcher's tokens: an optional capital and
    lowercase letters, a run of capitals, or a run of digits. *)
Definition unicodeToken (w : jsstring) : Prop :=
  (exists u l, w = u ++ l /\ length u <= 1 /\ Forall (fun c => isUpper c = true) u
               /\ l <> [] /\ Forall (fun c => isLower c = true) l)
  \/ (w <> [] /\ Forall (fun c => isUpper c = true) w)
  \/ (w <> [] /\ Forall (fun c => isDigit c = true) w).

(** A token: not empty, and made of word-forming code units. *)
Definition wellFormedToken (w : jsstring) : Prop :=
  w <> [] /\ Forall (fun c => isWordChar c = true) w.

(** [capitalizeFirst]: the first code unit in upper case, the others as
    they are. *)
Definition capitalizeFirst (w : jsstring) : jsstring :=
  match w with
  | [] => []
  | c :: tl => upper1 c ++ tl
  end.

(** The camel-case text of a token sequence, in the words of the
    specification: every token in lower case, the token at index 0 as it
    is, every later token with its first character capitalized, and the
    tokens side by side. *)
Fixpoint camelTokens (i : nat) (ws : list jsstring) : list jsstring :=
  match ws with
  | [] => []
  | w :: tl =>
    (if Nat.eqb i 0 then map lower1 w else capitalizeFirst (map lower1 w))
      :: camelTokens (S i) tl
  end.

Definition camelText (ws : list jsstring) : jsstring := concat (camelTokens 0 ws).

(** *** Globs

    The glob branch of [wildcardToRegExp] in the words of the
    specification: the metacharacters are escaped first, then every [*]
    becomes [.*?] and every [+] becomes [.+?], and the result stands between
    [^] and [$]. *)
Definition isMeta (c : N) : bool := inClass false metaItems c.

Definition escapeMeta (p : jsstring) : jsstring :=
  flat_map (fun c => if isMeta c then [92%N; c] else [c]) p.

Definition replaceEvery (c : N) (by_ : jsstring) (s : jsstring) : jsstring :=
  flat_map (fun d => if (d =? c)%N then by_ else [d]) s.

Definition globSource (p : jsstring) : jsstring :=
  js "^" ++ replaceEvery 43 (js ".+?") (replaceEvery 42 (js ".*?") (escapeMeta p))
         ++ js "$".

(** What one code unit of a glob contributes to the pattern text, and the
    term it stands for. *)
Definition globText (c : N) : jsstring :=
  if isMeta c then [92%N; c]
  else if (c =? 42)%N then js ".*?"
  else if (c =? 43)%N then js ".+?"
  else [c].

Definition globTerm (c : N) : re :=
  if (c =? 42)%N then StarLazy Dot
  else if (c =? 43)%N then PlusLazy Dot
  else Chr c.

Definition globPattern (p : jsstring) : re :=
  Seq Bos (foldr Seq (Seq Eos Eps) (map globTerm p)).

(** Whole-string matching of a glob: [*] stands for any run of code units
    that are no line terminators, [+] for such a run of at least one, any
    other code unit for itself; the glob has to use up the whole string. *)
Fixpoint anyRun (k : jsstring -> bool) (s : jsstring) : bool :=
  k s || match s with
         | c :: s' => negb (isLineTerminator c) && anyRun k s'
         | [] => false
         end.

Fixpoint globMatch (p s : jsstring) : bool :=
  match p with
  | [] => match s with [] => true | _ :: _ => false end
  | c :: p' =>
    if (c =? 42)%N then anyRun (globMatch p') s
    else if (c =? 43)%N then
      match s with
      | d :: s' => negb (isLineTerminator d) && anyRun (globMatch p') s'
      | [] => false
      end
    else
      match s with
      | d :: s' => (d =? c)%N && globMatch p' s'
      | [] => false
      end
  end.

(** *** Kebab form

    A string in hyphen-separated lowercase word form: words joined by
    single hyphens, each word a non-empty run of lowercase letters or a
    non-empty run of digits (the two shapes of a lowercased token). *)
Definition isKebabWord (w : jsstring) : bool :=
  match w with
  | [] => false
  | _ :: _ => forallb isLower w || forallb isDigit w
  end.

Fixpoint splitHyphen (s : jsstring) : list jsstring :=
  match s with
  | [] => [[]]
  | c :: s' =>
    if (c =? 45)%N then [] :: splitHyphen s'
    else match splitHyphen s' with
         | w :: ws => (c :: w) :: ws
         | [] => [[c]]
         end
  end.

Definition isKebabForm (s : jsstring) : bool :=
  match s with
  | [] => true
  | _ :: _ => forallb isKebabWord (splitHyphen s)
  end.

(** What may follow a token in a string in kebab form: the end or a
    hyphen. *)
Definition boundary (tail : jsstring) : Prop :=
  tail = [] \/ exists t, tail = 45%N :: t.

(** *** Templates

    A template as the specification has it: a literal, then placeholders
    each followed by a literal.  A plain literal has no dollar sign, double
    quote, backslash, closing brace or line terminator; a plain key is not
    empty and has no semicolon, brace, single quote, backslash or white
    space. *)
Definition isLiteralChar (c : N) : bool :=
  negb ((c =? 36)%N || (c =? 34)%N || (c =? 92)%N || (c =? 125)%N
        || isLineTerminator c).

Definition isKeyChar (c : N) : bool :=
  negb ((c =? 59)%N || (c =? 123)%N || (c =? 125)%N || (c =? 39)%N
        || (c =? 92)%N || isSpace c).

Definition isPlainKey (k : jsstring) : bool :=
  match k with
  | [] => false
  | _ :: _ => forallb isKeyChar k
  end.

Definition isPlainSegment (seg : jsstring * jsstring) : bool :=
  isPlainKey (fst seg) && forallb isLiteralChar (snd seg).

Fixpoint templateText (segs : list (jsstring * jsstring)) : jsstring :=
  match segs with
  | [] => []
  | (k, l) :: tl => 36%N :: 123%N :: k ++ 125%N :: l ++ templateText tl
  end.

Fixpoint templateItems (segs : list (jsstring * jsstring)) : list item :=
  match segs with
  | [] => []
  | (k, l) :: tl => Call k :: Lit l :: templateItems tl
  end.

(** The pieces that [split] makes of such a template, and the code that
    [template] generates from them. *)
Fixpoint splitPieces (lit : jsstring) (segs : list (jsstring * jsstring))
    : list (option jsstring) :=
  Some lit ::
    match segs with
    | [] => []
    | (k, l) :: tl =>
      Some (36%N :: 123%N :: k ++ [125%N]) :: Some k :: splitPieces l tl
    end.

Fixpoint generatedItems (segs : list (jsstring * jsstring)) : jsstring :=
  match segs with
  | [] => []
  | (k, l) :: tl =>
    js "$d('" ++ k ++ js "')," ++ [34%N] ++ l ++ [34%N; 44%N] ++ generatedItems tl
  end.

(** What a compiled template returns for the segments. *)
Fixpoint resolvedSegments (d : jsstring -> jsval)
    (segs : list (jsstring * jsstring)) : list jsval :=
  match segs with
  | [] => []
  | (k, l) :: tl => d k :: VStr l :: resolvedSegments d tl
  end.

(** Every closing brace of [t] comes after an opening brace of [t]. *)
Definition guarded (t : jsstring) : Prop :=
  forall a b, t = a ++ 125%N :: b -> In 123%N a.

(** *** Separators of [caseStr]

    A code unit that can stand between the tokens of a cased string: one
    that the extended matcher takes for a word break and that is no ASCII
    letter, digit or blank.  The hyphen of [kebabCase] and the underscore
    of [snakeCase] are such. *)
Definition isTokenSeparator (c : N) : bool :=
  inClass false breakItems c && negb (inClass false plainItems c).

Definition boundaryAt (sep : N) (tail : jsstring) : Prop :=
  tail = [] \/ exists t, tail = sep :: t.

(** The tokens of a string in lower case. *)
Definition lowerWords (s : jsstring) : list jsstring :=
  map (map lower1) (words (ArgStr s)).

(** *** The escape hatch of [wildcardToRegExp]

    A text of the shape that [/^\/(.+)\/([im]+)?$/] accepts: a slash, a
    non-empty source without line terminators, a slash, and letters i and m
    (or none). *)
Definition isFlagChar (c : N) : bool := (c =? 105)%N || (c =? 109)%N.

Definition rawForm (p src fl : jsstring) : Prop :=
  p = 47%N :: src ++ 47%N :: fl
  /\ src <> []
  /\ Forall (fun c => isLineTerminator c = false) src
  /\ Forall (fun c => isFlagChar c = true) fl.

(** The wildcards of a glob, and a glob without any. *)
Definition isWildcard (c : N) : bool := (c =? 42)%N || (c =? 43)%N.

Definition isLiteralGlob (p : jsstring) : bool :=
  forallb (fun c => negb (isWildcard c)) p.

(** *** Rendering

    A key that is no name of a property of [Object.prototype]; what a key
    stands for when the values are strings: its value in the map, or the
    fallback when the map lacks the key or holds the empty string for it,
    and nothing without a fallback.  [substitute] is the text of the
    segments with every key replaced so. *)
Definition inheritsNothing (k : jsstring) : bool :=
  match objectPrototype !! k with
  | None => true
  | Some _ => false
  end.

Definition resolveText (m : gmap jsstring jsstring) (nv : option jsstring)
    (k : jsstring) : jsstring :=
  match m !! k with
  | Some (c :: v) => c :: v
  | _ => default [] nv
  end.

Fixpoint substitute (m : gmap jsstring jsstring) (nv : option jsstring)
    (segs : list (jsstring * jsstring)) : jsstring :=
  match segs with
  | [] => []
  | (k, l) :: tl => resolveText m nv k ++ l ++ substitute m nv tl
  end.

(** A letter of U+0000..U+00FF, of either case. *)
Definition isLetter (c : N) : bool := isUpper c || isLower c.

End Spec.

(* ===================================================================== *)
(** ** The matcher: positions, fuel, and what a match consumes *)
(* ===================================================================== *)

Module RegExpFacts.

Lemma later_refl x : later x x.
Proof. exists []. simpl. split; [done | lia]. Qed.

Lemma later_trans x y z : later x y -> later y z -> later x z.
Proof.
  intros [w [Hw Hi]] [v [Hv Hj]]. exists (w ++ v).
  rewrite Hw, Hv, <- app_assoc, length_app. split; [done | lia].
Qed.

Lemma later_advance x ch tl : rest x = ch :: tl -> later x (advance x).
Proof.
  intros H. exists [ch]. unfold advance. simpl. rewrite H. simpl.
  split; [done | lia].
Qed.

Lemma later_length x y : later x y -> length (rest y) <= length (rest x).
Proof. intros [w [Hw _]]. rewrite Hw, length_app. lia. Qed.

Lemma later_progress x y :
  later x y -> endIndex y <> endIndex x -> length (rest y) < length (rest x).
Proof.
  intros [w [Hw Hi]] Hne. rewrite Hw, length_app.
  destruct w; simpl in *; lia.
Qed.

Lemma repeatMatcher_ext mr gs :
  respectful mr ->
  forall fuel min max greedy, respectful (repeatMatcher mr gs fuel min max greedy).
Proof.
  intros Hmr fuel. induction fuel as [|fuel IH]; intros min max greedy x c c' Hc.
  - reflexivity.
  - simpl.
    assert (Hx : c x = c' x) by apply Hc, later_refl.
    assert (Hd : forall mx,
      mr (clearCaptures gs x)
        (fun y => if Nat.eqb min 0 && Nat.eqb (endIndex y) (endIndex x) then None
                  else repeatMatcher mr gs fuel (Nat.pred min) mx greedy y c)
      = mr (clearCaptures gs x)
        (fun y => if Nat.eqb min 0 && Nat.eqb (endIndex y) (endIndex x) then None
                  else repeatMatcher mr gs fuel (Nat.pred min) mx greedy y c')).
    { intros mx. apply Hmr. intros y Hy.
      destruct (Nat.eqb min 0 && Nat.eqb (endIndex y) (endIndex x)); [done|].
      apply IH. intros z Hz. apply Hc. eapply later_trans; [exact Hy | exact Hz]. }
    destruct max as [[|m]|]; [exact Hx | |];
      (destruct min; [destruct greedy|]); rewrite ?Hd, ?Hx; reflexivity.
Qed.

Lemma matcher_ext r : respectful (matcher r).
Proof.
  induction r as [| ng its | | r1 IH1 r2 IH2 | r1 IH1 r2 IH2
                 | min max greedy r1 IH1 | r1 IH1 | | | i r1 IH1];
    intros x c c' Hc; simpl.
  - apply Hc, later_refl.
  - destruct (rest x) as [|ch tl] eqn:E; [done|].
    destruct (inClass ng its ch); [|done].
    apply Hc. eapply later_advance; eauto.
  - destruct (rest x) as [|ch tl] eqn:E; [done|].
    destruct (isLineTerminator ch); [done|].
    apply Hc. eapply later_advance; eauto.
  - apply IH1. intros y Hy. apply IH2. intros z Hz. apply Hc.
    eapply later_trans; eauto.
  - rewrite (IH1 x c c' Hc), (IH2 x c c' Hc). reflexivity.
  - apply repeatMatcher_ext; assumption.
  - destruct (matcher r1 x Some) as [y|]; [|done].
    apply Hc. exists []. simpl. split; [done | lia].
  - destruct (Nat.eqb (endIndex x) 0); [|done]. apply Hc, later_refl.
  - destruct (rest x); [|done]. apply Hc, later_refl.
  - apply IH1. intros y Hy. apply Hc. exact Hy.
Qed.

(** Any fuel above the measure gives the same result. *)
Lemma repeatMatcher_fuel mr gs :
  respectful mr ->
  forall fuel fuel' min max greedy x c,
    min + length (rest x) < fuel -> min + length (rest x) < fuel' ->
    repeatMatcher mr gs fuel min max greedy x c
    = repeatMatcher mr gs fuel' min max greedy x c.
Proof.
  intros Hmr fuel.
  induction fuel as [|fuel IH]; intros fuel' min max greedy x c Hf Hf'; [lia|].
  destruct fuel' as [|fuel']; [lia|]. simpl.
  assert (Hd : forall mx,
    mr (clearCaptures gs x)
      (fun y => if Nat.eqb min 0 && Nat.eqb (endIndex y) (endIndex x) then None
                else repeatMatcher mr gs fuel (Nat.pred min) mx greedy y c)
    = mr (clearCaptures gs x)
      (fun y => if Nat.eqb min 0 && Nat.eqb (endIndex y) (endIndex x) then None
                else repeatMatcher mr gs fuel' (Nat.pred min) mx greedy y c)).
  { intros mx. apply Hmr. intros y Hy.
    destruct (Nat.eqb min 0) eqn:Em; simpl.
    - destruct (Nat.eqb (endIndex y) (endIndex x)) eqn:Ei; [done|].
      apply Nat.eqb_eq in Em. apply Nat.eqb_neq in Ei.
      pose proof (later_progress _ _ Hy Ei) as Hp. simpl in Hp.
      apply IH; lia.
    - apply Nat.eqb_neq in Em.
      pose proof (later_length _ _ Hy) as Hp. simpl in Hp.
      apply IH; lia. }
  destruct max as [[|m]|]; [done | |];
    (destruct min; [destruct greedy|]); rewrite ?Hd; reflexivity.
Qed.

(** The repetition matcher without its fuel: the equation of the language
    standard. *)
Lemma matcher_Quant min max greedy r x c :
  matcher (Quant min max greedy r) x c =
  match max with
  | Some O => c x
  | _ =>
    let d : cont := fun y =>
      if Nat.eqb min 0 && Nat.eqb (endIndex y) (endIndex x) then None
      else matcher (Quant (Nat.pred min) (Nat.pred <$> max) greedy r) y c in
    let xr := clearCaptures (groups r) x in
    match min with
    | S _ => matcher r xr d
    | O =>
      if greedy then
        match matcher r xr d with Some z => Some z | None => c x end
      else
        match c x with Some z => Some z | None => matcher r xr d end
    end
  end.
Proof.
  cbn [matcher]. replace (min + length (rest x) + 1) with (S (min + length (rest x))) by lia.
  cbn [repeatMatcher].
  assert (Hd : forall mx,
    matcher r (clearCaptures (groups r) x)
      (fun y => if Nat.eqb min 0 && Nat.eqb (endIndex y) (endIndex x) then None
                else repeatMatcher (matcher r) (groups r) (min + length (rest x))
                       (Nat.pred min) mx greedy y c)
    = matcher r (clearCaptures (groups r) x)
      (fun y => if Nat.eqb min 0 && Nat.eqb (endIndex y) (endIndex x) then None
                else repeatMatcher (matcher r) (groups r)
                       (Nat.pred min + length (rest y) + 1)
                       (Nat.pred min) mx greedy y c)).
  { intros mx. apply matcher_ext. intros y Hy.
    destruct (Nat.eqb min 0) eqn:Em; simpl.
    - destruct (Nat.eqb (endIndex y) (endIndex x)) eqn:Ei; [done|].
      apply Nat.eqb_eq in Em. apply Nat.eqb_neq in Ei.
      pose proof (later_progress _ _ Hy Ei) as Hp. simpl in Hp.
      apply repeatMatcher_fuel; [apply matcher_ext | lia | lia].
    - apply Nat.eqb_neq in Em.
      pose proof (later_length _ _ Hy) as Hp. simpl in Hp.
      apply repeatMatcher_fuel; [apply matcher_ext | lia | lia]. }
  destruct max as [[|m]|]; [done | |];
    (destruct min; [destruct greedy|]); cbn zeta; rewrite ?Hd; reflexivity.
Qed.

(** The equations of the quantifiers of the source. *)
Lemma matcher_Star r x c :
  matcher (Star r) x c =
  match matcher r (clearCaptures (groups r) x)
          (fun y => if Nat.eqb (endIndex y) (endIndex x) then None
                    else matcher (Star r) y c) with
  | Some z => Some z
  | None => c x
  end.
Proof. unfold Star. rewrite matcher_Quant. reflexivity. Qed.

Lemma matcher_Plus r x c :
  matcher (Plus r) x c =
  matcher r (clearCaptures (groups r) x) (fun y => matcher (Star r) y c).
Proof. unfold Plus. rewrite matcher_Quant. reflexivity. Qed.

Lemma matcher_StarLazy r x c :
  matcher (StarLazy r) x c =
  match c x with
  | Some z => Some z
  | None =>
    matcher r (clearCaptures (groups r) x)
      (fun y => if Nat.eqb (endIndex y) (endIndex x) then None
                else matcher (StarLazy r) y c)
  end.
Proof. unfold StarLazy. rewrite matcher_Quant. reflexivity. Qed.

Lemma matcher_PlusLazy r x c :
  matcher (PlusLazy r) x c =
  matcher r (clearCaptures (groups r) x) (fun y => matcher (StarLazy r) y c).
Proof. unfold PlusLazy. rewrite matcher_Quant. reflexivity. Qed.

Lemma matcher_Opt r x c :
  matcher (Opt r) x c =
  match matcher r (clearCaptures (groups r) x)
          (fun y => if Nat.eqb (endIndex y) (endIndex x) then None else c y) with
  | Some z => Some z
  | None => c x
  end.
Proof.
  unfold Opt. rewrite matcher_Quant. cbv zeta.
  rewrite (matcher_ext r _ _
    (fun y => if Nat.eqb (endIndex y) (endIndex x) then None else c y)).
  - reflexivity.
  - intros y _. cbn [Nat.eqb andb].
    destruct (Nat.eqb (endIndex y) (endIndex x)); [reflexivity|].
    rewrite matcher_Quant. reflexivity.
Qed.

Lemma matcher_Cls ng its x c :
  matcher (Cls ng its) x c =
  match rest x with
  | ch :: _ => if inClass ng its ch then c (advance x) else None
  | [] => None
  end.
Proof. reflexivity. Qed.

Lemma matcher_Dot x c :
  matcher Dot x c =
  match rest x with
  | ch :: _ => if isLineTerminator ch then None else c (advance x)
  | [] => None
  end.
Proof. reflexivity. Qed.

Lemma matcher_Seq r1 r2 x c :
  matcher (Seq r1 r2) x c = matcher r1 x (fun y => matcher r2 y c).
Proof. reflexivity. Qed.

Lemma matcher_Alt r1 r2 x c :
  matcher (Alt r1 r2) x c =
  match matcher r1 x c with Some z => Some z | None => matcher r2 x c end.
Proof. reflexivity. Qed.

Lemma matcher_Look r x c :
  matcher (Look r) x c =
  match matcher r x Some with
  | Some y => c (MState (endIndex x) (rest x) (captures y))
  | None => None
  end.
Proof. reflexivity. Qed.

Lemma matcher_Eos x c :
  matcher Eos x c = match rest x with [] => c x | _ :: _ => None end.
Proof. reflexivity. Qed.

Lemma succ_neqb n : Nat.eqb (S n) n = false.
Proof. apply Nat.eqb_neq. lia. Qed.

(** Soundness: a result of the matcher comes from a position that the
    pattern can reach and that the continuation accepts. *)
Lemma repeatMatcher_sound r gs :
  (forall x c z, matcher r x c = Some z ->
     exists y, den r (posOf x) (posOf y) /\ c y = Some z) ->
  forall fuel min max greedy x c z,
    repeatMatcher (matcher r) gs fuel min max greedy x c = Some z ->
    exists y n, withinBounds min max n /\ iter n (den r) (posOf x) (posOf y)
                /\ c y = Some z.
Proof.
  intros Hr fuel. induction fuel as [|fuel IH]; intros min max greedy x c z H; [done|].
  simpl in H.
  assert (Hzero : c x = Some z ->
    (min = 0 \/ max = Some 0) ->
    exists y n, withinBounds min max n /\ iter n (den r) (posOf x) (posOf y)
                /\ c y = Some z).
  { intros Hc Hm. exists x, 0. split; [|split; [reflexivity | exact Hc]].
    unfold withinBounds. destruct max as [m|]; destruct Hm as [->| Hm];
      try (injection Hm as ->); try discriminate; lia. }
  assert (Hstep : forall mx, Nat.pred <$> max = mx -> max <> Some 0 ->
    matcher r (clearCaptures gs x)
      (fun y => if Nat.eqb min 0 && Nat.eqb (endIndex y) (endIndex x) then None
                else repeatMatcher (matcher r) gs fuel (Nat.pred min) mx greedy y c)
      = Some z ->
    exists y n, withinBounds min max n /\ iter n (den r) (posOf x) (posOf y)
                /\ c y = Some z).
  { intros mx Hmx Hne Hm. apply Hr in Hm as [y [Hy Hd]].
    destruct (Nat.eqb min 0 && Nat.eqb (endIndex y) (endIndex x)); [done|].
    apply IH in Hd as [y' [n [Hb [Hit Hc]]]].
    exists y', (S n). split; [|split; [|exact Hc]].
    - subst mx. unfold withinBounds in *. destruct max as [[|m]|]; simpl in *;
        [done | lia | lia].
    - simpl. exists (posOf y). split; [exact Hy | exact Hit]. }
  destruct max as [[|m]|].
  - apply Hzero; auto.
  - destruct min; [destruct greedy|].
    + destruct (matcher r _ _) eqn:E in H.
      * injection H as ->. eapply Hstep; [reflexivity | done | exact E].
      * apply Hzero; auto.
    + destruct (c x) eqn:E.
      * injection H as ->. apply Hzero; auto.
      * eapply Hstep; [reflexivity | done | exact H].
    + eapply Hstep; [reflexivity | done | exact H].
  - destruct min; [destruct greedy|].
    + destruct (matcher r _ _) eqn:E in H.
      * injection H as ->. eapply Hstep; [reflexivity | done | exact E].
      * apply Hzero; auto.
    + destruct (c x) eqn:E.
      * injection H as ->. apply Hzero; auto.
      * eapply Hstep; [reflexivity | done | exact H].
    + eapply Hstep; [reflexivity | done | exact H].
Qed.

Lemma matcher_sound r : forall x c z,
  matcher r x c = Some z ->
  exists y, den r (posOf x) (posOf y) /\ c y = Some z.
Proof.
  induction r as [| ng its | | r1 IH1 r2 IH2 | r1 IH1 r2 IH2
                 | min max greedy r1 IH1 | r1 IH1 | | | i r1 IH1];
    intros x c z H; simpl in H.
  - exists x. split; [reflexivity | exact H].
  - destruct (rest x) as [|ch tl] eqn:E; [done|].
    destruct (inClass ng its ch) eqn:Ec; [|done].
    exists (advance x). split; [|exact H].
    exists ch. simpl. rewrite E. auto.
  - destruct (rest x) as [|ch tl] eqn:E; [done|].
    destruct (isLineTerminator ch) eqn:Ec; [done|].
    exists (advance x). split; [|exact H].
    exists ch. simpl. rewrite E. auto.
  - apply IH1 in H as [y [Hy H]]. apply IH2 in H as [y' [Hy' H]].
    exists y'. split; [|exact H]. exists (posOf y). auto.
  - destruct (matcher r1 x c) eqn:E.
    + injection H as ->. apply IH1 in E as [y [Hy E]]. exists y. simpl. auto.
    + apply IH2 in H as [y [Hy H]]. exists y. simpl. auto.
  - apply (repeatMatcher_sound r1 (groups r1) IH1) in H as [y [n [Hb [Hit Hc]]]].
    exists y. split; [|exact Hc]. exists n. auto.
  - destruct (matcher r1 x Some) as [y|] eqn:E; [|done].
    apply IH1 in E as [y' [Hy' E]].
    exists (MState (endIndex x) (rest x) (captures y)). split; [|exact H].
    split; [reflexivity|]. exists (posOf y'). exact Hy'.
  - destruct (Nat.eqb (endIndex x) 0) eqn:E; [|done]. apply Nat.eqb_eq in E.
    exists x. simpl. auto.
  - destruct (rest x) eqn:E; [|done]. exists x. simpl. auto.
  - apply IH1 in H as [y [Hy H]]. exists (setCapture i x y). auto.
Qed.

Lemma iter_consumes R n :
  (forall p q, R p q -> exists w, consumes w p q) ->
  forall p q, iter n R p q -> exists w, consumes w p q.
Proof.
  intros HR. induction n as [|n IH]; intros p q H; simpl in H.
  - subst q. exists []. split; simpl; [done | lia].
  - destruct H as [m [H1 H2]]. apply HR in H1 as [w [Hw Hi]].
    apply IH in H2 as [v [Hv Hj]]. exists (w ++ v).
    split; [rewrite Hw, Hv, app_assoc; done | rewrite length_app; lia].
Qed.

Lemma den_consumes r : forall p q, den r p q -> exists w, consumes w p q.
Proof.
  assert (Hrefl : forall p : pos, consumes [] p p).
  { intros p. split; simpl; [done | lia]. }
  induction r as [| ng its | | r1 IH1 r2 IH2 | r1 IH1 r2 IH2
                 | min max greedy r1 IH1 | r1 IH1 | | | i r1 IH1];
    intros p q H; simpl in H.
  - subst q. eauto.
  - destruct H as [ch [H1 [_ H2]]]. exists [ch]. split; simpl; [done | lia].
  - destruct H as [ch [H1 [_ H2]]]. exists [ch]. split; simpl; [done | lia].
  - destruct H as [m [H1 H2]]. apply IH1 in H1 as [w [Hw Hi]].
    apply IH2 in H2 as [v [Hv Hj]]. exists (w ++ v).
    split; [rewrite Hw, Hv, app_assoc; done | rewrite length_app; lia].
  - destruct H as [H|H]; eauto.
  - destruct H as [n [_ H]]. eapply iter_consumes; eauto.
  - destruct H as [-> _]. eauto.
  - destruct H as [-> _]. eauto.
  - destruct H as [-> _]. eauto.
  - eauto.
Qed.

End RegExpFacts.

(* ===================================================================== *)
(** ** Searching and the loop of [match] *)
(* ===================================================================== *)

Module SearchFacts.

Import RegExpFacts.

Lemma matchAt_sound r j s y :
  matchAt r j s = Some y -> den r (j, s) (posOf y).
Proof.
  unfold matchAt. intros H. apply matcher_sound in H as [y' [Hd Hy]].
  injection Hy as ->. exact Hd.
Qed.

Lemma matchAt_consumes r j s y :
  matchAt r j s = Some y ->
  exists w, s = w ++ rest y /\ endIndex y = j + length w.
Proof.
  intros H. apply matchAt_sound, den_consumes in H as [w [Hw Hi]].
  exists w. auto.
Qed.

Lemma search_sound r : forall s i j y,
  search r i s = Some (j, y) ->
  exists pre s', s = pre ++ s' /\ j = i + length pre /\ matchAt r j s' = Some y.
Proof.
  induction s as [|ch s IH]; intros i j y H; simpl in H.
  - destruct (matchAt r i []) eqn:E; [|done]. injection H as <- <-.
    exists [], []. simpl. split; [done|]. split; [lia | exact E].
  - destruct (matchAt r i (ch :: s)) eqn:E.
    + injection H as <- <-. exists [], (ch :: s). simpl.
      split; [done|]. split; [lia | exact E].
    + apply IH in H as [pre [s' [-> [-> H]]]].
      exists (ch :: pre), s'. simpl. split; [done|]. split; [lia | exact H].
Qed.

Lemma search_none r : forall s i,
  search r i s = None ->
  forall pre s', s = pre ++ s' -> matchAt r (i + length pre) s' = None.
Proof.
  induction s as [|ch s IH]; intros i H pre s' Hs; simpl in H.
  - destruct (matchAt r i []) eqn:E; [done|].
    symmetry in Hs. apply app_eq_nil in Hs as [-> ->]. simpl.
    rewrite Nat.add_0_r. exact E.
  - destruct (matchAt r i (ch :: s)) eqn:E; [done|].
    destruct pre as [|a pre]; simpl in Hs.
    + subst s'. simpl. rewrite Nat.add_0_r. exact E.
    + injection Hs as -> ->. simpl.
      replace (i + S (length pre)) with (S i + length pre) by lia.
      eapply IH; eauto.
Qed.

Lemma test_false r s :
  test r s = false ->
  forall pre s', s = pre ++ s' -> matchAt r (length pre) s' = None.
Proof.
  unfold test, succeeds. destruct (search r 0 s) eqn:E; [done|]. intros _ pre s' Hs.
  exact (search_none r s 0 E pre s' Hs).
Qed.

(** Every element of the result of [match] is what one match consumed, at
    some place of the input. *)
Lemma matchLoop_Forall (P : jsstring -> Prop) r : forall fuel i s,
  (forall j s' y w, suffix s' s -> matchAt r j s' = Some y ->
     s' = w ++ rest y -> endIndex y = j + length w -> P w) ->
  Forall P (matchLoop fuel r i s).
Proof.
  induction fuel as [|fuel IH]; intros i s HP; simpl; [constructor|].
  destruct (search r i s) as [[j y]|] eqn:E; [|constructor].
  apply search_sound in E as [pre [s' [-> [-> E]]]].
  destruct (matchAt_consumes _ _ _ _ E) as [w [Hw Hi]].
  replace (i + length pre - i) with (length pre) by lia.
  rewrite drop_app_length.
  assert (Hsuf : suffix (rest y) (pre ++ s')).
  { exists (pre ++ w). rewrite <- app_assoc, <- Hw. done. }
  constructor.
  - rewrite Hi. replace (i + length pre + length w - (i + length pre))
      with (length w) by lia.
    rewrite Hw, take_app_length.
    eapply HP; [exists pre; reflexivity | exact E | exact Hw | exact Hi].
  - destruct (Nat.eqb (endIndex y) (i + length pre)).
    + destruct (rest y) as [|a t] eqn:Er; [constructor|].
      apply IH. intros j' s'' y' w' Hs. apply HP.
      etrans; [exact Hs|]. etrans; [|exact Hsuf]. exists [a]. done.
    + apply IH. intros j' s'' y' w' Hs. apply HP. etrans; eauto.
Qed.

End SearchFacts.

(* ===================================================================== *)
(** ** The tokens of [words] *)
(* ===================================================================== *)

Module WordsFacts.

Import Strings Spec RegExpFacts SearchFacts.

(** Turns the boolean tests on code units into arithmetic. *)
Ltac class_arith :=
  unfold isWordChar, isUpper, isLower, isDigit, isLatin1, isAsciiAlnum,
    isLineTerminator, inClass, inItem, inRange in *;
  rewrite ?xorb_true_l, ?xorb_false_l in *;
  cbn [existsb upperItems lowerItems breakItems asciiSeparators plainItems
       metaItems az AZ d09 azAZ] in *;
  rewrite ?orb_false_r in *;
  repeat (rewrite ?orb_true_iff, ?andb_true_iff, ?orb_false_iff,
      ?andb_false_iff, ?negb_true_iff, ?negb_false_iff,
      ?N.leb_le, ?N.leb_gt, ?N.eqb_eq, ?N.eqb_neq in *);
  try lia.

Lemma iter_class ng its : forall n p q,
  iter n (den (Cls ng its)) p q ->
  exists w, consumes w p q /\ length w = n
            /\ Forall (fun c => inClass ng its c = true) w.
Proof.
  induction n as [|n IH]; intros p q H; simpl in H.
  - subst q. exists []. split; [split; simpl; [done | lia]|]. split; [done | constructor].
  - destruct H as [m [[ch [H1 [H2 H3]]] H]].
    apply IH in H as [w [[Hw Hi] [Hn Hall]]].
    exists (ch :: w). split; [split|split].
    + rewrite H1, Hw. done.
    + rewrite Hi, H3. simpl. lia.
    + simpl. lia.
    + constructor; assumption.
Qed.

Lemma den_Quant_class min max g ng its p q :
  den (Quant min max g (Cls ng its)) p q ->
  exists w, consumes w p q /\ withinBounds min max (length w)
            /\ Forall (fun c => inClass ng its c = true) w.
Proof.
  intros [n [Hb H]]. apply iter_class in H as [w [Hc [Hn Hall]]].
  exists w. rewrite Hn. auto.
Qed.

Lemma consumes_app w v p m q :
  consumes w p m -> consumes v m q -> consumes (w ++ v) p q.
Proof.
  intros [Hw Hi] [Hv Hj]. split.
  - rewrite Hw, Hv, app_assoc. done.
  - rewrite length_app. lia.
Qed.

Lemma den_unicodeWords p q :
  den unicodeWords p q -> exists w, consumes w p q /\ unicodeToken w.
Proof.
  assert (Hne : forall w : jsstring, 1 <= length w -> w <> []).
  { intros [|] ?; simpl in *; [lia | done]. }
  unfold unicodeWords. cbn [den].
  intros [H|[H|[H|[H|H]]]].
  - destruct H as [m [Hu [m' [Hl [-> _]]]]].
    apply den_Quant_class in Hu as [u [Hcu [Hbu Hu]]].
    apply den_Quant_class in Hl as [l [Hcl [Hbl Hl]]].
    exists (u ++ l). split; [eapply consumes_app; eauto|].
    left. exists u, l. unfold withinBounds in *. repeat split; auto; lia.
  - destruct H as [m [Hu [-> _]]].
    apply den_Quant_class in Hu as [u [Hcu [Hbu Hu]]].
    exists u. split; [done|]. right. left. unfold withinBounds in *. auto.
  - destruct H as [m [Hu Hl]].
    apply den_Quant_class in Hu as [u [Hcu [Hbu Hu]]].
    apply den_Quant_class in Hl as [l [Hcl [Hbl Hl]]].
    exists (u ++ l). split; [eapply consumes_app; eauto|].
    left. exists u, l. unfold withinBounds in *. repeat split; auto; lia.
  - apply den_Quant_class in H as [u [Hcu [Hbu Hu]]].
    exists u. split; [done|]. right. left. unfold withinBounds in *. auto.
  - apply den_Quant_class in H as [u [Hcu [Hbu Hu]]].
    exists u. split; [done|]. right. right. unfold withinBounds in *. auto.
Qed.

Lemma den_asciiWords p q :
  den asciiWords p q ->
  exists w, consumes w p q /\ w <> []
            /\ Forall (fun c => inClass true asciiSeparators c = true) w.
Proof.
  intros H. apply den_Quant_class in H as [w [Hc [Hb Hall]]].
  exists w. split; [done|]. split; [|done].
  simpl in Hb. destruct w; simpl in *; [lia | done].
Qed.

Lemma unicodeToken_wellFormed w : unicodeToken w -> wellFormedToken w.
Proof.
  intros [[u [l [-> [_ [Hu [Hl Hll]]]]]]|[[Hne H]|[Hne H]]]; split.
  - destruct u; simpl; [done | done].
  - apply Forall_app; split; eapply Forall_impl; eauto;
      intros c Hc; unfold isWordChar; rewrite Hc, ?orb_true_r; reflexivity.
  - done.
  - eapply Forall_impl; eauto. intros c Hc. unfold isWordChar. rewrite Hc. done.
  - done.
  - eapply Forall_impl; eauto. intros c Hc. unfold isWordChar.
    rewrite Hc, ?orb_true_r. reflexivity.
Qed.

(** When [hasUnicodeWord] finds nothing, the input has only ASCII letters,
    digits and blanks. *)
Lemma matcher_Alt_None r1 r2 x c :
  matcher (Alt r1 r2) x c = None -> matcher r1 x c = None /\ matcher r2 x c = None.
Proof. simpl. destruct (matcher r1 x c); [done | auto]. Qed.

Lemma hasUnicodeWord_false s :
  test hasUnicodeWord s = false ->
  Forall (fun c => inClass false plainItems c = true) s.
Proof.
  intros H. apply Forall_forall. intros c Hc.
  apply list_elem_of_In, in_split in Hc as [pre [post ->]].
  pose proof (test_false _ _ H pre (c :: post) eq_refl) as Hm.
  unfold matchAt, hasUnicodeWord in Hm.
  apply matcher_Alt_None in Hm as [_ Hm].
  apply matcher_Alt_None in Hm as [_ Hm].
  apply matcher_Alt_None in Hm as [_ Hm].
  apply matcher_Alt_None in Hm as [_ Hm].
  cbn [matcher rest] in Hm.
  destruct (inClass true plainItems c) eqn:E; [done|].
  unfold inClass in *. destruct (existsb _ plainItems); [done | done].
Qed.

Lemma plain_nonSeparator_wordChar c :
  inClass false plainItems c = true ->
  inClass true asciiSeparators c = true ->
  isWordChar c = true.
Proof. intros H1 H2. class_arith. Qed.

(** Every token of [words] is a non-empty run of word-forming code units. *)
Lemma words_wellFormed str : Forall wellFormedToken (words str).
Proof.
  destruct str as [| |s]; simpl; try constructor.
  destruct s as [|a s]; [constructor|].
  unfold matchAll.
  assert (H : Forall wellFormedToken
    (matchLoop (S (length (a :: s)))
       (if test hasUnicodeWord (a :: s) then unicodeWords else asciiWords)
       0 (a :: s))).
  { destruct (test hasUnicodeWord (a :: s)) eqn:E.
    - apply matchLoop_Forall. intros j s' y w _ Hm Hw Hi.
      apply matchAt_sound, den_unicodeWords in Hm as [w' [[Hw' Hi'] Ht]].
      simpl in *. assert (w = w') as ->.
      { assert (length w = length w') by lia.
        rewrite Hw in Hw'. eapply app_inj_1 in Hw' as [? _]; done. }
      apply unicodeToken_wellFormed. exact Ht.
    - apply hasUnicodeWord_false in E.
      apply matchLoop_Forall. intros j s' y w Hsuf Hm Hw Hi.
      apply matchAt_sound, den_asciiWords in Hm as [w' [[Hw' Hi'] [Hne Hall]]].
      simpl in *. assert (w = w') as ->.
      { assert (length w = length w') by lia.
        rewrite Hw in Hw'. eapply app_inj_1 in Hw' as [? _]; done. }
      split; [done|].
      apply Forall_forall. intros c Hc.
      apply plain_nonSeparator_wordChar.
      + rewrite Forall_forall in E. apply E.
        destruct Hsuf as [k ->]. rewrite Hw.
        rewrite !elem_of_app. auto.
      + rewrite Forall_forall in Hall. apply Hall. exact Hc. }
  destruct (matchLoop _ _ _ _); [constructor | exact H].
Qed.

End WordsFacts.

(* ===================================================================== *)
(** ** The case converters on tokens *)
(* ===================================================================== *)

Module CaseFacts.

Import Strings Spec RegExpFacts SearchFacts WordsFacts.

Lemma wordChar_latin1 c : isWordChar c = true -> isLatin1 c = true.
Proof. intros H. class_arith. Qed.

Lemma token_latin1 w : wellFormedToken w -> forallb isLatin1 w = true.
Proof.
  intros [_ H]. apply forallb_forall. intros c Hc.
  rewrite Forall_forall in H. apply wordChar_latin1, H, list_elem_of_In, Hc.
Qed.

Lemma lowerCase_token uL w : wellFormedToken w -> lowerCase uL w = map lower1 w.
Proof. intros H. unfold lowerCase, toLowerCase. rewrite token_latin1; done. Qed.

Lemma lower1_latin1 c : isLatin1 c = true -> isLatin1 (lower1 c) = true.
Proof.
  unfold lower1. intros H.
  destruct (inRange 65 90 c || inRange 192 214 c || inRange 216 222 c) eqn:E;
    [|exact H].
  class_arith.
Qed.

Lemma capitalize_lower_token uL uU w :
  wellFormedToken w ->
  capitalize uU (lowerCase uL w) = Ok (capitalizeFirst (map lower1 w)).
Proof.
  intros H. rewrite lowerCase_token by done.
  pose proof (token_latin1 w H) as Hl. destruct H as [Hne _].
  destruct w as [|c tl]; [done|]. simpl in *.
  apply andb_true_iff in Hl as [Hc _].
  unfold toUpperCase. simpl. rewrite lower1_latin1 by done. simpl.
  rewrite app_nil_r. reflexivity.
Qed.

Lemma join_empty_concat l : join [] (map Some l) = concat l.
Proof.
  induction l as [|a [|b l] IH]; simpl in *.
  - reflexivity.
  - rewrite app_nil_r. reflexivity.
  - rewrite IH. reflexivity.
Qed.

Lemma arrayMap_camel uL uU : forall ws i,
  Forall wellFormedToken ws ->
  arrayMap (camelWord uL uU) i ws = Ok (map Some (camelTokens i ws)).
Proof.
  induction ws as [|w ws IH]; intros i H; simpl; [reflexivity|].
  inversion H as [|? ? Hw Hws]; subst.
  rewrite (IH (S i) Hws). unfold camelWord. destruct (Nat.eqb i 0); simpl.
  - rewrite lowerCase_token by done. reflexivity.
  - rewrite capitalize_lower_token by done. reflexivity.
Qed.

Lemma camelCase_camelText uL uU s :
  camelCase uL uU s = Ok (camelText (words (ArgStr s))).
Proof.
  unfold camelCase, mapWords.
  rewrite arrayMap_camel by apply words_wellFormed.
  simpl. rewrite join_empty_concat. reflexivity.
Qed.

(** The code units of a token are code units of the input. *)
Lemma words_chars s w c : w ∈ words (ArgStr s) -> c ∈ w -> c ∈ s.
Proof.
  unfold words. destruct s as [|a s]; [intros H; inversion H|].
  unfold matchAll.
  assert (H : Forall (fun w => forall c, c ∈ w -> c ∈ a :: s)
    (matchLoop (S (length (a :: s)))
       (if test hasUnicodeWord (a :: s) then unicodeWords else asciiWords)
       0 (a :: s))).
  { apply matchLoop_Forall. intros j s' y w' [k Hk] _ Hw _ c' Hc.
    rewrite Hk, Hw, !elem_of_app. auto. }
  destruct (matchLoop _ _ _ _) eqn:E; [intros Hin; inversion Hin|].
  rewrite Forall_forall in H. intros Hin Hc. eapply H; eauto.
Qed.

Lemma words_no_wordChar s :
  Forall (fun c => isWordChar c = false) s -> words (ArgStr s) = [].
Proof.
  intros H. pose proof (words_wellFormed (ArgStr s)) as Hw.
  destruct (words (ArgStr s)) as [|w ws] eqn:E; [reflexivity|].
  inversion Hw as [|? ? [Hne Hall] _]; subst.
  destruct w as [|c w]; [done|].
  inversion Hall as [|? ? Hc _]; subst.
  assert (Hin : c ∈ s).
  { eapply (words_chars s (c :: w)); [rewrite E; left | left]. }
  rewrite Forall_forall in H. rewrite (H c Hin) in Hc. done.
Qed.

End CaseFacts.

(* ===================================================================== *)
(** ** [replace] with a one-character pattern, and the glob branch *)
(* ===================================================================== *)

Module GlobFacts.

Import Strings Spec RegExpFacts SearchFacts WordsFacts.

Lemma matchAt_Cls ng its i c s :
  matchAt (Cls ng its) i (c :: s)
  = if inClass ng its c then Some (MState (S i) s []) else None.
Proof. reflexivity. Qed.

Lemma matchAt_Cls_nil ng its i : matchAt (Cls ng its) i [] = None.
Proof. reflexivity. Qed.

(** A code unit at which the pattern does not match is copied, and the
    loop goes on behind it. *)
Lemma replaceLoop_skip r repl fuel i c s :
  matchAt r i (c :: s) = None ->
  replaceLoop (S fuel) r repl i (c :: s)
  = c :: replaceLoop (S fuel) r repl (S i) s.
Proof.
  intros Hm. cbn [replaceLoop search]. rewrite Hm.
  destruct (search r (S i) s) as [[j y]|] eqn:E; [|reflexivity].
  apply search_sound in E as [pre [s' [-> [-> _]]]].
  replace (S i + length pre - i) with (S (length pre)) by lia.
  replace (S i + length pre - S i) with (length pre) by lia.
  reflexivity.
Qed.

Lemma replaceLoop_class ng its repl : forall s fuel i,
  length s < fuel ->
  replaceLoop fuel (Cls ng its) repl i s
  = flat_map (fun c => if inClass ng its c then getSubstitution [c] repl else [c]) s.
Proof.
  induction s as [|c s IH]; intros fuel i Hf; (destruct fuel as [|fuel]; [simpl in Hf; lia|]).
  - reflexivity.
  - simpl in Hf. destruct (inClass ng its c) eqn:E.
    + cbn [replaceLoop search]. rewrite matchAt_Cls, E.
      cbn [endIndex rest flat_map]. rewrite E.
      replace (i - i) with 0 by lia. replace (S i - i) with 1 by lia.
      replace (Nat.eqb (S i) i) with false by (symmetry; apply Nat.eqb_neq; lia).
      cbn [firstn skipn app]. rewrite IH by lia. reflexivity.
    + rewrite replaceLoop_skip by (rewrite matchAt_Cls, E; reflexivity).
      cbn [flat_map]. rewrite E, IH by (simpl; lia). reflexivity.
Qed.

Lemma replaceAll_class ng its repl s :
  replaceAll (Cls ng its) repl s
  = flat_map (fun c => if inClass ng its c then getSubstitution [c] repl else [c]) s.
Proof. unfold replaceAll. apply replaceLoop_class. lia. Qed.

Lemma inClass_Chr c d : inClass false [CChar c] d = (d =? c)%N.
Proof. unfold inClass. simpl. rewrite orb_false_r. reflexivity. Qed.

(** The glob branch builds the pattern text of the specification. *)
Lemma wildcardToRegExp_glob p flags :
  exec rawPattern p = None ->
  wildcardToRegExp p flags = NewRegExp (globSource p) flags.
Proof.
  intros H. unfold wildcardToRegExp. rewrite H.
  unfold Chr. rewrite !replaceAll_class. unfold globSource. do 2 f_equal.
  f_equal. unfold replaceEvery, escapeMeta.
  erewrite (flat_map_ext _ (fun d => if (d =? 43)%N then js ".+?" else [d]));
    [|intros d; rewrite inClass_Chr; reflexivity].
  f_equal.
  erewrite (flat_map_ext _ (fun d => if (d =? 42)%N then js ".*?" else [d]));
    [|intros d; rewrite inClass_Chr; reflexivity].
  f_equal.
Qed.

Lemma flat_map_flat_map {A B C} (f : A -> list B) (g : B -> list C) l :
  flat_map g (flat_map f l) = flat_map (fun a => flat_map g (f a)) l.
Proof.
  induction l as [|a l IH]; simpl; [reflexivity|].
  rewrite flat_map_app, IH. reflexivity.
Qed.

Lemma meta_cases c :
  isMeta c = true ->
  c = 45%N \/ c = 91%N \/ c = 93%N \/ c = 47%N \/ c = 123%N \/ c = 125%N
  \/ c = 40%N \/ c = 41%N \/ c = 63%N \/ c = 46%N \/ c = 92%N \/ c = 94%N
  \/ c = 36%N \/ c = 124%N.
Proof. unfold isMeta. intros H. class_arith. Qed.

Lemma not_meta c :
  isMeta c = false ->
  c <> 45%N /\ c <> 91%N /\ c <> 93%N /\ c <> 47%N /\ c <> 123%N /\ c <> 125%N
  /\ c <> 40%N /\ c <> 41%N /\ c <> 63%N /\ c <> 46%N /\ c <> 92%N /\ c <> 94%N
  /\ c <> 36%N /\ c <> 124%N.
Proof. unfold isMeta. intros H. class_arith. Qed.

Lemma globSource_text p : globSource p = 94%N :: flat_map globText p ++ [36%N].
Proof.
  unfold globSource, replaceEvery, escapeMeta. rewrite !flat_map_flat_map.
  cbn [js app]. do 2 f_equal. apply flat_map_ext. intros c. unfold globText.
  destruct (isMeta c) eqn:E.
  - apply meta_cases in E. decompose [or] E; subst; reflexivity.
  - cbn [flat_map app]. destruct (c =? 42)%N eqn:E1.
    + apply N.eqb_eq in E1 as ->. reflexivity.
    + cbn [flat_map app]. destruct (c =? 43)%N; reflexivity.
Qed.

(** No quantifier stands at the head of the text of a glob. *)
Lemma readQuantifier_glob atom p :
  readQuantifier atom (flat_map globText p ++ [36%N])
  = (atom, flat_map globText p ++ [36%N]).
Proof.
  destruct p as [|c p]; [reflexivity|]. cbn [flat_map].
  generalize (flat_map globText p). intros t. unfold globText.
  destruct (isMeta c) eqn:E; [reflexivity|].
  destruct (c =? 42)%N eqn:E1; [reflexivity|].
  destruct (c =? 43)%N eqn:E2; [reflexivity|].
  apply not_meta in E. cbn [app readQuantifier]. unfold quantifierOf.
  rewrite E1, E2.
  replace (c =? 63)%N with false by (symmetry; apply N.eqb_neq; tauto).
  reflexivity.
Qed.

Lemma quantifierOf_glob_head p :
  match flat_map globText p ++ [36%N] with
  | q :: _ => quantifierOf q = None
  | [] => True
  end.
Proof.
  destruct p as [|c p]; [reflexivity|]. cbn [flat_map].
  generalize (flat_map globText p). intros t. unfold globText.
  destruct (isMeta c) eqn:E; [reflexivity|].
  destruct (c =? 42)%N eqn:E1; [reflexivity|].
  destruct (c =? 43)%N eqn:E2; [reflexivity|].
  apply not_meta in E. cbn [app]. unfold quantifierOf.
  rewrite E1, E2.
  replace (c =? 63)%N with false by (symmetry; apply N.eqb_neq; tauto).
  reflexivity.
Qed.

Lemma readTerms_glob : forall p fuel,
  length (flat_map globText p) < fuel ->
  readTerms fuel (flat_map globText p ++ [36%N]) = Some (map globTerm p ++ [Eos]).
Proof.
  induction p as [|c p IH]; intros fuel Hf;
    (destruct fuel as [|fuel]; [simpl in Hf; lia|]).
  - reflexivity.
  - cbn [flat_map] in *. rewrite length_app in Hf. rewrite <- app_assoc.
    unfold globText at 1, globTerm at 1. unfold globText at 1 in Hf.
    change (js ".*?") with [46%N; 42%N; 63%N] in *.
    change (js ".+?") with [46%N; 43%N; 63%N] in *.
    destruct (isMeta c) eqn:E.
    + assert (Hq := readQuantifier_glob (Chr c) p).
      assert (IH' := IH fuel ltac:(simpl in Hf; lia)).
      apply meta_cases in E. decompose [or] E; subst;
        cbn [app readTerms N.eqb Pos.eqb orb isAsciiAlnum inRange N.leb
             N.compare Pos.compare Pos.compare_cont andb map];
        rewrite Hq, IH'; reflexivity.
    + destruct (c =? 42)%N eqn:E1; [|destruct (c =? 43)%N eqn:E2].
      * apply N.eqb_eq in E1 as ->. simpl in Hf.
        cbn. rewrite IH by lia. reflexivity.
      * apply N.eqb_eq in E2 as ->. simpl in Hf.
        cbn. rewrite IH by lia. reflexivity.
      * apply not_meta in E. simpl in Hf.
        cbn [app readTerms map]. unfold isSyntaxChar. cbn [existsb].
        rewrite E1, E2.
        repeat match goal with
               | |- context [(c =? ?k)%N] =>
                   replace (c =? k)%N with false
                     by (symmetry; apply N.eqb_neq; tauto)
               end.
        cbn [orb]. rewrite readQuantifier_glob, IH by lia. reflexivity.
Qed.

Lemma readTerms_Bos fuel q t :
  quantifierOf q = None ->
  readTerms (S fuel) (94%N :: q :: t) = cons Bos <$> readTerms fuel (q :: t).
Proof. intros H. cbn [readTerms N.eqb Pos.eqb orb]. rewrite H. reflexivity. Qed.

Lemma compile_glob p : compile (globSource p) = Some (globPattern p).
Proof.
  unfold compile. rewrite globSource_text.
  pose proof (quantifierOf_glob_head p) as Hq.
  pose proof (readTerms_glob p (S (length (flat_map globText p ++ [36%N])))) as Hr.
  destruct (flat_map globText p ++ [36%N]) as [|q t] eqn:E.
  - destruct (flat_map globText p); discriminate.
  - change (length (94%N :: q :: t)) with (S (length (q :: t))).
    rewrite readTerms_Bos, Hr; [|rewrite <- E, length_app; simpl; lia | exact Hq].
    simpl. unfold globPattern. rewrite foldr_app. reflexivity.
Qed.

(** The compiled glob on a string. *)
Lemma starLazy_Dot (k : cont) (f : jsstring -> bool) :
  (forall y, succeeds (k y) = f (rest y)) ->
  forall s x, rest x = s ->
    succeeds (matcher (StarLazy Dot) x k) = anyRun f s.
Proof.
  intros Hk. induction s as [|ch s IH]; intros x Hx;
    rewrite matcher_StarLazy, matcher_Dot;
    change (rest (clearCaptures (groups Dot) x)) with (rest x);
    rewrite Hx; cbn [anyRun]; rewrite <- Hx, <- Hk.
  - destruct (k x); reflexivity.
  - destruct (k x); [reflexivity|]. cbn [succeeds orb].
    destruct (isLineTerminator ch); [reflexivity|]. cbn [negb andb].
    change (endIndex (advance (clearCaptures (groups Dot) x))) with (S (endIndex x)).
    rewrite succ_neqb. apply IH. simpl. rewrite Hx. reflexivity.
Qed.

Lemma matcher_globTerms : forall p x,
  succeeds (matcher (foldr Seq (Seq Eos Eps) (map globTerm p)) x Some)
  = globMatch p (rest x).
Proof.
  induction p as [|c p IH]; intros x.
  - simpl. destruct (rest x); reflexivity.
  - cbn [map foldr globMatch]. rewrite matcher_Seq. unfold globTerm.
    destruct (c =? 42)%N; [|destruct (c =? 43)%N].
    + apply (starLazy_Dot _ (globMatch p)); [intros y; apply IH | reflexivity].
    + rewrite matcher_PlusLazy, matcher_Dot.
      change (rest (clearCaptures (groups Dot) x)) with (rest x).
      destruct (rest x) as [|d s] eqn:E; [reflexivity|].
      destruct (isLineTerminator d); [reflexivity|]. cbn [negb andb].
      apply (starLazy_Dot _ (globMatch p)); [intros y; apply IH|].
      simpl. rewrite E. reflexivity.
    + unfold Chr. rewrite matcher_Cls.
      destruct (rest x) as [|d s] eqn:E; [reflexivity|].
      rewrite inClass_Chr. destruct (d =? c)%N; [|reflexivity].
      cbn [andb]. rewrite IH. simpl. rewrite E. reflexivity.
Qed.

Lemma search_Bos r : forall s i, search (Seq Bos r) (S i) s = None.
Proof. induction s as [|c s IH]; intros i; simpl; [reflexivity | apply IH]. Qed.

Lemma test_Bos r s :
  test (Seq Bos r) s = succeeds (matcher r (MState 0 s []) Some).
Proof.
  unfold test. destruct s as [|c s]; cbn [search matchAt matcher endIndex Nat.eqb].
  - destruct (matcher r _ Some); reflexivity.
  - destruct (matcher r _ Some); [reflexivity|]. rewrite search_Bos. reflexivity.
Qed.

Lemma regExpTest_glob p s :
  exec rawPattern p = None ->
  regExpTest (wildcardToRegExp p None) s = Some (globMatch p s).
Proof.
  intros H. rewrite wildcardToRegExp_glob by done.
  unfold regExpTest. cbn [flags source]. rewrite compile_glob. cbn.
  unfold globPattern. rewrite test_Bos, matcher_globTerms. reflexivity.
Qed.

End GlobFacts.

(* ===================================================================== *)
(** ** [words] on a string in kebab form *)
(* ===================================================================== *)

Module KebabFacts.

Import Strings Spec RegExpFacts SearchFacts WordsFacts CaseFacts.

Lemma forallb_Forall {A} (P : A -> bool) l :
  forallb P l = true -> Forall (fun a => P a = true) l.
Proof.
  induction l as [|a l IH]; simpl; intros H; [constructor|].
  apply andb_true_iff in H as [Ha Hl]. constructor; auto.
Qed.

Lemma clearCaptures_nil x : clearCaptures [] x = x.
Proof.
  destruct x as [e s caps]. unfold clearCaptures. simpl. f_equal.
  induction caps as [|p caps IH]; simpl; [reflexivity | rewrite IH; reflexivity].
Qed.

(** A greedy repetition of a class runs to the end of the run when the
    continuation accepts there. *)
Lemma star_run ng its c tail z : forall run x,
  rest x = run ++ tail ->
  Forall (fun ch => inClass ng its ch = true) run ->
  match tail with [] => True | ch :: _ => inClass ng its ch = false end ->
  c (MState (endIndex x + length run) tail (captures x)) = Some z ->
  matcher (Star (Cls ng its)) x c = Some z.
Proof.
  induction run as [|ch run IH]; intros x Hx Hrun Htail Hc;
    rewrite matcher_Star; change (groups (Cls ng its)) with (@nil nat);
    rewrite clearCaptures_nil, matcher_Cls, Hx.
  - destruct x as [e s caps]. simpl in *. subst s. rewrite Nat.add_0_r in Hc.
    destruct tail as [|a tail]; [exact Hc|]. rewrite Htail. exact Hc.
  - inversion Hrun as [|? ? Hch Hrun']; subst. cbn [app]. rewrite Hch.
    change (endIndex (advance x)) with (S (endIndex x)). rewrite succ_neqb.
    rewrite (IH (advance x)); [reflexivity | | assumption | assumption |].
    + simpl. rewrite Hx. reflexivity.
    + simpl. rewrite <- Hc. f_equal. f_equal. simpl. lia.
Qed.

Lemma plus_run ng its c tail z run x :
  rest x = run ++ tail -> run <> [] ->
  Forall (fun ch => inClass ng its ch = true) run ->
  match tail with [] => True | ch :: _ => inClass ng its ch = false end ->
  c (MState (endIndex x + length run) tail (captures x)) = Some z ->
  matcher (Plus (Cls ng its)) x c = Some z.
Proof.
  intros Hx Hne Hrun Htail Hc. destruct run as [|ch run]; [done|].
  inversion Hrun as [|? ? Hch Hrun']; subst.
  rewrite matcher_Plus. change (groups (Cls ng its)) with (@nil nat).
  rewrite clearCaptures_nil, matcher_Cls, Hx. cbn [app]. rewrite Hch.
  eapply star_run; eauto.
  - simpl. rewrite Hx. reflexivity.
  - simpl. rewrite <- Hc. f_equal. f_equal. simpl. lia.
Qed.

Lemma plus_miss ng its c x :
  match rest x with [] => True | ch :: _ => inClass ng its ch = false end ->
  matcher (Plus (Cls ng its)) x c = None.
Proof.
  intros H. rewrite matcher_Plus. change (groups (Cls ng its)) with (@nil nat).
  rewrite clearCaptures_nil, matcher_Cls.
  destruct (rest x); [reflexivity|]. rewrite H. reflexivity.
Qed.

Lemma opt_miss ng its c x :
  match rest x with [] => True | ch :: _ => inClass ng its ch = false end ->
  matcher (Opt (Cls ng its)) x c = c x.
Proof.
  intros H. rewrite matcher_Opt. change (groups (Cls ng its)) with (@nil nat).
  rewrite clearCaptures_nil, matcher_Cls.
  destruct (rest x); [reflexivity|]. rewrite H. reflexivity.
Qed.

Lemma lower_not_upper c : isLower c = true -> isUpper c = false.
Proof. intros H. class_arith. Qed.
Lemma digit_not_upper c : isDigit c = true -> isUpper c = false.
Proof. intros H. class_arith. Qed.
Lemma digit_not_lower c : isDigit c = true -> isLower c = false.
Proof. intros H. class_arith. Qed.
Lemma lower_not_separator c :
  isLower c = true -> inClass true asciiSeparators c = true.
Proof. intros H. class_arith. Qed.
Lemma digit_not_separator c :
  isDigit c = true -> inClass true asciiSeparators c = true.
Proof. intros H. class_arith. Qed.
Lemma lower1_lower c : isLower c = true -> lower1 c = c.
Proof.
  intros H. unfold lower1.
  destruct (inRange 65 90 c || inRange 192 214 c || inRange 216 222 c) eqn:E;
    [|reflexivity].
  class_arith.
Qed.
Lemma lower1_digit c : isDigit c = true -> lower1 c = c.
Proof.
  intros H. unfold lower1.
  destruct (inRange 65 90 c || inRange 192 214 c || inRange 216 222 c) eqn:E;
    [|reflexivity].
  class_arith.
Qed.

Lemma lookahead_boundary e tail :
  boundary tail ->
  matcher (Look (Alt B (Alt U Eos))) (MState e tail []) Some
  = Some (MState e tail []).
Proof. intros [->|[t ->]]; reflexivity. Qed.

Lemma boundary_head (P : N -> bool) tail :
  P 45%N = false ->
  boundary tail ->
  match tail with [] => True | ch :: _ => P ch = false end.
Proof. intros H [->|[t ->]]; [exact I | exact H]. Qed.

Lemma matchAt_unicodeWords_kebab i t tail :
  isKebabWord t = true -> boundary tail ->
  matchAt unicodeWords i (t ++ tail) = Some (MState (i + length t) tail []).
Proof.
  intros Ht Hb. unfold isKebabWord in Ht. destruct t as [|c t]; [done|].
  apply orb_true_iff in Ht as [Ht|Ht]; apply forallb_Forall in Ht;
    assert (Hc := Forall_inv Ht);
    unfold matchAt, unicodeWords.
  - (* a run of lowercase letters: the first alternative *)
    rewrite matcher_Alt, matcher_Seq. unfold U at 1. rewrite opt_miss
      by (simpl; apply lower_not_upper, Hc).
    rewrite matcher_Seq.
    unfold L at 1.
    erewrite (plus_run _ _ _ tail _ (c :: t)); [reflexivity | reflexivity | done | | |].
    + exact Ht.
    + apply (boundary_head (inClass false lowerItems)); [reflexivity | exact Hb].
    + cbn [endIndex captures]. apply lookahead_boundary, Hb.
  - (* a run of digits: the last alternative *)
    assert (Hu : isUpper c = false) by (apply digit_not_upper, Hc).
    assert (Hl : isLower c = false) by (apply digit_not_lower, Hc).
    rewrite matcher_Alt, matcher_Seq. unfold U at 1. rewrite opt_miss by exact Hu.
    rewrite matcher_Seq. unfold L at 1. rewrite plus_miss by exact Hl.
    rewrite matcher_Alt, matcher_Seq. unfold U at 1. rewrite plus_miss by exact Hu.
    rewrite matcher_Alt, matcher_Seq. unfold U at 1. rewrite opt_miss by exact Hu.
    unfold L at 1. rewrite plus_miss by exact Hl.
    rewrite matcher_Alt. unfold U at 1. rewrite plus_miss by exact Hu.
    erewrite (plus_run _ _ _ tail _ (c :: t)); [reflexivity | reflexivity | done | | |].
    + exact Ht.
    + apply (boundary_head (inClass false [CDigit])); [reflexivity | exact Hb].
    + reflexivity.
Qed.

Lemma matchAt_asciiWords_kebab i t :
  isKebabWord t = true ->
  matchAt asciiWords i t = Some (MState (i + length t) [] []).
Proof.
  intros Ht. unfold isKebabWord in Ht. destruct t as [|c t]; [done|].
  unfold matchAt, asciiWords.
  erewrite (plus_run _ _ _ [] _ (c :: t));
    [reflexivity | simpl; rewrite app_nil_r; reflexivity | done | | exact I | reflexivity].
  apply orb_true_iff in Ht as [Ht|Ht]; apply forallb_Forall in Ht;
    (eapply Forall_impl; [exact Ht|]); intros a Ha.
  - apply lower_not_separator, Ha.
  - apply digit_not_separator, Ha.
Qed.

Lemma search_hit r i s y : matchAt r i s = Some y -> search r i s = Some (i, y).
Proof. intros H. destruct s; simpl; rewrite H; reflexivity. Qed.

Lemma matchLoop_nil r fuel i :
  matchAt r i [] = None -> matchLoop fuel r i [] = [].
Proof. intros H. destruct fuel; simpl; [reflexivity|]. rewrite H. reflexivity. Qed.

(** The loop takes the token at the head of the input and goes on behind
    it. *)
Lemma matchLoop_token r fuel i t tail caps :
  t <> [] ->
  matchAt r i (t ++ tail) = Some (MState (i + length t) tail caps) ->
  matchLoop (S fuel) r i (t ++ tail) = t :: matchLoop fuel r (i + length t) tail.
Proof.
  intros Hne H. cbn [matchLoop]. rewrite (search_hit _ _ _ _ H).
  cbn [endIndex rest].
  replace (i + length t - i) with (length t) by lia.
  replace (i - i) with 0 by lia. rewrite drop_0, take_app_length.
  replace (Nat.eqb (i + length t) i) with false; [reflexivity|].
  symmetry. apply Nat.eqb_neq. destruct t; [done | simpl; lia].
Qed.

(** A code unit at which the pattern does not match is passed over. *)
Lemma matchLoop_skip r fuel i c s :
  matchAt r i (c :: s) = None ->
  matchLoop (S fuel) r i (c :: s) = matchLoop (S fuel) r (S i) s.
Proof.
  intros Hm. cbn [matchLoop search]. rewrite Hm.
  destruct (search r (S i) s) as [[j y]|] eqn:E; [|reflexivity].
  apply search_sound in E as [pre [s' [-> [-> _]]]].
  replace (S i + length pre - i) with (S (length pre)) by lia.
  replace (S i + length pre - S i) with (length pre) by lia.
  reflexivity.
Qed.

Lemma kebabWord_nonempty t : isKebabWord t = true -> t <> [].
Proof. destruct t; [discriminate | done]. Qed.

Lemma join_cons2 sep (a b : option jsstring) l :
  join sep (a :: b :: l) = default [] a ++ sep ++ join sep (b :: l).
Proof. reflexivity. Qed.

Lemma matchLoop_kebab : forall ts fuel i,
  Forall (fun t => isKebabWord t = true) ts ->
  length (join [45%N] (map Some ts)) < fuel ->
  matchLoop fuel unicodeWords i (join [45%N] (map Some ts)) = ts.
Proof.
  induction ts as [|t ts IH]; intros fuel i Hts Hf.
  - apply matchLoop_nil. reflexivity.
  - inversion Hts as [|? ? Ht Hts']; subst.
    destruct fuel as [|fuel]; [lia|].
    destruct ts as [|t2 ts].
    + cbn [map join default from_option id]. rewrite <- (app_nil_r t) at 1.
      erewrite matchLoop_token;
        [| apply kebabWord_nonempty, Ht
         | apply matchAt_unicodeWords_kebab; [exact Ht | left; reflexivity]].
      rewrite matchLoop_nil by reflexivity. reflexivity.
    + cbn [map] in *. rewrite join_cons2 in *. cbn [default from_option id] in *.
      rewrite length_app in Hf. cbn [app length] in Hf.
      erewrite matchLoop_token;
        [| apply kebabWord_nonempty, Ht
         | apply matchAt_unicodeWords_kebab; [exact Ht | right; eexists; reflexivity]].
      destruct fuel as [|fuel]; [lia|].
      cbn [app]. rewrite matchLoop_skip by reflexivity.
      f_equal. apply (IH (S fuel)); [exact Hts' | cbn [map]; lia].
Qed.

Lemma join_hyphen_elem t1 t2 (ts : list jsstring) :
  45%N ∈ join [45%N] (map Some (t1 :: t2 :: ts)).
Proof. cbn [map]. rewrite join_cons2. rewrite !elem_of_app. right. left. left. Qed.

Lemma words_kebab ts :
  Forall (fun t => isKebabWord t = true) ts ->
  words (ArgStr (join [45%N] (map Some ts))) = ts.
Proof.
  intros Hts. destruct ts as [|t ts]; [reflexivity|].
  inversion Hts as [|? ? Ht Hts']; subst.
  assert (Hne : join [45%N] (map Some (t :: ts)) <> []).
  { destruct t; [discriminate|]. destruct ts; discriminate. }
  unfold words. destruct (join [45%N] (map Some (t :: ts))) as [|a s] eqn:Es; [done|].
  rewrite <- Es. clear a s Es Hne. unfold matchAll.
  destruct (test hasUnicodeWord (join [45%N] (map Some (t :: ts)))) eqn:E.
  - rewrite matchLoop_kebab by (done || lia). reflexivity.
  - destruct ts as [|t2 ts].
    + cbn [map join default from_option id]. rewrite <- (app_nil_r t) at 2.
      erewrite matchLoop_token;
        [| apply kebabWord_nonempty, Ht
         | rewrite app_nil_r; apply matchAt_asciiWords_kebab, Ht].
      rewrite matchLoop_nil by reflexivity. reflexivity.
    + apply hasUnicodeWord_false in E. rewrite Forall_forall in E.
      specialize (E 45%N (join_hyphen_elem t t2 ts)). discriminate.
Qed.

Lemma lower1_kebabWord t : isKebabWord t = true -> map lower1 t = t.
Proof.
  intros Ht. unfold isKebabWord in Ht. destruct t as [|c t]; [done|].
  apply orb_true_iff in Ht as [Ht|Ht]; apply forallb_Forall in Ht;
    induction Ht as [|a l Ha Hl IH]; simpl; try reflexivity; rewrite IH.
  - rewrite lower1_lower by done. reflexivity.
  - rewrite lower1_digit by done. reflexivity.
Qed.

Lemma arrayMap_lower uL : forall ws i,
  Forall wellFormedToken ws ->
  arrayMap (fun word (_ : nat) => Ok (Some (lowerCase uL word))) i ws
  = Ok (map (fun w => Some (map lower1 w)) ws).
Proof.
  induction ws as [|w ws IH]; intros i H; [reflexivity|].
  inversion H as [|? ? Hw Hws]; subst. cbn [arrayMap bind map].
  rewrite (IH (S i) Hws), lowerCase_token by done. reflexivity.
Qed.

(** [kebabCase] puts every token in lower case and joins with hyphens. *)
Lemma kebabCase_tokens uL s :
  kebabCase uL s
  = Ok (join [45%N] (map (fun w => Some (map lower1 w)) (words (ArgStr s)))).
Proof.
  unfold kebabCase, curry, caseStr, mapWords.
  rewrite arrayMap_lower by apply words_wellFormed. reflexivity.
Qed.

Lemma splitHyphen_nonempty s : splitHyphen s <> [].
Proof.
  destruct s as [|c s]; [discriminate|]. cbn [splitHyphen].
  destruct (c =? 45)%N; [discriminate|]. destruct (splitHyphen s); discriminate.
Qed.

Lemma join_cons_head sep c w (l : list (option jsstring)) :
  join sep (Some (c :: w) :: l) = c :: join sep (Some w :: l).
Proof. destruct l; reflexivity. Qed.

Lemma splitHyphen_join s : join [45%N] (map Some (splitHyphen s)) = s.
Proof.
  induction s as [|c s IH]; [reflexivity|]. cbn [splitHyphen].
  pose proof (splitHyphen_nonempty s) as Hne.
  destruct (splitHyphen s) as [|w ws] eqn:Es; [done|].
  destruct (c =? 45)%N eqn:E.
  - apply N.eqb_eq in E as ->.
    change (map Some ([] :: w :: ws)) with (Some [] :: map Some (w :: ws)).
    cbn [map] in *. rewrite join_cons2, IH. reflexivity.
  - cbn [map] in *. rewrite join_cons_head, IH. reflexivity.
Qed.

Lemma kebabCase_kebabForm uL s :
  isKebabForm s = true -> kebabCase uL s = Ok s.
Proof.
  intros H. rewrite kebabCase_tokens.
  destruct s as [|c s]; [reflexivity|].
  unfold isKebabForm in H. apply forallb_Forall in H.
  rewrite <- (splitHyphen_join (c :: s)) at 1.
  rewrite words_kebab by exact H.
  rewrite <- (splitHyphen_join (c :: s)) at 2. do 2 f_equal.
  apply map_ext_Forall. eapply Forall_impl; [exact H|].
  intros t Ht. simpl. rewrite lower1_kebabWord by exact Ht. reflexivity.
Qed.

End KebabFacts.

(* ===================================================================== *)
(** ** The lowercased tokens of any string are kebab words *)
(* ===================================================================== *)

Module IdempotenceFacts.

Import Strings Spec RegExpFacts SearchFacts WordsFacts CaseFacts KebabFacts.

Lemma lower1_upper_lower c : isUpper c = true -> isLower (lower1 c) = true.
Proof.
  intros H. unfold lower1.
  destruct (inRange 65 90 c || inRange 192 214 c || inRange 216 222 c) eqn:E;
    class_arith.
Qed.

Lemma Forall_forallb {A} (P : A -> bool) l :
  Forall (fun a => P a = true) l -> forallb P l = true.
Proof.
  induction 1 as [|a l Ha Hl IH]; simpl; [reflexivity|]. rewrite Ha, IH. reflexivity.
Qed.

Lemma lowerRun_kebab w :
  w <> [] -> Forall (fun c => isLower (lower1 c) = true) w ->
  isKebabWord (map lower1 w) = true.
Proof.
  intros Hne H. destruct w as [|c w]; [done|].
  cbn [map isKebabWord]. apply orb_true_iff. left.
  change (lower1 c :: map lower1 w) with (map lower1 (c :: w)).
  apply Forall_forallb, Forall_map. exact H.
Qed.

Lemma digitRun_kebab w :
  w <> [] -> Forall (fun c => isDigit c = true) w ->
  isKebabWord (map lower1 w) = true.
Proof.
  intros Hne H. destruct w as [|c w]; [done|].
  cbn [map isKebabWord]. apply orb_true_iff. right.
  change (lower1 c :: map lower1 w) with (map lower1 (c :: w)).
  apply Forall_forallb, Forall_map.
  eapply Forall_impl; [exact H|]. intros a Ha. simpl.
  rewrite lower1_digit by exact Ha. exact Ha.
Qed.

Lemma unicodeToken_lower_kebab w :
  unicodeToken w -> isKebabWord (map lower1 w) = true.
Proof.
  intros [[u [l [-> [_ [Hu [Hl Hll]]]]]]|[[Hne H]|[Hne H]]].
  - apply lowerRun_kebab.
    + destruct u; [exact Hl | discriminate].
    + apply Forall_app; split; (eapply Forall_impl; [eassumption|]); intros c Hc; simpl.
      * apply lower1_upper_lower, Hc.
      * rewrite lower1_lower by exact Hc. exact Hc.
  - apply lowerRun_kebab; [exact Hne|].
    eapply Forall_impl; [exact H|]. intros c Hc. apply lower1_upper_lower, Hc.
  - apply digitRun_kebab; assumption.
Qed.

(** When [hasUnicodeWord] finds nothing, no digit stands next to a
    letter. *)
Lemma hasUnicodeWord_false_pairs s pre c1 c2 post :
  test hasUnicodeWord s = false ->
  s = pre ++ c1 :: c2 :: post ->
  (inClass false d09 c1 && inClass false azAZ c2 = false)
  /\ (inClass false azAZ c1 && inClass false d09 c2 = false).
Proof.
  intros H Hs.
  pose proof (test_false _ _ H pre (c1 :: c2 :: post) Hs) as Hm.
  unfold matchAt, hasUnicodeWord in Hm.
  apply matcher_Alt_None in Hm as [_ Hm].
  apply matcher_Alt_None in Hm as [_ Hm].
  apply matcher_Alt_None in Hm as [H3 Hm].
  apply matcher_Alt_None in Hm as [H4 _].
  rewrite matcher_Seq, !matcher_Cls in H3, H4. cbn [rest advance tail] in H3, H4.
  split.
  - destruct (inClass false d09 c1); [|reflexivity].
    destruct (inClass false azAZ c2); [discriminate | reflexivity].
  - destruct (inClass false azAZ c1); [|reflexivity].
    destruct (inClass false d09 c2); [discriminate | reflexivity].
Qed.

Lemma homogeneous_run : forall w,
  Forall (fun c => inClass false azAZ c = true \/ inClass false d09 c = true) w ->
  (forall a c1 c2 b, w = a ++ c1 :: c2 :: b ->
     (inClass false d09 c1 && inClass false azAZ c2 = false)
     /\ (inClass false azAZ c1 && inClass false d09 c2 = false)) ->
  Forall (fun c => inClass false azAZ c = true) w
  \/ Forall (fun c => inClass false d09 c = true) w.
Proof.
  induction w as [|c1 w IH]; intros Hall Hp; [left; constructor|].
  inversion Hall as [|? ? Hc1 Hw]; subst.
  destruct w as [|c2 w].
  - destruct Hc1; [left | right]; constructor; auto.
  - destruct (Hp [] c1 c2 w eq_refl) as [Hp1 Hp2].
    assert (IH' := IH Hw (fun a d1 d2 b E =>
      Hp (c1 :: a) d1 d2 b (f_equal (cons c1) E))).
    clear IH. destruct IH' as [IH|IH].
    + left. constructor; [|exact IH]. inversion IH as [|? ? Hc2 _]; subst.
      destruct Hc1 as [Hc1|Hc1]; [exact Hc1|]. rewrite Hc1, Hc2 in Hp1. discriminate.
    + right. constructor; [|exact IH]. inversion IH as [|? ? Hc2 _]; subst.
      destruct Hc1 as [Hc1|Hc1]; [|exact Hc1]. rewrite Hc1, Hc2 in Hp2. discriminate.
Qed.

Lemma plain_nonSeparator_alnum c :
  inClass false plainItems c = true ->
  inClass true asciiSeparators c = true ->
  inClass false azAZ c = true \/ inClass false d09 c = true.
Proof.
  intros H1 H2.
  destruct (inClass false azAZ c) eqn:E1; [left; reflexivity|].
  destruct (inClass false d09 c) eqn:E2; [right; reflexivity|].
  exfalso. class_arith.
Qed.

Lemma letter_lower1 c : inClass false azAZ c = true -> isLower (lower1 c) = true.
Proof.
  intros H. unfold lower1.
  destruct (inRange 65 90 c || inRange 192 214 c || inRange 216 222 c) eqn:E;
    class_arith.
Qed.

Lemma d09_digit c : inClass false d09 c = true -> isDigit c = true.
Proof. intros H. class_arith. Qed.

(** Every token of [words], put in lower case, is a kebab word. *)
Lemma words_lower_kebab s :
  Forall (fun w => isKebabWord (map lower1 w) = true) (words (ArgStr s)).
Proof.
  unfold words. destruct s as [|a s]; [constructor|].
  unfold matchAll.
  assert (H : Forall (fun w => isKebabWord (map lower1 w) = true)
    (matchLoop (S (length (a :: s)))
       (if test hasUnicodeWord (a :: s) then unicodeWords else asciiWords)
       0 (a :: s))).
  { destruct (test hasUnicodeWord (a :: s)) eqn:E.
    - apply matchLoop_Forall. intros j s' y w _ Hm Hw Hi.
      apply matchAt_sound, den_unicodeWords in Hm as [w' [[Hw' Hi'] Ht]].
      simpl in *. assert (w = w') as ->.
      { assert (length w = length w') by lia.
        rewrite Hw in Hw'. eapply app_inj_1 in Hw' as [? _]; done. }
      apply unicodeToken_lower_kebab, Ht.
    - pose proof (hasUnicodeWord_false _ E) as Hplain.
      apply matchLoop_Forall. intros j s' y w [k Hk] Hm Hw Hi.
      apply matchAt_sound, den_asciiWords in Hm as [w' [[Hw' Hi'] [Hne Hall]]].
      simpl in *. assert (w = w') as ->.
      { assert (length w = length w') by lia.
        rewrite Hw in Hw'. eapply app_inj_1 in Hw' as [? _]; done. }
      assert (Halnum : Forall (fun c => inClass false azAZ c = true
                                        \/ inClass false d09 c = true) w').
      { apply Forall_forall. intros c Hc. apply plain_nonSeparator_alnum.
        - rewrite Forall_forall in Hplain. apply Hplain.
          rewrite Hk, Hw, !elem_of_app. auto.
        - rewrite Forall_forall in Hall. apply Hall, Hc. }
      destruct (homogeneous_run w' Halnum) as [Hl|Hd].
      + intros pre c1 c2 post Ew.
        apply (hasUnicodeWord_false_pairs _ (k ++ pre) c1 c2 (post ++ rest y) E).
        rewrite Hk, Hw, Ew, <- !app_assoc. reflexivity.
      + apply lowerRun_kebab; [exact Hne|].
        eapply Forall_impl; [exact Hl|]. intros c Hc. apply letter_lower1, Hc.
      + apply digitRun_kebab; [exact Hne|].
        eapply Forall_impl; [exact Hd|]. intros c Hc. apply d09_digit, Hc. }
  destruct (matchLoop _ _ _ _); [constructor | exact H].
Qed.

(** [kebabCase] leaves its own results as they are. *)
Lemma kebabCase_idempotent uL s :
  bind (kebabCase uL s) (kebabCase uL) = kebabCase uL s.
Proof.
  rewrite (kebabCase_tokens uL s). cbn [bind]. rewrite kebabCase_tokens.
  pose proof (words_lower_kebab s) as H.
  replace (map (fun w => Some (map lower1 w)) (words (ArgStr s)))
    with (map Some (map (map lower1) (words (ArgStr s))))
    by (rewrite map_map; reflexivity).
  rewrite words_kebab by (apply Forall_map; exact H).
  do 2 f_equal. rewrite !map_map. apply map_ext_Forall.
  eapply Forall_impl; [exact H|]. intros w Hw. simpl.
  rewrite (lower1_kebabWord _ Hw). reflexivity.
Qed.

End IdempotenceFacts.

(* ===================================================================== *)
(** ** The loops have fuel to spare *)
(* ===================================================================== *)

Module FuelFacts.

Import Strings RegExpFacts SearchFacts.

Lemma search_shorter r i s j y :
  search r i s = Some (j, y) ->
  length (rest y) <= length s
  /\ (endIndex y <> j -> length (rest y) < length s)
  /\ (endIndex y = j -> exists pre, s = pre ++ rest y /\ j = i + length pre).
Proof.
  intros H. apply search_sound in H as [pre [s' [-> [-> H]]]].
  apply matchAt_consumes in H as [w [-> Hi]]. rewrite !length_app.
  split; [lia|]. split.
  - intros Hne. destruct w; simpl in *; lia.
  - intros He. destruct w; simpl in *; [|lia]. exists pre. auto.
Qed.

(** More fuel than the input has code units changes nothing. *)
Lemma matchLoop_fuel r : forall fuel fuel' i s,
  length s < fuel -> length s < fuel' ->
  matchLoop fuel r i s = matchLoop fuel' r i s.
Proof.
  induction fuel as [|fuel IH]; intros fuel' i s Hf Hf'; [lia|].
  destruct fuel' as [|fuel']; [lia|]. cbn [matchLoop].
  destruct (search r i s) as [[j y]|] eqn:E; [|reflexivity].
  destruct (search_shorter _ _ _ _ _ E) as [Hle [Hlt Heq]]. f_equal.
  destruct (Nat.eqb (endIndex y) j) eqn:Ej.
  - destruct (rest y) as [|a t] eqn:Er; [reflexivity|].
    simpl in Hle. apply IH; lia.
  - apply Nat.eqb_neq in Ej. specialize (Hlt Ej). apply IH; lia.
Qed.

Lemma replaceLoop_fuel r repl : forall fuel fuel' i s,
  length s < fuel -> length s < fuel' ->
  replaceLoop fuel r repl i s = replaceLoop fuel' r repl i s.
Proof.
  induction fuel as [|fuel IH]; intros fuel' i s Hf Hf'; [lia|].
  destruct fuel' as [|fuel']; [lia|]. cbn [replaceLoop].
  destruct (search r i s) as [[j y]|] eqn:E; [|reflexivity].
  destruct (search_shorter _ _ _ _ _ E) as [Hle [Hlt Heq]]. do 2 f_equal.
  destruct (Nat.eqb (endIndex y) j) eqn:Ej.
  - destruct (rest y) as [|a t] eqn:Er; [reflexivity|].
    simpl in Hle. f_equal. apply IH; lia.
  - apply Nat.eqb_neq in Ej. specialize (Hlt Ej). apply IH; lia.
Qed.

Lemma splitLoop_fuel r n : forall fuel fuel' p q lit s,
  p <= q ->
  2 * length s + (if Nat.eqb p q then 0 else 1) < fuel ->
  2 * length s + (if Nat.eqb p q then 0 else 1) < fuel' ->
  splitLoop fuel r n p q lit s = splitLoop fuel' r n p q lit s.
Proof.
  induction fuel as [|fuel IH]; intros fuel' p q lit s Hpq Hf Hf'; [lia|].
  destruct fuel' as [|fuel']; [lia|]. cbn [splitLoop].
  destruct s as [|ch s]; [reflexivity|]. cbn [length] in Hf, Hf'.
  assert (Hadv : splitLoop fuel r n p (S q) (lit ++ [ch]) s
                 = splitLoop fuel' r n p (S q) (lit ++ [ch]) s).
  { apply IH; [lia | |]; destruct (Nat.eqb p (S q)); lia. }
  destruct (matchAt r q (ch :: s)) as [y|] eqn:E; [|exact Hadv].
  destruct (Nat.eqb (endIndex y) p) eqn:Ep; [exact Hadv|].
  apply matchAt_consumes in E as [w [Hw Hi]].
  assert (Hlen : length (ch :: s) = length w + length (rest y))
    by (rewrite Hw, length_app; reflexivity).
  cbn [length] in Hlen. apply Nat.eqb_neq in Ep.
  do 2 f_equal. apply IH; [lia | |]; rewrite Nat.eqb_refl.
  - destruct w; simpl in *; [|lia].
    destruct (Nat.eqb p q) eqn:Epq; [apply Nat.eqb_eq in Epq; lia | lia].
  - destruct w; simpl in *; [|lia].
    destruct (Nat.eqb p q) eqn:Epq; [apply Nat.eqb_eq in Epq; lia | lia].
Qed.

Lemma readQuantifier_shorter atom s t s' :
  readQuantifier atom s = (t, s') -> length s' <= length s.
Proof.
  unfold readQuantifier. destruct s as [|q s1]; [intros [= <- <-]; lia|].
  destruct (quantifierOf q) as [[lo hi]|]; [|intros [= <- <-]; lia].
  destruct s1 as [|a s2]; [intros [= <- <-]; simpl; lia|].
  destruct (a =? 63)%N; intros [= <- <-]; simpl; lia.
Qed.

Lemma readTerms_fuel : forall fuel fuel' s,
  length s < fuel -> length s < fuel' ->
  readTerms fuel s = readTerms fuel' s.
Proof.
  induction fuel as [|fuel IH]; intros fuel' s Hf Hf'; [lia|].
  destruct fuel' as [|fuel']; [lia|]. cbn [readTerms].
  destruct s as [|c s1]; [reflexivity|]. cbn [length] in Hf, Hf'.
  assert (Hq : forall atom,
    (let '(t, s2) := readQuantifier atom s1 in cons t <$> readTerms fuel s2)
    = (let '(t, s2) := readQuantifier atom s1 in cons t <$> readTerms fuel' s2)).
  { intros atom. destruct (readQuantifier atom s1) as [t s2] eqn:E.
    apply readQuantifier_shorter in E. rewrite (IH fuel' s2) by lia. reflexivity. }
  destruct ((c =? 94)%N || (c =? 36)%N).
  - destruct s1 as [|q s2]; [reflexivity|].
    destruct (quantifierOf q); [reflexivity|].
    rewrite (IH fuel' (q :: s2)) by lia. reflexivity.
  - destruct (c =? 46)%N; [apply Hq|].
    destruct (c =? 92)%N.
    + destruct s1 as [|e s2]; [reflexivity|].
      destruct (isAsciiAlnum e); [reflexivity|].
      destruct (readQuantifier (Chr e) s2) as [t s3] eqn:E.
      apply readQuantifier_shorter in E. simpl in Hf, Hf'.
      rewrite (IH fuel' s3) by lia. reflexivity.
    + destruct (isSyntaxChar c); [reflexivity | apply Hq].
Qed.

Lemma stringLiteral_shorter_aux q : forall n s lit after,
  length s < n ->
  stringLiteral q s = Some (lit, after) -> length after < length s.
Proof.
  induction n as [|n IH]; intros s lit after Hn H; [lia|].
  destruct s as [|c s]; [discriminate|].
  cbn [stringLiteral] in H. cbn [length] in *.
  destruct (c =? q)%N; [injection H as <- <-; lia|].
  destruct (c =? 92)%N.
  - destruct s as [|e s]; [discriminate|].
    destruct (escapeValue e); [|discriminate].
    destruct (stringLiteral q s) as [[l a]|] eqn:E; [|discriminate].
    injection H as <- <-. cbn [length] in *. apply IH in E; lia.
  - destruct (isLineTerminator c); [discriminate|].
    destruct (stringLiteral q s) as [[l a]|] eqn:E; [|discriminate].
    injection H as <- <-. apply IH in E; lia.
Qed.

Lemma stringLiteral_shorter q s lit after :
  stringLiteral q s = Some (lit, after) -> length after < length s.
Proof. apply (stringLiteral_shorter_aux q (S (length s))). lia. Qed.

Lemma arrayElements_fuel : forall fuel fuel' s,
  length s < fuel -> length s < fuel' ->
  arrayElements fuel s = arrayElements fuel' s.
Proof.
  induction fuel as [|fuel IH]; intros fuel' s Hf Hf'; [lia|].
  destruct fuel' as [|fuel']; [lia|]. cbn [arrayElements].
  destruct s as [|c s1]; [reflexivity|]. cbn [length] in Hf, Hf'.
  destruct (c =? 93)%N; [reflexivity|].
  destruct (c =? 34)%N.
  - destruct (stringLiteral 34 s1) as [[lit [|d after]]|] eqn:E; try reflexivity.
    apply stringLiteral_shorter in E. simpl in E.
    destruct (d =? 44)%N; [|reflexivity].
    rewrite (IH fuel' after) by lia. reflexivity.
  - destruct (startsWith (js "$d('") (c :: s1)); [|reflexivity].
    destruct (stringLiteral 39 (skipn 4 (c :: s1))) as [[key [|d [|e after]]]|] eqn:E;
      try reflexivity.
    apply stringLiteral_shorter in E. rewrite length_skipn in E. simpl in E.
    destruct ((d =? 41)%N && (e =? 44)%N); [|reflexivity].
    rewrite (IH fuel' after) by lia. reflexivity.
Qed.

End FuelFacts.

(* ===================================================================== *)
(** ** [template] on plain literals and plain keys *)
(* ===================================================================== *)

Module TemplateFacts.

Import Strings Spec RegExpFacts SearchFacts WordsFacts KebabFacts FuelFacts.

(** A continuation that accepts nowhere further along makes the matcher
    fail. *)
Lemma matcher_fail r x c :
  (forall y, den r (posOf x) (posOf y) -> c y = None) -> matcher r x c = None.
Proof.
  intros H. destruct (matcher r x c) as [z|] eqn:E; [|reflexivity].
  apply matcher_sound in E as [y [Hd Hc]]. rewrite (H y Hd) in Hc. discriminate.
Qed.

Lemma den_Plus_step r p m q :
  den r p m -> den (Star r) m q -> den (Plus r) p q.
Proof.
  intros H1 [n [_ H2]]. exists (S n). split; [simpl; lia|].
  simpl. exists m. auto.
Qed.

(** A greedy repetition stops where its continuation accepts, when the
    continuation accepts nowhere after one more round. *)
Lemma star_stops ng its x c :
  (forall y, den (Plus (Cls ng its)) (posOf x) (posOf y) -> c y = None) ->
  matcher (Star (Cls ng its)) x c = c x.
Proof.
  intros H. rewrite matcher_Star. change (groups (Cls ng its)) with (@nil nat).
  rewrite clearCaptures_nil. rewrite matcher_fail; [reflexivity|].
  intros y Hy. destruct (Nat.eqb (endIndex y) (endIndex x)); [reflexivity|].
  apply matcher_fail. intros y' Hy'. apply H. eapply den_Plus_step; eauto.
Qed.

Lemma star_run_to ng its c tail z : forall run x,
  rest x = run ++ tail ->
  Forall (fun ch => inClass ng its ch = true) run ->
  (forall y, den (Plus (Cls ng its)) (endIndex x + length run, tail) (posOf y) ->
             c y = None) ->
  c (MState (endIndex x + length run) tail (captures x)) = Some z ->
  matcher (Star (Cls ng its)) x c = Some z.
Proof.
  induction run as [|ch run IH]; intros x Hx Hrun Hlate Hc.
  - cbn [app length] in *. rewrite Nat.add_0_r in *.
    rewrite star_stops.
    + destruct x as [e s caps]. cbn [rest endIndex captures] in *. subst s. exact Hc.
    + intros y Hy. apply Hlate. unfold posOf in Hy at 1. rewrite Hx in Hy. exact Hy.
  - rewrite matcher_Star. change (groups (Cls ng its)) with (@nil nat).
    rewrite clearCaptures_nil, matcher_Cls, Hx.
    inversion Hrun as [|? ? Hch Hrun']; subst. cbn [app]. rewrite Hch.
    change (endIndex (advance x)) with (S (endIndex x)). rewrite succ_neqb.
    rewrite (IH (advance x)); [reflexivity | | assumption | |].
    + simpl. rewrite Hx. reflexivity.
    + intros y Hy. apply Hlate. simpl in *.
      replace (endIndex x + S (length run)) with (S (endIndex x + length run)) by lia.
      exact Hy.
    + simpl. rewrite <- Hc. f_equal. f_equal. simpl. lia.
Qed.

Lemma inClass_Chr_eq c d : inClass false [CChar c] d = (d =? c)%N.
Proof. unfold inClass. simpl. rewrite orb_false_r. reflexivity. Qed.

Lemma keyChar_class c :
  isKeyChar c = true ->
  inClass true [CChar 59; CSpace; CChar 123] c = true
  /\ inClass false [CSpace] c = false
  /\ c <> 125%N /\ c <> 39%N /\ c <> 92%N /\ isLineTerminator c = false.
Proof.
  unfold isKeyChar, inClass. cbn [existsb inItem xorb].
  rewrite !negb_true_iff, !orb_false_iff, !N.eqb_neq.
  intros [[[[[H1 H2] H3] H4] H5] H6]. rewrite H6.
  repeat split; try assumption.
  - apply N.eqb_neq in H1, H2. rewrite H1, H2. reflexivity.
  - unfold isLineTerminator. unfold isSpace, inRange in H6.
    rewrite !orb_false_iff, !andb_false_iff, ?N.leb_gt, !N.eqb_neq in H6.
    rewrite !orb_false_iff, !N.eqb_neq. lia.
Qed.

Lemma literalChar_facts c :
  isLiteralChar c = true ->
  c <> 36%N /\ c <> 34%N /\ c <> 92%N /\ c <> 125%N /\ isLineTerminator c = false.
Proof.
  unfold isLiteralChar. rewrite !negb_true_iff, !orb_false_iff, !N.eqb_neq. tauto.
Qed.

Lemma matcher_Grp i r x c :
  matcher (Grp i r) x c = matcher r x (fun y => c (setCapture i x y)).
Proof. reflexivity. Qed.

Lemma matcher_Chr_hit c x tl k :
  rest x = c :: tl -> matcher (Chr c) x k = k (advance x).
Proof.
  intros H. unfold Chr. rewrite matcher_Cls, H, inClass_Chr_eq, N.eqb_refl.
  reflexivity.
Qed.

Lemma star_miss ng its c x :
  match rest x with [] => True | ch :: _ => inClass ng its ch = false end ->
  matcher (Star (Cls ng its)) x c = c x.
Proof.
  intros H. rewrite matcher_Star. change (groups (Cls ng its)) with (@nil nat).
  rewrite clearCaptures_nil, matcher_Cls.
  destruct (rest x); [reflexivity|]. rewrite H. reflexivity.
Qed.

(** After the closing brace of a placeholder no later closing brace can
    end the same placeholder: an opening brace stands in between. *)
Lemma no_late_close rest' i p1 p2 t :
  guarded rest' ->
  den (Plus (Cls true [CChar 59; CSpace; CChar 123])) (i, 125%N :: rest') p1 ->
  den (Star (Cls false [CSpace])) p1 p2 ->
  snd p2 = 125%N :: t -> False.
Proof.
  intros Hg H1 H2 Ht.
  apply den_Quant_class in H1 as [m [[Hm _] [Hb HK]]].
  apply den_Quant_class in H2 as [sp [[Hsp _] [_ HS]]].
  cbn [fst snd] in *. unfold withinBounds in Hb.
  destruct m as [|c0 m']; [simpl in Hb; lia|].
  rewrite Hsp, Ht in Hm. cbn [app] in Hm. injection Hm as <- Hr.
  rewrite app_assoc in Hr. apply Hg in Hr. apply in_app_or in Hr as [Hr|Hr].
  - inversion HK as [|? ? _ HK']; subst. rewrite Forall_forall in HK'.
    specialize (HK' _ (proj2 (list_elem_of_In _ _) Hr)). discriminate.
  - rewrite Forall_forall in HS.
    specialize (HS _ (proj2 (list_elem_of_In _ _) Hr)). discriminate.
Qed.

Lemma matchAt_placeholder q k rest' :
  isPlainKey k = true -> guarded rest' ->
  matchAt placeholder q (36%N :: 123%N :: k ++ 125%N :: rest')
  = Some (MState (q + 3 + length k) rest'
            [(1, 36%N :: 123%N :: k ++ [125%N]); (2, k)]).
Proof.
  intros Hk Hg. unfold isPlainKey in Hk. destruct k as [|k0 k']; [discriminate|].
  apply forallb_Forall in Hk. inversion Hk as [|? ? Hk0 Hk']; subst.
  destruct (keyChar_class _ Hk0) as [HK0 [HS0 _]].
  unfold matchAt, placeholder. set (x0 := MState q _ []).
  pose (x2 := MState (S (S q)) ((k0 :: k') ++ 125%N :: rest') []).
  rewrite matcher_Grp, matcher_Seq.
  rewrite (matcher_Chr_hit 36 x0 (123%N :: (k0 :: k') ++ 125%N :: rest')) by reflexivity.
  rewrite matcher_Seq.
  rewrite (matcher_Chr_hit 123 (advance x0) ((k0 :: k') ++ 125%N :: rest')) by reflexivity.
  change (advance (advance x0)) with x2.
  rewrite matcher_Seq, matcher_Grp, matcher_Seq.
  rewrite star_miss by exact HS0.
  rewrite matcher_Seq, matcher_Plus.
  change (groups (Cls true [CChar 59; CSpace; CChar 123])) with (@nil nat).
  rewrite clearCaptures_nil, matcher_Cls. cbn [x2 rest app]. rewrite HK0.
  erewrite (star_run_to _ _ _ (125%N :: rest') _ k');
    [reflexivity | reflexivity | | |].
  - eapply Forall_impl; [exact Hk'|]. intros c Hc. apply (keyChar_class _ Hc).
  - intros y Hy. apply matcher_fail. intros y2 Hy2.
    unfold Chr. rewrite matcher_Cls. cbn [setCapture rest].
    destruct (rest y2) as [|ch t] eqn:E; [reflexivity|].
    destruct (inClass false [CChar 125] ch) eqn:Ec; [|reflexivity].
    rewrite inClass_Chr_eq in Ec. apply N.eqb_eq in Ec as ->.
    exfalso. cbn [advance endIndex] in Hy.
    exact (no_late_close _ _ _ _ _ Hg Hy Hy2 E).
  - cbn [advance endIndex captures rest tail].
    rewrite star_miss by reflexivity.
    unfold Chr. rewrite matcher_Cls. cbn [setCapture rest].
    change (inClass false [CChar 125] 125) with true. cbv iota.
    unfold setCapture, advance, x0, x2.
    cbn [endIndex rest captures tail List.filter fst Nat.eqb negb].
    f_equal. f_equal; [cbn [length]; lia|].
    replace (S (S (S (S q)) + length k') - q)
      with (length ((36%N :: 123%N :: k0 :: k') ++ [125%N]))
      by (rewrite length_app; cbn [length]; lia).
    replace (S (S (S q)) + length k' - S (S q)) with (length (k0 :: k'))
      by (cbn [length]; lia).
    rewrite take_app_length.
    change (36%N :: 123%N :: (k0 :: k') ++ 125%N :: rest')
      with ((36%N :: 123%N :: k0 :: k') ++ [125%N] ++ rest').
    rewrite app_assoc, take_app_length. reflexivity.
Qed.

Lemma matchAt_placeholder_miss q c s :
  c <> 36%N -> matchAt placeholder q (c :: s) = None.
Proof.
  intros H. unfold matchAt, placeholder.
  rewrite matcher_Grp, matcher_Seq. unfold Chr at 1.
  rewrite matcher_Cls. cbn [rest]. rewrite inClass_Chr_eq.
  apply N.eqb_neq in H. rewrite H. reflexivity.
Qed.

Lemma guarded_text : forall l segs,
  Forall (fun c => isLiteralChar c = true) l -> guarded (l ++ templateText segs).
Proof.
  induction l as [|c l IH]; intros segs Hl a b E.
  - destruct segs as [|[k l2] tl]; cbn [app templateText] in E.
    + destruct a; discriminate.
    + destruct a as [|a0 [|a1 a]]; try discriminate.
      injection E as _ <- _. right. left. reflexivity.
  - inversion Hl as [|? ? Hc Hl']; subst.
    destruct (literalChar_facts _ Hc) as [_ [_ [_ [Hne _]]]].
    destruct a as [|a0 a]; cbn [app] in E; injection E as E0 E; [congruence|].
    right. eapply IH; eauto.
Qed.

(** [split] on a template of plain literals and plain keys. *)
Lemma splitLoop_template : forall segs lit acc fuel p q,
  p <= q ->
  Forall (fun c => isLiteralChar c = true) lit ->
  Forall (fun seg => isPlainSegment seg = true) segs ->
  2 * length (lit ++ templateText segs) + 1 < fuel ->
  splitLoop fuel placeholder 2 p q acc (lit ++ templateText segs)
  = splitPieces (acc ++ lit) segs.
Proof.
  induction segs as [|[k l] tl IHsegs]; intros lit; induction lit as [|c lit IHlit];
    intros acc fuel p q Hpq Hlit Hsegs Hf;
    (destruct fuel as [|fuel]; [lia|]); cbn [app templateText] in *.
  - rewrite app_nil_r. reflexivity.
  - inversion Hlit as [|? ? Hc Hlit']; subst.
    destruct (literalChar_facts _ Hc) as [Hne _].
    cbn [splitLoop]. rewrite matchAt_placeholder_miss by exact Hne.
    rewrite (IHlit (acc ++ [c])); [| lia | exact Hlit' | exact Hsegs
                                    | cbn [length] in Hf; lia].
    rewrite <- app_assoc. reflexivity.
  - inversion Hsegs as [|? ? Hseg Htl]; subst.
    unfold isPlainSegment in Hseg. cbn [fst snd] in Hseg.
    apply andb_true_iff in Hseg as [Hk Hl]. apply forallb_Forall in Hl.
    cbn [splitLoop].
    rewrite matchAt_placeholder by (exact Hk || apply guarded_text, Hl).
    cbn [endIndex rest].
    replace (Nat.eqb (q + 3 + length k) p) with false
      by (symmetry; apply Nat.eqb_neq; lia).
    rewrite app_nil_r. cbn [splitPieces]. f_equal.
    change (map _ (seq 1 2)) with [Some (36%N :: 123%N :: k ++ [125%N]); Some k].
    cbn [app]. do 2 f_equal.
    rewrite (IHsegs l []); [reflexivity | lia | exact Hl | exact Htl |].
    cbn [length] in Hf. rewrite !length_app in *. cbn [length] in Hf.
    rewrite !length_app in Hf. lia.
  - inversion Hlit as [|? ? Hc Hlit']; subst.
    destruct (literalChar_facts _ Hc) as [Hne _].
    cbn [splitLoop]. rewrite matchAt_placeholder_miss by exact Hne.
    rewrite (IHlit (acc ++ [c])); [| lia | exact Hlit' | exact Hsegs
                                    | cbn [length] in Hf; lia].
    rewrite <- app_assoc. reflexivity.
Qed.

Lemma split_template lit segs :
  Forall (fun c => isLiteralChar c = true) lit ->
  Forall (fun seg => isPlainSegment seg = true) segs ->
  split placeholder (lit ++ templateText segs) = splitPieces lit segs.
Proof.
  intros Hlit Hsegs. unfold split.
  destruct (lit ++ templateText segs) as [|c s] eqn:E.
  - destruct lit; [|discriminate]. destruct segs as [|[k l] tl]; [reflexivity | discriminate].
  - rewrite <- E. change (length (groups placeholder)) with 2.
    rewrite splitLoop_template; [reflexivity | lia | exact Hlit | exact Hsegs | lia].
Qed.

Lemma replaceFirst_absent c repl : forall s,
  Forall (fun d => d <> c) s -> replaceFirst [c] repl s = s.
Proof.
  induction s as [|d s IH]; intros H; [reflexivity|].
  inversion H as [|? ? Hd Hs]; subst. cbn [replaceFirst startsWith].
  replace (c =? d)%N with false by (symmetry; apply N.eqb_neq; congruence).
  cbn [andb]. rewrite IH by exact Hs. reflexivity.
Qed.

Lemma startsWithDollar_literal lit :
  Forall (fun c => isLiteralChar c = true) lit -> startsWithDollar lit = false.
Proof.
  intros H. destruct lit as [|c lit]; [reflexivity|].
  inversion H as [|? ? Hc _]; subst.
  destruct (literalChar_facts _ Hc) as [Hne _]. apply N.eqb_neq, Hne.
Qed.

Lemma literal_no_quote lit :
  Forall (fun c => isLiteralChar c = true) lit -> Forall (fun d => d <> 34%N) lit.
Proof.
  intros H. eapply Forall_impl; [exact H|]. intros c Hc.
  apply (literalChar_facts _ Hc).
Qed.

Lemma templateLoop_literal piece tl :
  startsWithDollar piece = false ->
  templateLoop (Some piece :: tl)
  = bind (templateLoop tl)
      (fun fn => Ok ([34%N] ++ replaceFirst [34%N] [92%N; 34%N] piece
                     ++ [34%N; 44%N] ++ fn)).
Proof. intros H. cbn [templateLoop]. rewrite H. reflexivity. Qed.

Lemma templateLoop_placeholder g next tl :
  startsWithDollar g = true ->
  templateLoop (Some g :: next :: tl)
  = bind (templateLoop tl)
      (fun fn => Ok (js "$d('" ++ interpolate next ++ js "')," ++ fn)).
Proof. intros H. cbn [templateLoop]. rewrite H. reflexivity. Qed.

Lemma splitPieces_cons lit k l tl :
  splitPieces lit ((k, l) :: tl)
  = Some lit :: Some (36%N :: 123%N :: k ++ [125%N]) :: Some k :: splitPieces l tl.
Proof. reflexivity. Qed.

(** The code that [template] generates for such a template. *)
Lemma templateLoop_template : forall segs lit,
  Forall (fun c => isLiteralChar c = true) lit ->
  Forall (fun seg => isPlainSegment seg = true) segs ->
  templateLoop (splitPieces lit segs)
  = Ok ([34%N] ++ lit ++ [34%N; 44%N] ++ generatedItems segs).
Proof.
  induction segs as [|[k l] tl IH]; intros lit Hlit Hsegs.
  - change (splitPieces lit []) with [Some lit].
    rewrite templateLoop_literal by (apply startsWithDollar_literal, Hlit).
    rewrite replaceFirst_absent by (apply literal_no_quote, Hlit). reflexivity.
  - inversion Hsegs as [|? ? Hseg Htl]; subst.
    unfold isPlainSegment in Hseg. cbn [fst snd] in Hseg.
    apply andb_true_iff in Hseg as [Hk Hl]. apply forallb_Forall in Hl.
    rewrite splitPieces_cons.
    rewrite templateLoop_literal by (apply startsWithDollar_literal, Hlit).
    rewrite templateLoop_placeholder by reflexivity.
    rewrite (IH l Hl Htl).
    rewrite replaceFirst_absent by (apply literal_no_quote, Hlit). reflexivity.
Qed.

Lemma stringLiteral_plain q t : forall s,
  Forall (fun c => c <> q /\ c <> 92%N /\ isLineTerminator c = false) s ->
  stringLiteral q (s ++ q :: t) = Some (s, t).
Proof.
  induction s as [|c s IH]; intros H; cbn [app stringLiteral].
  - rewrite N.eqb_refl. reflexivity.
  - inversion H as [|? ? [H1 [H2 H3]] Hs]; subst.
    apply N.eqb_neq in H1, H2. rewrite H1, H2, H3, (IH Hs). reflexivity.
Qed.

Lemma key_stringLiteral k t :
  isPlainKey k = true -> stringLiteral 39 (k ++ 39%N :: t) = Some (k, t).
Proof.
  intros Hk. apply stringLiteral_plain.
  unfold isPlainKey in Hk. destruct k as [|c k]; [discriminate|].
  apply forallb_Forall in Hk. eapply Forall_impl; [exact Hk|].
  intros d Hd. destruct (keyChar_class _ Hd) as [_ [_ [_ [H1 [H2 H3]]]]]. auto.
Qed.

Lemma literal_stringLiteral l t :
  Forall (fun c => isLiteralChar c = true) l ->
  stringLiteral 34 (l ++ 34%N :: t) = Some (l, t).
Proof.
  intros Hl. apply stringLiteral_plain. eapply Forall_impl; [exact Hl|].
  intros d Hd. destruct (literalChar_facts _ Hd) as [_ [H1 [H2 [_ H3]]]]. auto.
Qed.

Lemma arrayElements_literal fuel l t :
  Forall (fun c => isLiteralChar c = true) l ->
  arrayElements (S fuel) (34%N :: l ++ 34%N :: 44%N :: t)
  = cons (Lit l) <$> arrayElements fuel t.
Proof.
  intros Hl. cbn [arrayElements]. change (34 =? 93)%N with false.
  change (34 =? 34)%N with true. cbv iota.
  rewrite literal_stringLiteral by exact Hl. reflexivity.
Qed.

Lemma arrayElements_call fuel k t :
  isPlainKey k = true ->
  arrayElements (S fuel) (js "$d('" ++ k ++ js "')," ++ t)
  = cons (Call k) <$> arrayElements fuel t.
Proof.
  intros Hk.
  change (js "$d('" ++ k ++ js "')," ++ t)
    with (36%N :: 100%N :: 40%N :: 39%N :: k ++ 39%N :: 41%N :: 44%N :: t).
  cbn [arrayElements]. change (36 =? 93)%N with false.
  change (36 =? 34)%N with false. cbv iota.
  change (startsWith (js "$d('") (36%N :: 100%N :: 40%N :: 39%N :: k ++ 39%N :: 41%N :: 44%N :: t))
    with true. cbv iota. cbn [skipn]. rewrite drop_0.
  rewrite key_stringLiteral by exact Hk. reflexivity.
Qed.

Lemma arrayElements_template : forall segs fuel,
  Forall (fun seg => isPlainSegment seg = true) segs ->
  2 * length segs < fuel ->
  arrayElements fuel (generatedItems segs ++ [93%N]) = Some (templateItems segs).
Proof.
  induction segs as [|[k l] tl IH]; intros fuel Hsegs Hf.
  - destruct fuel; [lia | reflexivity].
  - inversion Hsegs as [|? ? Hseg Htl]; subst.
    unfold isPlainSegment in Hseg. cbn [fst snd] in Hseg.
    apply andb_true_iff in Hseg as [Hk Hl]. apply forallb_Forall in Hl.
    cbn [length] in Hf. destruct fuel as [|[|fuel]]; [lia | lia |].
    cbn [generatedItems templateItems]. rewrite <- !app_assoc.
    rewrite arrayElements_call by exact Hk.
    change ([34%N] ++ l ++ [34%N; 44%N] ++ generatedItems tl ++ [93%N])
      with (34%N :: l ++ 34%N :: 44%N :: generatedItems tl ++ [93%N]).
    rewrite arrayElements_literal by exact Hl.
    rewrite IH by (exact Htl || lia). reflexivity.
Qed.

Lemma generatedItems_length segs : 2 * length segs <= length (generatedItems segs).
Proof.
  induction segs as [|[k l] tl IH]; [simpl; lia|].
  cbn [generatedItems length]. rewrite !length_app. cbn [length js]. lia.
Qed.

(** A template of plain literals and plain keys compiles to its segments:
    the literals as they are, and a call of the resolver with each key. *)
Lemma templateProgram_template lit segs :
  Forall (fun c => isLiteralChar c = true) lit ->
  Forall (fun seg => isPlainSegment seg = true) segs ->
  templateProgram (lit ++ templateText segs)
  = Ok (Some (Lit lit :: templateItems segs)).
Proof.
  intros Hlit Hsegs. unfold templateProgram, templateSource.
  rewrite split_template, templateLoop_template by assumption.
  cbn [bind]. f_equal. unfold functionBody. rewrite <- !app_assoc.
  change (js "return [" ++ [34%N] ++ lit ++ [34%N; 44%N] ++ generatedItems segs
          ++ js "]")
    with (js "return [" ++ 34%N :: lit ++ 34%N :: 44%N :: generatedItems segs ++ [93%N]).
  change (startsWith (js "return [") (js "return [" ++ _)) with true. cbv iota.
  set (body := 34%N :: lit ++ 34%N :: 44%N :: generatedItems segs ++ [93%N]).
  change (skipn 8 (js "return [" ++ body)) with body.
  change (length (js "return [" ++ body)) with (8 + length body).
  unfold body. rewrite arrayElements_literal by exact Hlit.
  rewrite arrayElements_template; [reflexivity | exact Hsegs |].
  pose proof (generatedItems_length segs).
  cbn [length]. rewrite !length_app. cbn [length]. rewrite length_app. lia.
Qed.

End TemplateFacts.

(* ===================================================================== *)
(** ** [caseStr] with any separator, and how the converters compose *)
(* ===================================================================== *)

Module SeparatorFacts.

Import Strings Spec RegExpFacts SearchFacts WordsFacts CaseFacts KebabFacts
       IdempotenceFacts.

Lemma separator_facts sep :
  isTokenSeparator sep = true ->
  inClass false breakItems sep = true
  /\ inClass false plainItems sep = false
  /\ isUpper sep = false /\ isLower sep = false /\ isDigit sep = false.
Proof.
  unfold isTokenSeparator. intros H. apply andb_true_iff in H as [H1 H2].
  apply negb_true_iff in H2. split; [exact H1|]. split; [exact H2|].
  clear H2. repeat split.
  - destruct (isUpper sep) eqn:E; [|reflexivity]. exfalso. class_arith.
  - destruct (isLower sep) eqn:E; [|reflexivity]. exfalso. class_arith.
  - destruct (isDigit sep) eqn:E; [|reflexivity]. exfalso. class_arith.
Qed.

Lemma lookahead_boundaryAt sep e tail :
  isTokenSeparator sep = true -> boundaryAt sep tail ->
  matcher (Look (Alt B (Alt U Eos))) (MState e tail []) Some
  = Some (MState e tail []).
Proof.
  intros Hs [->|[t ->]]; [reflexivity|].
  destruct (separator_facts _ Hs) as [HB _].
  rewrite matcher_Look, matcher_Alt. unfold B. rewrite matcher_Cls.
  cbn [rest]. rewrite HB. reflexivity.
Qed.

Lemma boundaryAt_head (P : N -> bool) sep tail :
  P sep = false -> boundaryAt sep tail ->
  match tail with [] => True | ch :: _ => P ch = false end.
Proof. intros H [->|[t ->]]; [exact I | exact H]. Qed.

Lemma matchAt_unicodeWords_token sep i t tail :
  isTokenSeparator sep = true ->
  isKebabWord t = true -> boundaryAt sep tail ->
  matchAt unicodeWords i (t ++ tail) = Some (MState (i + length t) tail []).
Proof.
  intros Hs Ht Hb. destruct (separator_facts _ Hs) as [_ [_ [_ [HsL HsD]]]].
  unfold isKebabWord in Ht. destruct t as [|c t]; [done|].
  apply orb_true_iff in Ht as [Ht|Ht]; apply forallb_Forall in Ht;
    assert (Hc := Forall_inv Ht);
    unfold matchAt, unicodeWords.
  - rewrite matcher_Alt, matcher_Seq. unfold U at 1. rewrite opt_miss
      by (simpl; apply lower_not_upper, Hc).
    rewrite matcher_Seq. unfold L at 1.
    erewrite (plus_run _ _ _ tail _ (c :: t)); [reflexivity | reflexivity | done | | |].
    + exact Ht.
    + apply (boundaryAt_head (inClass false lowerItems) sep); [exact HsL | exact Hb].
    + cbn [endIndex captures]. eapply lookahead_boundaryAt; eauto.
  - assert (Hu : isUpper c = false) by (apply digit_not_upper, Hc).
    assert (Hl : isLower c = false) by (apply digit_not_lower, Hc).
    rewrite matcher_Alt, matcher_Seq. unfold U at 1. rewrite opt_miss by exact Hu.
    rewrite matcher_Seq. unfold L at 1. rewrite plus_miss by exact Hl.
    rewrite matcher_Alt, matcher_Seq. unfold U at 1. rewrite plus_miss by exact Hu.
    rewrite matcher_Alt, matcher_Seq. unfold U at 1. rewrite opt_miss by exact Hu.
    unfold L at 1. rewrite plus_miss by exact Hl.
    rewrite matcher_Alt. unfold U at 1. rewrite plus_miss by exact Hu.
    erewrite (plus_run _ _ _ tail _ (c :: t)); [reflexivity | reflexivity | done | | |].
    + exact Ht.
    + apply (boundaryAt_head (inClass false [CDigit]) sep); [exact HsD | exact Hb].
    + reflexivity.
Qed.

Lemma matchAt_unicodeWords_separator sep i s :
  isTokenSeparator sep = true -> matchAt unicodeWords i (sep :: s) = None.
Proof.
  intros Hs. destruct (separator_facts _ Hs) as [_ [_ [Hu [Hl Hd]]]].
  unfold matchAt, unicodeWords.
  rewrite matcher_Alt, matcher_Seq. unfold U at 1. rewrite opt_miss by exact Hu.
  rewrite matcher_Seq. unfold L at 1. rewrite plus_miss by exact Hl.
  rewrite matcher_Alt, matcher_Seq. unfold U at 1. rewrite plus_miss by exact Hu.
  rewrite matcher_Alt, matcher_Seq. unfold U at 1. rewrite opt_miss by exact Hu.
  unfold L at 1. rewrite plus_miss by exact Hl.
  rewrite matcher_Alt. unfold U at 1. rewrite plus_miss by exact Hu.
  rewrite plus_miss by exact Hd. reflexivity.
Qed.

Lemma matchLoop_joined sep : forall ts fuel i,
  isTokenSeparator sep = true ->
  Forall (fun t => isKebabWord t = true) ts ->
  length (join [sep] (map Some ts)) < fuel ->
  matchLoop fuel unicodeWords i (join [sep] (map Some ts)) = ts.
Proof.
  induction ts as [|t ts IH]; intros fuel i Hs Hts Hf.
  - apply matchLoop_nil. reflexivity.
  - inversion Hts as [|? ? Ht Hts']; subst.
    destruct fuel as [|fuel]; [lia|].
    destruct ts as [|t2 ts].
    + cbn [map join default from_option id]. rewrite <- (app_nil_r t) at 1.
      erewrite matchLoop_token;
        [| apply kebabWord_nonempty, Ht
         | apply (matchAt_unicodeWords_token sep); [exact Hs | exact Ht | left; reflexivity]].
      rewrite matchLoop_nil by reflexivity. reflexivity.
    + cbn [map] in *. rewrite join_cons2 in *. cbn [default from_option id] in *.
      rewrite length_app in Hf. cbn [app length] in Hf.
      erewrite matchLoop_token;
        [| apply kebabWord_nonempty, Ht
         | apply (matchAt_unicodeWords_token sep);
           [exact Hs | exact Ht | right; eexists; reflexivity]].
      destruct fuel as [|fuel]; [lia|].
      cbn [app]. rewrite matchLoop_skip by (apply matchAt_unicodeWords_separator, Hs).
      f_equal. apply (IH (S fuel)); [exact Hs | exact Hts' | cbn [map]; lia].
Qed.

(** Joining lowercased tokens with a separator and splitting again gives
    the tokens back. *)
Lemma words_joined sep ts :
  isTokenSeparator sep = true ->
  Forall (fun t => isKebabWord t = true) ts ->
  words (ArgStr (join [sep] (map Some ts))) = ts.
Proof.
  intros Hs Hts. destruct ts as [|t ts]; [reflexivity|].
  inversion Hts as [|? ? Ht Hts']; subst.
  assert (Hne : join [sep] (map Some (t :: ts)) <> []).
  { destruct t; [discriminate|]. destruct ts; discriminate. }
  unfold words. destruct (join [sep] (map Some (t :: ts))) as [|a s] eqn:Es; [done|].
  rewrite <- Es. clear a s Es Hne. unfold matchAll.
  destruct (test hasUnicodeWord (join [sep] (map Some (t :: ts)))) eqn:E.
  - rewrite matchLoop_joined by (done || lia). reflexivity.
  - destruct ts as [|t2 ts].
    + cbn [map join default from_option id]. rewrite <- (app_nil_r t) at 2.
      erewrite matchLoop_token;
        [| apply kebabWord_nonempty, Ht
         | rewrite app_nil_r; apply matchAt_asciiWords_kebab, Ht].
      rewrite matchLoop_nil by reflexivity. reflexivity.
    + apply hasUnicodeWord_false in E. rewrite Forall_forall in E.
      assert (Hin : sep ∈ join [sep] (map Some (t :: t2 :: ts))).
      { cbn [map]. rewrite join_cons2. rewrite !elem_of_app. right. left. left. }
      specialize (E sep Hin). destruct (separator_facts _ Hs) as [_ [Hp _]].
      rewrite Hp in E. discriminate.
Qed.

(** [caseStr] puts every token in lower case and joins with the
    separator. *)
Lemma caseStr_tokens uL casing s :
  caseStr uL casing s = Ok (join casing (map Some (lowerWords s))).
Proof.
  unfold caseStr, mapWords, lowerWords.
  rewrite arrayMap_lower by apply words_wellFormed. rewrite map_map. reflexivity.
Qed.

Lemma lowerWords_kebab s : Forall (fun t => isKebabWord t = true) (lowerWords s).
Proof. unfold lowerWords. apply Forall_map. apply words_lower_kebab. Qed.

Lemma lowerWords_joined sep s :
  isTokenSeparator sep = true ->
  lowerWords (join [sep] (map Some (lowerWords s))) = lowerWords s.
Proof.
  intros Hs. unfold lowerWords at 1.
  rewrite (words_joined sep) by (exact Hs || apply lowerWords_kebab).
  pose proof (lowerWords_kebab s) as H.
  induction H as [|t ts Ht Hts IH]; [reflexivity|].
  cbn [map]. rewrite IH, (lower1_kebabWord _ Ht). reflexivity.
Qed.

Lemma caseStr_caseStr uL sep1 sep2 s :
  isTokenSeparator sep1 = true ->
  bind (caseStr uL [sep1] s) (caseStr uL [sep2]) = caseStr uL [sep2] s.
Proof.
  intros H1. rewrite (caseStr_tokens uL [sep1] s). cbn [bind].
  rewrite !caseStr_tokens, lowerWords_joined by exact H1. reflexivity.
Qed.

Lemma camelText_lower ws : camelText (map (map lower1) ws) = camelText ws.
Proof.
  unfold camelText. f_equal. generalize 0. induction ws as [|w ws IH]; intros i.
  - reflexivity.
  - cbn [map camelTokens]. rewrite IH.
    assert (H : map lower1 (map lower1 w) = map lower1 w).
    { rewrite map_map. apply map_ext. intros c. unfold lower1.
      destruct (inRange 65 90 c || inRange 192 214 c || inRange 216 222 c) eqn:E;
        [|rewrite E; reflexivity].
      destruct (inRange 65 90 (c + 32) || inRange 192 214 (c + 32)
                || inRange 216 222 (c + 32)) eqn:E2; [|reflexivity].
      exfalso. class_arith. }
    rewrite H. reflexivity.
Qed.

Lemma camelCase_caseStr uL uU sep s :
  isTokenSeparator sep = true ->
  bind (caseStr uL [sep] s) (camelCase uL uU) = camelCase uL uU s.
Proof.
  intros Hs. rewrite (caseStr_tokens uL [sep] s). cbn [bind].
  rewrite !camelCase_camelText.
  rewrite (words_joined sep) by (exact Hs || apply lowerWords_kebab).
  unfold lowerWords. rewrite camelText_lower. reflexivity.
Qed.

(** Splitting at the hyphens gives back the words that were joined. *)
Lemma kebabWord_no_hyphen w :
  isKebabWord w = true -> Forall (fun c => (c =? 45)%N = false) w.
Proof.
  unfold isKebabWord. destruct w as [|c0 w0]; [discriminate|].
  intros H. apply orb_true_iff in H as [H|H]; apply forallb_Forall in H;
    (eapply Forall_impl; [exact H|]); intros c Hc; simpl in Hc;
    apply N.eqb_neq; intros ->; discriminate.
Qed.

Lemma splitHyphen_word w :
  Forall (fun c => (c =? 45)%N = false) w -> splitHyphen w = [w].
Proof.
  induction 1 as [|c w Hc _ IH]; [reflexivity|].
  cbn [splitHyphen]. rewrite Hc, IH. reflexivity.
Qed.

Lemma splitHyphen_app w s :
  Forall (fun c => (c =? 45)%N = false) w ->
  splitHyphen (w ++ 45%N :: s) = w :: splitHyphen s.
Proof.
  induction 1 as [|c w Hc _ IH]; [reflexivity|].
  cbn [app splitHyphen]. rewrite Hc, IH. reflexivity.
Qed.

Lemma splitHyphen_joined t ts :
  Forall (fun w => isKebabWord w = true) (t :: ts) ->
  splitHyphen (join [45%N] (map Some (t :: ts))) = t :: ts.
Proof.
  revert t. induction ts as [|t2 ts IH]; intros t H;
    inversion H as [|? ? Ht Hts]; subst.
  - cbn [map join default from_option id]. apply splitHyphen_word, kebabWord_no_hyphen, Ht.
  - cbn [map]. rewrite join_cons2. cbn [default from_option id app].
    rewrite splitHyphen_app by apply kebabWord_no_hyphen, Ht.
    f_equal. apply (IH t2 Hts).
Qed.

Lemma joined_kebabForm ts :
  Forall (fun w => isKebabWord w = true) ts ->
  isKebabForm (join [45%N] (map Some ts)) = true.
Proof.
  intros H. destruct ts as [|t ts]; [reflexivity|].
  unfold isKebabForm. destruct (join [45%N] (map Some (t :: ts))) eqn:E; [reflexivity|].
  rewrite <- E, splitHyphen_joined by exact H. apply Forall_forallb, H.
Qed.

Lemma lowerWords_lowerCase uL s :
  lowerWords s = map (lowerCase uL) (words (ArgStr s)).
Proof.
  unfold lowerWords. apply map_ext_Forall.
  eapply Forall_impl; [apply words_wellFormed|].
  intros w Hw. simpl. rewrite lowerCase_token by exact Hw. reflexivity.
Qed.

End SeparatorFacts.

(* ===================================================================== *)
(** ** What [words] keeps and what it drops *)
(* ===================================================================== *)

Module TokenFacts.

Import Strings Spec RegExpFacts SearchFacts WordsFacts KebabFacts
       IdempotenceFacts.

(** The search stops at the first index with a match. *)
Lemma search_first r : forall s i j y,
  search r i s = Some (j, y) ->
  exists pre s', s = pre ++ s' /\ j = i + length pre /\ matchAt r j s' = Some y
    /\ forall p1 c p2, pre = p1 ++ c :: p2 ->
         matchAt r (i + length p1) (c :: p2 ++ s') = None.
Proof.
  induction s as [|ch s IH]; intros i j y H; simpl in H.
  - destruct (matchAt r i []) eqn:E; [|done]. injection H as <- <-.
    exists [], []. simpl. repeat split; [lia | exact E |].
    intros [|] ? ? ?; discriminate.
  - destruct (matchAt r i (ch :: s)) eqn:E.
    + injection H as <- <-. exists [], (ch :: s). simpl.
      repeat split; [lia | exact E |]. intros [|] ? ? ?; discriminate.
    + apply IH in H as [pre [s' [-> [-> [H Hpre]]]]].
      exists (ch :: pre), s'. simpl. repeat split; [lia | exact H |].
      intros [|a p1] c p2 Hp; simpl in Hp; injection Hp as -> ->.
      * simpl. rewrite Nat.add_0_r. exact E.
      * simpl. replace (i + S (length p1)) with (S i + length p1) by lia.
        apply Hpre. reflexivity.
Qed.

Lemma filter_none (P : N -> bool) s :
  Forall (fun c => P c = false) s -> List.filter P s = [].
Proof.
  induction 1 as [|c s Hc _ IH]; [reflexivity|]. simpl. rewrite Hc. exact IH.
Qed.

Lemma filter_all (P : N -> bool) s :
  Forall (fun c => P c = true) s -> List.filter P s = s.
Proof.
  induction 1 as [|c s Hc _ IH]; [reflexivity|]. simpl. rewrite Hc, IH. reflexivity.
Qed.

Lemma filter_agree (P Q : N -> bool) s :
  Forall (fun c => P c = Q c) s -> List.filter P s = List.filter Q s.
Proof.
  induction 1 as [|c s Hc _ IH]; [reflexivity|]. simpl. rewrite Hc, IH. reflexivity.
Qed.

(** When a pattern matches only non-empty runs of code units of one kind,
    and matches wherever a code unit of that kind stands, the matches of
    the whole input side by side are the code units of that kind. *)
Lemma matchLoop_filter (P : N -> bool) r :
  (forall j s y, matchAt r j s = Some y ->
     exists w, s = w ++ rest y /\ endIndex y = j + length w /\ w <> []
               /\ Forall (fun c => P c = true) w) ->
  (forall j c t, P c = true -> matchAt r j (c :: t) <> None) ->
  forall fuel i s, length s < fuel ->
  concat (matchLoop fuel r i s) = List.filter P s.
Proof.
  intros Hm Hs. induction fuel as [|fuel IH]; intros i s Hf; [lia|].
  cbn [matchLoop]. destruct (search r i s) as [[j y]|] eqn:E.
  - apply search_first in E as [pre [s' [-> [-> [E Hpre]]]]].
    destruct (Hm _ _ _ E) as [w [-> [Hi [Hne Hw]]]].
    replace (i + length pre - i) with (length pre) by lia.
    rewrite drop_app_length, Hi.
    replace (i + length pre + length w - (i + length pre)) with (length w) by lia.
    rewrite take_app_length.
    assert (Hl : 0 < length w) by (destruct w; [done | simpl; lia]).
    replace (Nat.eqb (i + length pre + length w) (i + length pre)) with false
      by (symmetry; apply Nat.eqb_neq; lia).
    cbn [concat]. rewrite IH by (rewrite !length_app in Hf; lia).
    rewrite !List.filter_app, (filter_all P w Hw).
    rewrite (filter_none P pre); [reflexivity|].
    apply Forall_forall. intros c Hc.
    apply list_elem_of_In, in_split in Hc as [p1 [p2 ->]].
    destruct (P c) eqn:Ec; [|reflexivity].
    exfalso. eapply Hs; [exact Ec | eapply Hpre; reflexivity].
  - cbn [concat]. symmetry. apply filter_none.
    apply Forall_forall. intros c Hc.
    apply list_elem_of_In, in_split in Hc as [p1 [p2 ->]].
    destruct (P c) eqn:Ec; [|reflexivity].
    exfalso. eapply Hs; [exact Ec | eapply search_none; [exact E | reflexivity]].
Qed.

(** The longest run of code units of one kind at the head of a string. *)
Lemma run_split (P : N -> bool) : forall s,
  exists run tail, s = run ++ tail /\ Forall (fun c => P c = true) run
    /\ match tail with [] => True | ch :: _ => P ch = false end.
Proof.
  induction s as [|c s [run [tail [-> [Hr Ht]]]]].
  - exists [], []. repeat split. constructor.
  - destruct (P c) eqn:E.
    + exists (c :: run), tail. repeat split; [constructor; assumption | exact Ht].
    + exists [], (c :: run ++ tail). repeat split; [constructor | exact E].
Qed.

Lemma plus_hit ng its j c t :
  inClass ng its c = true ->
  matcher (Plus (Cls ng its)) (MState j (c :: t) []) Some <> None.
Proof.
  intros Hc. destruct (run_split (inClass ng its) t) as [run [tail [-> [Hr Ht]]]].
  erewrite (plus_run ng its Some tail _ (c :: run));
    [discriminate | reflexivity | discriminate | constructor; assumption
     | exact Ht | reflexivity].
Qed.

Lemma alt_hit_r r1 r2 x c :
  matcher r2 x c <> None -> matcher (Alt r1 r2) x c <> None.
Proof. rewrite matcher_Alt. destruct (matcher r1 x c); [discriminate | done]. Qed.

(** The extended matcher matches wherever a letter or a digit stands. *)
Lemma matchAt_unicodeWords_hit j c t :
  isWordChar c = true -> matchAt unicodeWords j (c :: t) <> None.
Proof.
  intros Hc. unfold matchAt, unicodeWords. unfold isWordChar in Hc.
  apply orb_true_iff in Hc as [Hc|Hc]; [apply orb_true_iff in Hc as [Hc|Hc]|].
  - do 3 apply alt_hit_r. rewrite matcher_Alt.
    pose proof (plus_hit false upperItems j c t Hc) as H. fold U in H.
    destruct (matcher (Plus U) _ Some); [discriminate | done].
  - do 2 apply alt_hit_r. rewrite matcher_Alt, matcher_Seq.
    unfold U at 1. rewrite opt_miss.
    + pose proof (plus_hit false lowerItems j c t Hc) as H. fold L in H.
      destruct (matcher (Plus L) _ _); [discriminate | done].
    + cbn [rest]. destruct (inClass false upperItems c) eqn:E; [|reflexivity].
      exfalso. clear -Hc E. class_arith.
  - do 4 apply alt_hit_r. apply plus_hit. exact Hc.
Qed.

Lemma matchAt_unicodeWords_wordChars j s y :
  matchAt unicodeWords j s = Some y ->
  exists w, s = w ++ rest y /\ endIndex y = j + length w /\ w <> []
            /\ Forall (fun c => isWordChar c = true) w.
Proof.
  intros H. apply matchAt_sound, den_unicodeWords in H as [w [[Hw Hi] Ht]].
  apply unicodeToken_wellFormed in Ht as [Hne Hall].
  exists w. auto.
Qed.

Lemma matchAt_asciiWords_run j s y :
  matchAt asciiWords j s = Some y ->
  exists w, s = w ++ rest y /\ endIndex y = j + length w /\ w <> []
            /\ Forall (fun c => inClass true asciiSeparators c = true) w.
Proof.
  intros H. apply matchAt_sound, den_asciiWords in H as [w [[Hw Hi] [Hne Hall]]].
  exists w. auto.
Qed.

Lemma plain_wordChar c :
  inClass false plainItems c = true ->
  inClass true asciiSeparators c = isWordChar c.
Proof.
  intros Hp.
  destruct (inClass true asciiSeparators c) eqn:E1, (isWordChar c) eqn:E2;
    try reflexivity; exfalso; class_arith.
Qed.

(** The tokens of a string, side by side, are its letters and digits. *)
Lemma words_concat s : concat (words (ArgStr s)) = List.filter isWordChar s.
Proof.
  destruct s as [|a s]; [reflexivity|]. unfold words, matchAll.
  set (t := a :: s).
  assert (H : forall r, match match matchLoop (S (length t)) r 0 t with
                              | [] => None | l => Some l end with
                        | Some l => l | None => [] end
                        = matchLoop (S (length t)) r 0 t).
  { intros r. destruct (matchLoop (S (length t)) r 0 t); reflexivity. }
  rewrite H. destruct (test hasUnicodeWord t) eqn:E.
  - apply (matchLoop_filter isWordChar);
      [apply matchAt_unicodeWords_wordChars | apply matchAt_unicodeWords_hit | lia].
  - rewrite (matchLoop_filter (inClass true asciiSeparators));
      [| apply matchAt_asciiWords_run
       | intros j c t' Hc; apply plus_hit, Hc | lia].
    apply filter_agree. apply hasUnicodeWord_false in E.
    eapply Forall_impl; [exact E|]. intros c Hc. apply plain_wordChar, Hc.
Qed.

Lemma lower1_letter c : isLower (lower1 c) = true -> isLetter c = true.
Proof.
  unfold isLetter, lower1.
  destruct (inRange 65 90 c || inRange 192 214 c || inRange 216 222 c) eqn:E.
  - intros _. apply orb_true_iff. left. clear -E. class_arith.
  - intros ->. apply orb_true_r.
Qed.

Lemma lower1_digit_inv c : isDigit (lower1 c) = true -> isDigit c = true.
Proof.
  unfold lower1.
  destruct (inRange 65 90 c || inRange 192 214 c || inRange 216 222 c) eqn:E;
    [|done].
  intros H. exfalso. class_arith.
Qed.

(** No token has both a letter and a digit. *)
Lemma words_letters_or_digits str :
  Forall (fun w => forallb isLetter w || forallb isDigit w = true) (words str).
Proof.
  destruct str as [| |s]; try constructor.
  eapply Forall_impl; [apply words_lower_kebab|].
  intros w Hw. unfold isKebabWord in Hw.
  destruct (map lower1 w) as [|c0 w0] eqn:Ew; [done|]. rewrite <- Ew in Hw.
  clear Ew c0 w0.
  apply orb_true_iff in Hw as [Hw|Hw]; apply orb_true_iff; [left | right];
    apply forallb_Forall in Hw; apply Forall_forallb;
    rewrite Forall_map in Hw; (eapply Forall_impl; [exact Hw|]);
    intros c Hc; simpl in Hc.
  - apply lower1_letter, Hc.
  - apply lower1_digit_inv, Hc.
Qed.

End TokenFacts.

(* ===================================================================== *)
(** ** The two branches of [wildcardToRegExp] *)
(* ===================================================================== *)

Module HatchFacts.

Import Strings Spec RegExpFacts SearchFacts WordsFacts GlobFacts KebabFacts
       TemplateFacts.

Lemma star_stops_Dot x c :
  (forall y, den (Plus Dot) (posOf x) (posOf y) -> c y = None) ->
  matcher (Star Dot) x c = c x.
Proof.
  intros H. rewrite matcher_Star. change (groups Dot) with (@nil nat).
  rewrite clearCaptures_nil. rewrite matcher_fail; [reflexivity|].
  intros y Hy. destruct (Nat.eqb (endIndex y) (endIndex x)); [reflexivity|].
  apply matcher_fail. intros y' Hy'. apply H. eapply den_Plus_step; eauto.
Qed.

(** A greedy run of [.] ends at the last place from which the rest of the
    pattern matches. *)
Lemma star_run_to_Dot c tail z : forall run x,
  rest x = run ++ tail ->
  Forall (fun ch => isLineTerminator ch = false) run ->
  (forall y, den (Plus Dot) (endIndex x + length run, tail) (posOf y) ->
             c y = None) ->
  c (MState (endIndex x + length run) tail (captures x)) = Some z ->
  matcher (Star Dot) x c = Some z.
Proof.
  induction run as [|ch run IH]; intros x Hx Hrun Hlate Hc.
  - cbn [app length] in *. rewrite Nat.add_0_r in *.
    rewrite star_stops_Dot.
    + destruct x as [e s caps]. cbn [rest endIndex captures] in *. subst s. exact Hc.
    + intros y Hy. apply Hlate. unfold posOf in Hy at 1. rewrite Hx in Hy. exact Hy.
  - rewrite matcher_Star. change (groups Dot) with (@nil nat).
    rewrite clearCaptures_nil, matcher_Dot, Hx.
    inversion Hrun as [|? ? Hch Hrun']; subst. cbn [app]. rewrite Hch.
    change (endIndex (advance x)) with (S (endIndex x)). rewrite succ_neqb.
    rewrite (IH (advance x)); [reflexivity | | assumption | |].
    + simpl. rewrite Hx. reflexivity.
    + intros y Hy. apply Hlate. simpl in *.
      replace (endIndex x + S (length run)) with (S (endIndex x + length run)) by lia.
      exact Hy.
    + simpl. rewrite <- Hc. f_equal. f_equal. simpl. lia.
Qed.


Lemma isFlag_class c :
  (c = 105 \/ c = 109)%N -> inClass false [CChar 105; CChar 109] c = true.
Proof. intros [->| ->]; reflexivity. Qed.

(** After at least one more [.] the input left is a piece of what stood
    after the first code unit. *)
Lemma den_Plus_Dot_rest i c t q :
  den (Plus Dot) (i, c :: t) q -> exists w, t = w ++ snd q.
Proof.
  intros [n [Hb H]]. simpl in Hb. destruct n as [|n]; [lia|].
  simpl in H. destruct H as [m [[ch [H1 _]] H]].
  simpl in H1. injection H1 as _ ->.
  apply (iter_consumes _ n (den_consumes Dot)) in H as [w [Hw _]].
  exists w. exact Hw.
Qed.

Lemma flags_no_slash fl w ch t :
  Forall (fun c => c = 105%N \/ c = 109%N) fl ->
  fl = w ++ ch :: t -> (ch =? 47)%N = false.
Proof.
  intros H ->. apply Forall_app in H as [_ H].
  inversion H as [|? ? [->| ->] _]; reflexivity.
Qed.

(** The pattern of the escape hatch on a text between slashes with the
    letters i and m after it. *)
Lemma matchAt_rawPattern src fl :
  src <> [] ->
  Forall (fun c => isLineTerminator c = false) src ->
  Forall (fun c => c = 105%N \/ c = 109%N) fl ->
  exists y, matchAt rawPattern 0 (47%N :: src ++ 47%N :: fl) = Some y
    /\ capture 1 y = Some src
    /\ capture 2 y = match fl with [] => None | _ :: _ => Some fl end.
Proof.
  intros Hne Hsrc Hfl. destruct src as [|c0 src']; [done|]. clear Hne.
  inversion Hsrc as [|? ? Hc0 Hsrc']; subst.
  unfold matchAt, rawPattern.
  rewrite matcher_Seq. cbn [matcher endIndex Nat.eqb].
  rewrite (matcher_Chr_hit 47 _ ((c0 :: src') ++ 47%N :: fl)) by reflexivity.
  rewrite matcher_Plus. change (groups Dot) with (@nil nat).
  rewrite clearCaptures_nil, matcher_Dot. cbn [advance rest tl app endIndex captures].
  rewrite Hc0.
  set (x1 := MState 1 (c0 :: src' ++ 47%N :: fl) []).
  set (x2 := MState 2 (src' ++ 47%N :: fl) []).
  pose (k := fun y0 : mstate =>
    matcher (Chr 47) (setCapture 1 x1 y0)
      (fun y1 => matcher (Opt (Grp 2 (Plus (Cls false [CChar 105; CChar 109])))) y1
         (fun y2 => match rest y2 with [] => Some y2 | _ :: _ => None end))).
  change (exists y, matcher (Star Dot) x2 k = Some y
            /\ capture 1 y = Some (c0 :: src')
            /\ capture 2 y = match fl with [] => None | _ :: _ => Some fl end).
  assert (Hz : exists z,
    k (MState (2 + length src') (47%N :: fl) []) = Some z
    /\ capture 1 z = Some (c0 :: src')
    /\ capture 2 z = match fl with [] => None | _ :: _ => Some fl end).
  { unfold k. rewrite (matcher_Chr_hit 47 _ fl) by reflexivity.
    unfold setCapture, advance, x1. cbn [endIndex rest captures tl List.filter].
    replace (2 + length src' - 1) with (length (c0 :: src')) by (cbn [length]; lia).
    change (c0 :: src' ++ 47%N :: fl) with ((c0 :: src') ++ 47%N :: fl).
    rewrite take_app_length.
    destruct fl as [|f0 fl'].
    - rewrite matcher_Opt. cbn. eexists. split; [reflexivity|]. split; reflexivity.
    - exists (MState (3 + length src' + length (f0 :: fl')) []
                [(2, f0 :: fl'); (1, c0 :: src')]).
      split; [|split; reflexivity].
      rewrite matcher_Opt, matcher_Grp.
      rewrite (plus_run false [CChar 105; CChar 109] _ []
                 (MState (3 + length src' + length (f0 :: fl')) []
                    [(2, f0 :: fl'); (1, c0 :: src')]) (f0 :: fl'));
        [ reflexivity
        | cbn [clearCaptures rest]; rewrite app_nil_r; reflexivity
        | discriminate
        | eapply Forall_impl; [exact Hfl|]; intros c Hc; apply isFlag_class, Hc
        | exact I
        | ].
      cbn [clearCaptures endIndex rest captures setCapture List.filter fst
           existsb Nat.eqb negb orb length].
      rewrite (proj2 (Nat.eqb_neq _ _)) by lia.
      cbn [groups app existsb Nat.eqb orb negb]. unfold setCapture, clearCaptures.
      cbn [endIndex rest captures List.filter fst existsb Nat.eqb negb orb].
      replace (S (2 + length src') + S (length fl') - S (2 + length src'))
        with (length (f0 :: fl')) by (cbn [length]; lia).
      rewrite firstn_all. reflexivity. }
  destruct Hz as [z [Hk [H1 H2]]]. exists z. split; [|split; assumption].
  apply (star_run_to_Dot k (47%N :: fl) z src' x2);
    [reflexivity | exact Hsrc' | | exact Hk].
  intros y Hy. cbn [x2 endIndex] in Hy.
  apply den_Plus_Dot_rest in Hy as [w Hw]. unfold k.
  unfold Chr. rewrite matcher_Cls. cbn [setCapture rest].
  destruct (rest y) as [|ch t] eqn:E; [reflexivity|].
  rewrite inClass_Chr_eq. cbn [posOf snd] in Hw. rewrite E in Hw.
  rewrite (flags_no_slash fl w ch t Hfl Hw). reflexivity.
Qed.

Lemma exec_rawPattern src fl :
  src <> [] ->
  Forall (fun c => isLineTerminator c = false) src ->
  Forall (fun c => isFlagChar c = true) fl ->
  exists y, exec rawPattern (47%N :: src ++ 47%N :: fl) = Some y
    /\ capture 1 y = Some src
    /\ capture 2 y = match fl with [] => None | _ :: _ => Some fl end.
Proof.
  intros Hne Hsrc Hfl.
  destruct (matchAt_rawPattern src fl Hne Hsrc) as [y [Hy Hc]].
  { eapply Forall_impl; [exact Hfl|]. intros c Hc. unfold isFlagChar in Hc.
    apply orb_true_iff in Hc as [Hc|Hc]; apply N.eqb_eq in Hc; auto. }
  exists y. split; [|exact Hc]. unfold exec.
  rewrite (search_hit _ _ _ _ Hy). reflexivity.
Qed.

Lemma iter_Dot : forall n p q,
  iter n (den Dot) p q ->
  exists w, consumes w p q /\ length w = n
            /\ Forall (fun c => isLineTerminator c = false) w.
Proof.
  induction n as [|n IH]; intros p q H; simpl in H.
  - subst q. exists []. split; [split; simpl; [done | lia]|]. split; [done | constructor].
  - destruct H as [m [[ch [H1 [H2 H3]]] H]].
    apply IH in H as [w [[Hw Hi] [Hn Hall]]].
    exists (ch :: w). split; [split|split].
    + rewrite H1, Hw. done.
    + rewrite Hi, H3. simpl. lia.
    + simpl. lia.
    + constructor; assumption.
Qed.

(** Whatever the pattern of the escape hatch accepts has the raw form. *)
Lemma den_rawPattern p q :
  den rawPattern (0, p) q -> exists src fl, rawForm p src fl.
Proof.
  unfold rawPattern. cbn [den].
  intros [m0 [[<- _] [m1 [[ch [H1 [Hch _]]] [m2 [H2 [m3 [[ch2 [H3 [Hch2 _]]]
            [m4 [[n [Hb H4]] [<- Heos]]]]]]]]]]].
  rewrite inClass_Chr_eq in Hch, Hch2.
  apply N.eqb_eq in Hch as ->. apply N.eqb_eq in Hch2 as ->.
  destruct H2 as [k [Hk H2]]. apply iter_Dot in H2 as [src [[Hs _] [Hl Hsrc]]].
  cbn [fst snd] in *.
  assert (Hfl : exists fl, snd m3 = fl /\ Forall (fun c => isFlagChar c = true) fl).
  { destruct n as [|[|n]]; simpl in Hb; [| |lia].
    - simpl in H4. subst m4. exists []. rewrite Heos. split; [done | constructor].
    - simpl in H4. destruct H4 as [m [H4 <-]].
      apply (den_Quant_class 1 None true false [CChar 105; CChar 109]) in H4
        as [fl [[Hf _] [_ Hall]]].
      exists fl. rewrite Hf, Heos, app_nil_r. split; [done|].
      eapply Forall_impl; [exact Hall|]. intros c Hc. unfold isFlagChar.
      unfold inClass in Hc. simpl in Hc. rewrite orb_false_r in Hc. exact Hc. }
  destruct Hfl as [fl [Hf Hfl]].
  exists src, fl. split; [|split; [|split]].
  - rewrite H1, Hs, H3, Hf. reflexivity.
  - simpl in Hk. destruct src; [simpl in Hl; lia | done].
  - exact Hsrc.
  - exact Hfl.
Qed.

Lemma exec_rawPattern_None p :
  (forall src fl, ~ rawForm p src fl) -> exec rawPattern p = None.
Proof.
  intros H. unfold exec. destruct (search rawPattern 0 p) as [[j y]|] eqn:E;
    [|reflexivity].
  exfalso. unfold rawPattern in E.
  destruct p as [|c p]; cbn [search] in E.
  - destruct (matchAt _ 0 []) eqn:Em; [|done].
    apply matchAt_sound, den_rawPattern in Em as [src [fl Hr]]. exact (H _ _ Hr).
  - destruct (matchAt _ 0 (c :: p)) eqn:Em.
    + apply matchAt_sound, den_rawPattern in Em as [src [fl Hr]]. exact (H _ _ Hr).
    + rewrite search_Bos in E. discriminate.
Qed.

(** A glob without wildcards matches itself and nothing else. *)
Lemma globMatch_literal : forall p s,
  isLiteralGlob p = true -> globMatch p s = bool_decide (s = p).
Proof.
  induction p as [|c p IH]; intros s Hp.
  - destruct s; reflexivity.
  - unfold isLiteralGlob in Hp. cbn [forallb] in Hp.
    apply andb_true_iff in Hp as [Hc Hp]. unfold isWildcard in Hc.
    apply negb_true_iff, orb_false_iff in Hc as [Hc1 Hc2].
    cbn [globMatch]. rewrite Hc1, Hc2.
    destruct s as [|d s]; [reflexivity|].
    rewrite (IH s Hp). destruct (d =? c)%N eqn:E.
    + apply N.eqb_eq in E as ->. cbn [andb].
      apply bool_decide_ext. split; [intros ->; reflexivity | intros [=]; assumption].
    + cbn [andb]. symmetry. apply bool_decide_eq_false. intros [= -> _].
      rewrite N.eqb_refl in E. discriminate.
Qed.

Lemma anyRun_spec k : forall s,
  anyRun k s = true <->
  exists m t, s = m ++ t /\ Forall (fun c => isLineTerminator c = false) m
              /\ k t = true.
Proof.
  induction s as [|c s IH]; cbn [anyRun].
  - rewrite orb_false_r. split.
    + intros H. exists [], []. repeat split; [constructor | exact H].
    + intros [m [t [Hs [_ Hk]]]]. symmetry in Hs.
      apply app_eq_nil in Hs as [_ ->]. exact Hk.
  - rewrite orb_true_iff, andb_true_iff, negb_true_iff, IH. split.
    + intros [H|[Hc [m [t [-> [Hm Hk]]]]]].
      * exists [], (c :: s). repeat split; [constructor | exact H].
      * exists (c :: m), t. repeat split; [constructor; assumption | exact Hk].
    + intros [[|d m] [t [Hs [Hm Hk]]]]; simpl in Hs.
      * subst t. left. exact Hk.
      * injection Hs as <- ->. inversion Hm; subst. right. split; [assumption|].
        exists m, t. auto.
Qed.

(** A glob with one wildcard between two literal parts. *)
Lemma globMatch_wildcard w b : forall a s,
  isWildcard w = true -> isLiteralGlob a = true -> isLiteralGlob b = true ->
  globMatch (a ++ w :: b) s = true <->
  exists m, s = a ++ m ++ b /\ Forall (fun c => isLineTerminator c = false) m
            /\ (w = 43%N -> m <> []).
Proof.
  intros a s Hw Ha Hb. revert s. induction a as [|c a IH]; intros s.
  - cbn [app globMatch]. unfold isWildcard in Hw.
    destruct (w =? 42)%N eqn:E.
    + apply N.eqb_eq in E as ->. rewrite anyRun_spec. split.
      * intros [m [t [-> [Hm Ht]]]]. rewrite globMatch_literal in Ht by exact Hb.
        apply bool_decide_eq_true in Ht as ->. exists m. repeat split; [exact Hm | done].
      * intros [m [-> [Hm _]]]. exists m, b. repeat split; [exact Hm|].
        rewrite globMatch_literal by exact Hb. apply bool_decide_eq_true. reflexivity.
    + cbn [orb] in Hw. rewrite Hw. apply N.eqb_eq in Hw as ->.
      destruct s as [|d s].
      * split; [discriminate|]. intros [m [Hs [_ Hne]]]. symmetry in Hs.
        apply app_eq_nil in Hs as [-> _]. exfalso. apply Hne; reflexivity.
      * rewrite andb_true_iff, negb_true_iff, anyRun_spec. split.
        -- intros [Hd [m [t [-> [Hm Ht]]]]].
           rewrite globMatch_literal in Ht by exact Hb.
           apply bool_decide_eq_true in Ht as ->. exists (d :: m).
           repeat split; [constructor; assumption | discriminate].
        -- intros [[|d' m] [Hs [Hm Hne]]]; [exfalso; apply Hne; reflexivity|].
           simpl in Hs. injection Hs as <- ->. inversion Hm; subst.
           split; [assumption|]. exists m, b. repeat split; [assumption|].
           rewrite globMatch_literal by exact Hb. apply bool_decide_eq_true.
           reflexivity.
  - unfold isLiteralGlob in Ha. cbn [forallb] in Ha.
    apply andb_true_iff in Ha as [Hc Ha]. unfold isWildcard in Hc.
    apply negb_true_iff, orb_false_iff in Hc as [Hc1 Hc2].
    cbn [app globMatch]. rewrite Hc1, Hc2. destruct s as [|d s].
    + split; [discriminate|]. intros [m [Hs _]]. discriminate.
    + rewrite andb_true_iff, N.eqb_eq, (IH Ha). split.
      * intros [-> [m [-> H]]]. exists m. split; [reflexivity | exact H].
      * intros [m [Hs H]]. simpl in Hs. injection Hs as -> ->. split; [reflexivity|].
        exists m. split; [reflexivity | exact H].
Qed.

(** A text of the raw form ends in a slash or in one of the letters i and
    m. *)
Lemma rawForm_last p src fl :
  rawForm p src fl ->
  (List.last p 0 =? 47)%N || isFlagChar (List.last p 0%N) = true.
Proof.
  intros [-> [_ [_ Hfl]]].
  change (47%N :: src ++ 47%N :: fl) with ((47%N :: src) ++ 47%N :: fl).
  generalize (47%N :: src). intros pre.
  destruct (@exists_last _ (47%N :: fl)) as [l [z E]]; [discriminate|].
  rewrite E, app_assoc, last_last.
  destruct l as [|l0 l]; simpl in E.
  - injection E as <-. reflexivity.
  - injection E as _ ->. apply Forall_app in Hfl as [_ Hz].
    inversion Hz as [|? ? Hz0 _]; subst. rewrite Hz0. apply orb_true_r.
Qed.

End HatchFacts.

(* ===================================================================== *)
(** ** Rendering a template with [templateObject] *)
(* ===================================================================== *)

Module RenderFacts.

Import Strings Spec.

Lemma joinValues_cons v tl :
  joinValues [] (v :: tl)
  = match elementToString v, joinValues [] tl with
    | Some a, Some b => Some (a ++ b)
    | _, _ => None
    end.
Proof.
  destruct tl as [|v2 tl]; [|reflexivity].
  cbn [joinValues]. destruct (elementToString v); [|reflexivity].
  rewrite app_nil_r. reflexivity.
Qed.

(** The text of what [templateObject] gives for a key, when the object is
    an object literal with string values, the fallback is a string, and the
    key is no name of a property of [Object.prototype]. *)
Lemma elementToString_templateObject (m : gmap jsstring jsstring) nv k :
  inheritsNothing k = true ->
  elementToString (templateObject (objectLiteral (VStr <$> m)) (VStr <$> nv) k)
  = Some (resolveText m nv k).
Proof.
  unfold inheritsNothing, templateObject, getProperty, resolveText. intros Hk.
  cbn [objectLiteral own inherited]. rewrite lookup_fmap.
  destruct (m !! k) as [[|c v]|]; cbn [fmap option_fmap option_map truthy].
  - destruct nv; reflexivity.
  - reflexivity.
  - destruct (objectPrototype !! k); [discriminate|]. destruct nv; reflexivity.
Qed.

Lemma joinValues_segments (m : gmap jsstring jsstring) nv : forall segs,
  Forall (fun seg => inheritsNothing (fst seg) = true) segs ->
  joinValues []
    (resolvedSegments (templateObject (objectLiteral (VStr <$> m)) (VStr <$> nv)) segs)
  = Some (substitute m nv segs).
Proof.
  induction 1 as [|[k l] tl Hk _ IH]; [reflexivity|].
  cbn [resolvedSegments substitute].
  rewrite joinValues_cons, elementToString_templateObject by exact Hk.
  rewrite joinValues_cons, IH. reflexivity.
Qed.

Lemma callTemplate_segments d : forall segs,
  callTemplate (templateItems segs) d = resolvedSegments d segs.
Proof.
  induction segs as [|[k l] tl IH]; [reflexivity|].
  cbn [templateItems resolvedSegments]. rewrite <- IH. reflexivity.
Qed.

End RenderFacts.

(* ===================================================================== *)
(** ** The code generation of [template] *)
(* ===================================================================== *)

Module GenerationFacts.

Import Strings Spec RegExpFacts SearchFacts WordsFacts KebabFacts FuelFacts
       TemplateFacts.

(** Both groups of the placeholder pattern take part in every match. *)
Lemma placeholder_captures q s y :
  matchAt placeholder q s = Some y ->
  is_Some (capture 1 y) /\ is_Some (capture 2 y).
Proof.
  unfold matchAt, placeholder. set (x0 := MState q s []).
  rewrite matcher_Grp, matcher_Seq. unfold Chr at 1. rewrite matcher_Cls.
  destruct (rest x0) as [|c0 t0]; [discriminate|].
  destruct (inClass false [CChar 36] c0); [|discriminate].
  rewrite matcher_Seq. unfold Chr at 1. rewrite matcher_Cls.
  destruct (rest (advance x0)) as [|c1 t1]; [discriminate|].
  destruct (inClass false [CChar 123] c1); [|discriminate].
  rewrite matcher_Seq, matcher_Grp. intros H.
  apply matcher_sound in H as [y2 [_ H]].
  unfold Chr in H. rewrite matcher_Cls in H.
  destruct (rest (setCapture 2 (advance (advance x0)) y2)) as [|c2 t2]; [discriminate|].
  destruct (inClass false [CChar 125] c2); [|discriminate].
  injection H as <-. split; eexists; reflexivity.
Qed.

Lemma splitLoop_Some : forall fuel p q lit s,
  Forall is_Some (splitLoop fuel placeholder 2 p q lit s).
Proof.
  induction fuel as [|fuel IH]; intros p q lit s; cbn [splitLoop]; [constructor|].
  destruct s as [|ch s']; [repeat constructor; eexists; reflexivity|].
  destruct (matchAt placeholder q (ch :: s')) as [y|] eqn:E; [|apply IH].
  destruct (Nat.eqb (endIndex y) p); [apply IH|].
  destruct (placeholder_captures _ _ _ E) as [H1 H2].
  constructor; [eexists; reflexivity|].
  cbn [seq map app]. constructor; [exact H1|]. constructor; [exact H2|]. apply IH.
Qed.

Lemma split_Some tpl : Forall is_Some (split placeholder tpl).
Proof.
  unfold split. destruct tpl as [|c t].
  - destruct (matchAt placeholder 0 []); [constructor|].
    repeat constructor. eexists; reflexivity.
  - apply splitLoop_Some.
Qed.

(** The loop of [template] meets no undefined piece. *)
Lemma templateLoop_Ok : forall n l,
  length l <= n -> Forall is_Some l -> exists fn, templateLoop l = Ok fn.
Proof.
  induction n as [|n IH]; intros l Hn Hl.
  - destruct l; [eexists; reflexivity | simpl in Hn; lia].
  - destruct l as [|[piece|] tl]; [eexists; reflexivity | |].
    + inversion Hl as [|? ? _ Htl]; subst. cbn [templateLoop].
      destruct (startsWithDollar piece).
      * destruct tl as [|next tl']; [eexists; reflexivity|].
        inversion Htl as [|? ? _ Htl']; subst.
        destruct (IH tl') as [fn ->]; [simpl in Hn; lia | exact Htl' |].
        eexists; reflexivity.
      * destruct (IH tl) as [fn ->]; [simpl in Hn; lia | exact Htl |].
        eexists; reflexivity.
    + inversion Hl as [|? ? [? Hx] _]; subst. discriminate.
Qed.

Lemma templateSource_Ok tpl :
  exists fn, templateSource tpl = Ok (js "return [" ++ fn ++ js "]").
Proof.
  unfold templateSource.
  destruct (templateLoop_Ok _ _ (Nat.le_refl _) (split_Some tpl)) as [fn ->].
  exists fn. reflexivity.
Qed.

(** A text without a dollar sign is one piece. *)
Lemma splitLoop_no_dollar : forall s fuel p q lit,
  Forall (fun c => c <> 36%N) s -> length s < fuel ->
  splitLoop fuel placeholder 2 p q lit s = [Some (lit ++ s)].
Proof.
  induction s as [|c s IH]; intros fuel p q lit Hs Hf;
    (destruct fuel as [|fuel]; [lia|]); cbn [splitLoop].
  - rewrite app_nil_r. reflexivity.
  - inversion Hs as [|? ? Hc Hs']; subst.
    rewrite matchAt_placeholder_miss by exact Hc.
    rewrite IH by (exact Hs' || (cbn [length] in Hf; lia)).
    rewrite <- app_assoc. reflexivity.
Qed.

Lemma split_no_dollar s :
  Forall (fun c => c <> 36%N) s -> split placeholder s = [Some s].
Proof.
  intros Hs. unfold split. destruct s as [|c t]; [reflexivity|].
  change (length (groups placeholder)) with 2.
  rewrite splitLoop_no_dollar; [reflexivity | exact Hs | lia].
Qed.

Lemma replaceFirst_quote a b :
  Forall (fun d => d <> 34%N) a ->
  replaceFirst [34%N] [92%N; 34%N] (a ++ 34%N :: b) = a ++ 92%N :: 34%N :: b.
Proof.
  induction 1 as [|c a Hc _ IH]; [cbn; rewrite drop_0; reflexivity|].
  cbn [app replaceFirst startsWith].
  replace (34 =? c)%N with false by (symmetry; apply N.eqb_neq; congruence).
  cbn [andb]. rewrite IH. reflexivity.
Qed.

Lemma stringLiteral_app q rest' : forall s,
  Forall (fun c => c <> q /\ c <> 92%N /\ isLineTerminator c = false) s ->
  stringLiteral q (s ++ rest')
  = match stringLiteral q rest' with
    | Some (lit, after) => Some (s ++ lit, after)
    | None => None
    end.
Proof.
  induction s as [|c s IH]; intros H; cbn [app stringLiteral].
  - destruct (stringLiteral q rest') as [[? ?]|]; reflexivity.
  - inversion H as [|? ? [H1 [H2 H3]] Hs]; subst.
    apply N.eqb_neq in H1, H2. rewrite H1, H2, H3, (IH Hs).
    destruct (stringLiteral q rest') as [[? ?]|]; reflexivity.
Qed.

Lemma literal_plain l :
  Forall (fun c => isLiteralChar c = true) l ->
  Forall (fun c => c <> 34%N /\ c <> 92%N /\ isLineTerminator c = false) l.
Proof.
  intros Hl. eapply Forall_impl; [exact Hl|].
  intros d Hd. destruct (literalChar_facts _ Hd) as [_ [H1 [H2 [_ H3]]]]. auto.
Qed.

Lemma arrayElements_string fuel s lit after :
  stringLiteral 34 s = Some (lit, 44%N :: after) ->
  arrayElements (S fuel) (34%N :: s) = cons (Lit lit) <$> arrayElements fuel after.
Proof.
  intros H. cbn [arrayElements]. change (34 =? 93)%N with false.
  change (34 =? 34)%N with true. cbv iota. rewrite H. reflexivity.
Qed.

(** One double quote in a text without placeholders comes through. *)
Lemma templateProgram_quote a b :
  Forall (fun c => isLiteralChar c = true) a ->
  Forall (fun c => isLiteralChar c = true) b ->
  templateProgram (a ++ 34%N :: b) = Ok (Some [Lit (a ++ 34%N :: b)]).
Proof.
  intros Ha Hb. unfold templateProgram, templateSource.
  rewrite split_no_dollar.
  2:{ apply Forall_app. split; [|constructor; [discriminate|]];
        (eapply Forall_impl; [eassumption|]); intros c Hc;
        apply (literalChar_facts _ Hc). }
  assert (Hd : startsWithDollar (a ++ 34%N :: b) = false).
  { destruct a as [|c a]; [reflexivity|]. inversion Ha as [|? ? Hc _]; subst.
    apply N.eqb_neq, (literalChar_facts _ Hc). }
  rewrite templateLoop_literal by exact Hd.
  rewrite replaceFirst_quote by (apply literal_no_quote, Ha).
  cbn [templateLoop bind]. f_equal. unfold functionBody.
  rewrite app_nil_r, <- !app_assoc.
  set (s := a ++ 92%N :: 34%N :: b ++ [34%N; 44%N; 93%N]).
  change (js "return [" ++ [34%N] ++ a ++ (92%N :: 34%N :: b) ++ [34%N; 44%N] ++ js "]")
    with (js "return [" ++ 34%N :: s).
  change (startsWith (js "return [") (js "return [" ++ 34%N :: s)) with true.
  cbv iota.
  change (skipn 8 (js "return [" ++ 34%N :: s)) with (34%N :: s).
  change (length (js "return [" ++ 34%N :: s)) with (S (8 + length s)).
  rewrite (arrayElements_string _ s (a ++ 34%N :: b) [93%N]); [reflexivity|].
  unfold s. rewrite stringLiteral_app by apply literal_plain, Ha.
  cbn [app stringLiteral]. change (92 =? 34)%N with false.
  change (92 =? 92)%N with true. cbv iota. change (escapeValue 34) with (Some 34%N).
  cbv iota.
  change (b ++ [34%N; 44%N; 93%N]) with (b ++ 34%N :: [44%N; 93%N]).
  rewrite stringLiteral_plain by apply literal_plain, Hb. reflexivity.
Qed.

End GenerationFacts.

(* ===================================================================== *)
(** ** The properties of the specification *)
(* ===================================================================== *)

Import Strings Spec.

(** C1: the template [Hello ${ name }!] compiles to the literal [Hello ],
    the call of the resolver and the literal [!]; the key of the call is
    what stands between the braces, blanks included, so the resolver of
    [templateObject({name: Bob})] finds nothing and the joined result is
    [Hello !].  Without the blanks the result is [Hello Bob!]. *)
Theorem C1_template_blank_key :
  templateProgram (js "Hello ${ name }!")
  = Ok (Some [Lit (js "Hello "); Call (js " name "); Lit (js "!")])
  /\ (exists f,
        template (js "Hello ${ name }!") = Ok (Some f)
        /\ f (templateObject (objectLiteral {[ js "name" := VStr (js "Bob") ]})
                None)
           = [VStr (js "Hello "); VUndefined; VStr (js "!")]
        /\ joinValues []
             (f (templateObject (objectLiteral {[ js "name" := VStr (js "Bob") ]}) None))
           = Some (js "Hello !"))
  /\ (exists f,
        template (js "Hello ${name}!") = Ok (Some f)
        /\ joinValues []
             (f (templateObject (objectLiteral {[ js "name" := VStr (js "Bob") ]}) None))
           = Some (js "Hello Bob!")).
Proof.
  split; [vm_compute; reflexivity|].
  split; eexists; (split; [vm_compute; reflexivity|]);
    repeat split; vm_compute; reflexivity.
Qed.

(** C2: the extended matcher splits [XMLHttpRequest] into [XML], [Http],
    [Request] and [foo2bar] into [foo], [2], [bar]: a run of capitals is cut
    before a capitalized word, and digits are cut from the letters around
    them. *)
Theorem C2_words_acronym_and_digits :
  test hasUnicodeWord (js "XMLHttpRequest") = true
  /\ words (ArgStr (js "XMLHttpRequest")) = [js "XML"; js "Http"; js "Request"]
  /\ test hasUnicodeWord (js "foo2bar") = true
  /\ words (ArgStr (js "foo2bar")) = [js "foo"; js "2"; js "bar"].
Proof. repeat split; vm_compute; reflexivity. Qed.

(** C3: a literal piece does not always pass through unchanged.  The
    three code units [a], backslash, [b] compile to a literal of two code
    units, [a] and the backspace character; the literal [$5] is taken for
    a placeholder and compiles to a call of the resolver with the key
    [undefined].  The pieces come back in order, with the empty literal
    between two adjacent placeholders. *)
Theorem C3_template_literal_changed :
  (forall d, exists f,
     template (js "a\b") = Ok (Some f) /\ f d = [VStr [97%N; 8%N]])
  /\ (forall d, exists f,
        template (js "$5") = Ok (Some f) /\ f d = [d (js "undefined")])
  /\ (forall d, exists f,
        template (js "a${x}${y}b") = Ok (Some f)
        /\ f d = [VStr (js "a"); d (js "x"); VStr []; d (js "y"); VStr (js "b")]).
Proof.
  repeat split; intros d; eexists; (split; [vm_compute; reflexivity|]);
    reflexivity.
Qed.

(** C4: [camelCase] puts every token in lower case, keeps the token at
    index 0 as it is, capitalizes the first character of every later token
    and joins the tokens with nothing between them; [foo_bar] becomes
    [fooBar] and [foo-bar-baz] becomes [fooBarBaz]. *)
Theorem C4_camelCase_tokens (unicodeLower unicodeUpper : jsstring -> jsstring) :
  (forall s, camelCase unicodeLower unicodeUpper s
             = Ok (camelText (words (ArgStr s))))
  /\ camelCase unicodeLower unicodeUpper (js "foo_bar") = Ok (js "fooBar")
  /\ camelCase unicodeLower unicodeUpper (js "foo-bar-baz") = Ok (js "fooBarBaz").
Proof.
  split; [apply CaseFacts.camelCase_camelText|].
  split; rewrite CaseFacts.camelCase_camelText; vm_compute; reflexivity.
Qed.

(** C5: for a glob that is no raw pattern, [wildcardToRegExp] escapes the
    metacharacters, then puts [.*?] for every [*] and [.+?] for every [+],
    and encloses the result in [^] and [$]; the pattern so built tests the
    whole string ([globMatch]).  [hel*o] matches [hello], [helzzzzo] and
    [helo] and does not match [xhello]. *)
Theorem C5_wildcard_glob :
  (forall p flags,
     exec rawPattern p = None ->
     wildcardToRegExp p flags = NewRegExp (globSource p) flags
     /\ compile (globSource p) = Some (globPattern p)
     /\ forall s, regExpTest (wildcardToRegExp p None) s = Some (globMatch p s))
  /\ exec rawPattern (js "hel*o") = None
  /\ wildcardToRegExp (js "hel*o") None = NewRegExp (js "^hel.*?o$") None
  /\ regExpTest (wildcardToRegExp (js "hel*o") None) (js "hello") = Some true
  /\ regExpTest (wildcardToRegExp (js "hel*o") None) (js "helzzzzo") = Some true
  /\ regExpTest (wildcardToRegExp (js "hel*o") None) (js "helo") = Some true
  /\ regExpTest (wildcardToRegExp (js "hel*o") None) (js "xhello") = Some false.
Proof.
  split.
  - intros p flags H. split; [|split].
    + apply GlobFacts.wildcardToRegExp_glob, H.
    + apply GlobFacts.compile_glob.
    + intros s. apply GlobFacts.regExpTest_glob, H.
  - repeat split; vm_compute; reflexivity.
Qed.

Lemma C5_wildcard_glob_witness :
  exec rawPattern (js "a.b+") = None
  /\ wildcardToRegExp (js "a.b+") (Some (js "i"))
     = NewRegExp (js "^a\.b.+?$") (Some (js "i"))
  /\ regExpTest (wildcardToRegExp (js "a.b+") None) (js "a.bcd") = Some true
  /\ regExpTest (wildcardToRegExp (js "a.b+") None) (js "axbcd") = Some false.
Proof.
  assert (H : exec rawPattern (js "a.b+") = None) by reflexivity.
  destruct (proj1 C5_wildcard_glob (js "a.b+") (Some (js "i")) H) as [H1 [_ H3]].
  split; [exact H|]. split; [rewrite H1; reflexivity|].
  split; rewrite H3; reflexivity.
Defined.

(** C6: [words] answers an absent input, [null], the empty string and any
    string without a word-forming code unit with the empty sequence; it
    never throws.  Word-forming are the letters of U+0000..U+00FF and the
    digits; in particular a string of nothing but the separators of the
    ASCII matcher has no token. *)
Theorem C6_words_absent_or_wordless :
  words ArgUndefined = []
  /\ words ArgNull = []
  /\ words (ArgStr []) = []
  /\ (forall s, Forall (fun c => isWordChar c = false) s -> words (ArgStr s) = [])
  /\ (forall s, Forall (fun c => inClass false asciiSeparators c = true) s ->
                words (ArgStr s) = []).
Proof.
  repeat split; try reflexivity.
  - apply CaseFacts.words_no_wordChar.
  - intros s H. apply CaseFacts.words_no_wordChar.
    eapply Forall_impl; [exact H|]. intros c Hc.
    destruct (isWordChar c) eqn:E; [|reflexivity]. exfalso.
    WordsFacts.class_arith.
Qed.



(** C8: on a string in hyphen-separated lowercase word form [kebabCase]
    returns the string itself, so applying it twice gives what applying it
    once gives; on every string [kebabCase] puts each token in lower case
    (every capital of U+0000..U+00FF moved to its small letter by [lower1],
    whatever the case table beyond that range) and joins the tokens with
    hyphens. *)
Theorem C8_kebabCase_idempotent (unicodeLower : jsstring -> jsstring) (s : jsstring) :
  isKebabForm s = true ->
  kebabCase unicodeLower s = Ok s
  /\ bind (kebabCase unicodeLower s) (kebabCase unicodeLower)
     = kebabCase unicodeLower s
  /\ forall s',
       kebabCase unicodeLower s'
       = Ok (join (js "-")
               (map (fun w => Some (map lower1 w)) (words (ArgStr s')))).
Proof.
  intros H. split; [|split].
  - apply KebabFacts.kebabCase_kebabForm, H.
  - apply IdempotenceFacts.kebabCase_idempotent.
  - intros s'. apply KebabFacts.kebabCase_tokens.
Qed.

Lemma C8_kebabCase_idempotent_witness :
  isKebabForm (js "foo-bar-2") = true
  /\ kebabCase (fun s => s) (js "foo-bar-2") = Ok (js "foo-bar-2")
  /\ bind (kebabCase (fun s => s) (js "foo-bar-2")) (kebabCase (fun s => s))
     = kebabCase (fun s => s) (js "foo-bar-2")
  /\ kebabCase (fun s => s) (js "fooBar XMLHttp2") = Ok (js "foo-bar-xml-http-2").
Proof.
  assert (H : isKebabForm (js "foo-bar-2") = true) by reflexivity.
  destruct (C8_kebabCase_idempotent (fun s => s) (js "foo-bar-2") H) as [H1 [H2 H3]].
  split; [exact H|]. split; [exact H1|]. split; [exact H2|].
  rewrite (H3 (js "fooBar XMLHttp2")). vm_compute. reflexivity.
Defined.

(** C9: on a non-empty string [capitalize] puts the first code unit in
    upper case and leaves the others as they are; on the empty string it
    throws, reading a character that is not there; it throws on no other
    string. *)
Theorem C9_capitalize_first_only (unicodeUpper : jsstring -> jsstring) :
  (forall c tl, capitalize unicodeUpper (c :: tl)
                = Ok (toUpperCase unicodeUpper [c] ++ tl))
  /\ capitalize unicodeUpper [] = Throw TypeError
  /\ (forall s e, capitalize unicodeUpper s = Throw e <-> s = [] /\ e = TypeError).
Proof.
  repeat split.
  - destruct s; [reflexivity | discriminate].
  - destruct s; simpl in *; congruence.
  - intros [-> ->]. reflexivity.
Qed.

(** C10: every token that [words] returns is a non-empty string, so the
    call of [capitalize] inside [camelCase] is never on the empty string
    and [camelCase] never throws. *)
Theorem C10_tokens_nonempty (unicodeLower unicodeUpper : jsstring -> jsstring) :
  (forall str, Forall (fun w => w <> []) (words str))
  /\ (forall str w, w ∈ words str ->
        lowerCase unicodeLower w <> []
        /\ exists r, capitalize unicodeUpper (lowerCase unicodeLower w) = Ok r)
  /\ (forall s, exists r, camelCase unicodeLower unicodeUpper s = Ok r).
Proof.
  split; [|split].
  - intros str. eapply Forall_impl; [apply WordsFacts.words_wellFormed|].
    intros w [H _]. exact H.
  - intros str w Hin.
    pose proof (WordsFacts.words_wellFormed str) as H.
    rewrite Forall_forall in H. specialize (H w Hin). split.
    + rewrite CaseFacts.lowerCase_token by done.
      destruct H as [Hne _]. destruct w; [done | discriminate].
    + rewrite CaseFacts.capitalize_lower_token by done. eauto.
  - intros s. rewrite CaseFacts.camelCase_camelText. eauto.
Qed.

(* ===================================================================== *)
(** ** Further properties *)
(* ===================================================================== *)

(** [kebabCase] is idempotent on every string, not only on those in kebab
    form. *)
Theorem kebabCase_idempotent_everywhere (unicodeLower : jsstring -> jsstring) :
  forall s, bind (kebabCase unicodeLower s) (kebabCase unicodeLower)
            = kebabCase unicodeLower s.
Proof. apply IdempotenceFacts.kebabCase_idempotent. Qed.

(** The array that a compiled template returns has one element for each
    element of its program, whatever the resolver. *)
Theorem callTemplate_length prog (d d' : jsstring -> jsval) :
  length (callTemplate prog d) = length (callTemplate prog d').
Proof. unfold callTemplate. rewrite !length_map. reflexivity. Qed.

(** A template of plain literals and plain keys (see [isLiteralChar] and
    [isKeyChar]) returns its segments in order: every literal as it is,
    the empty ones included, and the value of the resolver for every
    key. *)
Theorem template_plain_segments lit segs :
  forallb isLiteralChar lit = true ->
  forallb isPlainSegment segs = true ->
  exists f,
    template (lit ++ templateText segs) = Ok (Some f)
    /\ forall d, f d = VStr lit :: resolvedSegments d segs.
Proof.
  intros Hlit Hsegs.
  apply KebabFacts.forallb_Forall in Hlit. apply KebabFacts.forallb_Forall in Hsegs.
  unfold template. rewrite TemplateFacts.templateProgram_template by assumption.
  eexists. split; [reflexivity|]. intros d. cbn [callTemplate map]. f_equal.
  clear. induction segs as [|[k l] tl IH]; [reflexivity|].
  cbn [templateItems map resolvedSegments]. rewrite IH. reflexivity.
Qed.

Lemma template_plain_segments_witness :
  exists f,
    template (js "Dear ${title}${name}, see ${ref}.") = Ok (Some f)
    /\ forall d, f d = [VStr (js "Dear "); d (js "title"); VStr []; d (js "name");
                        VStr (js ", see "); d (js "ref"); VStr (js ".")].
Proof.
  exact (template_plain_segments (js "Dear ")
           [(js "title", []); (js "name", js ", see "); (js "ref", js ".")]
           eq_refl eq_refl).
Defined.

(** [snakeCase] is idempotent on every string. *)
Theorem snakeCase_idempotent (unicodeLower : jsstring -> jsstring) :
  forall s, bind (snakeCase unicodeLower s) (snakeCase unicodeLower)
            = snakeCase unicodeLower s.
Proof.
  intros s. apply (SeparatorFacts.caseStr_caseStr unicodeLower 95 95). reflexivity.
Qed.

(** Converting between kebab case and snake case loses nothing: the snake
    case of the kebab case of a string is the snake case of the string,
    and the other way round. *)
Theorem kebabCase_snakeCase_interchange (unicodeLower : jsstring -> jsstring) :
  forall s,
    bind (kebabCase unicodeLower s) (snakeCase unicodeLower)
    = snakeCase unicodeLower s
    /\ bind (snakeCase unicodeLower s) (kebabCase unicodeLower)
       = kebabCase unicodeLower s.
Proof.
  intros s. split.
  - apply (SeparatorFacts.caseStr_caseStr unicodeLower 45 95). reflexivity.
  - apply (SeparatorFacts.caseStr_caseStr unicodeLower 95 45). reflexivity.
Qed.

(** The camel case of a string can be taken from its kebab case or from
    its snake case as well as from the string. *)
Theorem camelCase_after_caseStr (unicodeLower unicodeUpper : jsstring -> jsstring) :
  forall s,
    bind (kebabCase unicodeLower s) (camelCase unicodeLower unicodeUpper)
    = camelCase unicodeLower unicodeUpper s
    /\ bind (snakeCase unicodeLower s) (camelCase unicodeLower unicodeUpper)
       = camelCase unicodeLower unicodeUpper s.
Proof.
  intros s. split.
  - apply (SeparatorFacts.camelCase_caseStr unicodeLower unicodeUpper 45). reflexivity.
  - apply (SeparatorFacts.camelCase_caseStr unicodeLower unicodeUpper 95). reflexivity.
Qed.

(** [kebabCase] and [snakeCase] never throw, and the tokens of their
    result are the tokens of the input in lower case: no token is lost,
    merged or split by the conversion. *)
Theorem caseStr_keeps_tokens (unicodeLower : jsstring -> jsstring) :
  forall s,
    (exists r, kebabCase unicodeLower s = Ok r
               /\ words (ArgStr r) = map (map lower1) (words (ArgStr s)))
    /\ (exists r, snakeCase unicodeLower s = Ok r
                  /\ words (ArgStr r) = map (map lower1) (words (ArgStr s))).
Proof.
  intros s. split; eexists; (split; [apply SeparatorFacts.caseStr_tokens|]).
  - apply (SeparatorFacts.words_joined 45);
      [reflexivity | apply SeparatorFacts.lowerWords_kebab].
  - apply (SeparatorFacts.words_joined 95);
      [reflexivity | apply SeparatorFacts.lowerWords_kebab].
Qed.

(** The result of [kebabCase] is in kebab form for every input: lowercase
    words or numbers with single hyphens between them, or the empty
    string. *)
Theorem kebabCase_kebab_form (unicodeLower : jsstring -> jsstring) :
  forall s, exists r, kebabCase unicodeLower s = Ok r /\ isKebabForm r = true.
Proof.
  intros s. eexists. split; [apply SeparatorFacts.caseStr_tokens|].
  apply SeparatorFacts.joined_kebabForm, SeparatorFacts.lowerWords_kebab.
Qed.

(** [words] drops the code units that are no letters or digits of
    U+0000..U+00FF and nothing else: the tokens side by side are the
    letters and digits of the input, in their order. *)
Theorem words_keeps_letters_and_digits :
  forall s, concat (words (ArgStr s)) = List.filter isWordChar s.
Proof. apply TokenFacts.words_concat. Qed.

(** No token of [words] holds a letter and a digit: a token is made of
    letters only or of digits only. *)
Theorem words_token_letters_or_digits :
  forall str,
    Forall (fun w => forallb isLetter w || forallb isDigit w = true) (words str).
Proof. apply TokenFacts.words_letters_or_digits. Qed.

(** Rendering: the segments that a template of plain literals and plain
    keys returns for the resolver [templateObject] of an object literal
    with string values, joined with the empty string, are the template
    text with every placeholder replaced by what its key stands for (the
    value, or the fallback for a missing key or an empty value), as long as
    no key is the name of a property of [Object.prototype]. *)
Theorem template_render lit segs :
  forallb isLiteralChar lit = true ->
  forallb isPlainSegment segs = true ->
  forallb (fun seg => inheritsNothing (fst seg)) segs = true ->
  exists f,
    template (lit ++ templateText segs) = Ok (Some f)
    /\ forall (m : gmap jsstring jsstring) (nv : option jsstring),
         joinValues []
           (f (templateObject (objectLiteral (VStr <$> m)) (VStr <$> nv)))
         = Some (lit ++ substitute m nv segs).
Proof.
  intros Hlit Hsegs Hkeys.
  apply KebabFacts.forallb_Forall in Hlit. apply KebabFacts.forallb_Forall in Hsegs.
  apply KebabFacts.forallb_Forall in Hkeys.
  unfold template. rewrite TemplateFacts.templateProgram_template by assumption.
  eexists. split; [reflexivity|]. intros m nv.
  cbn [callTemplate map]. rewrite RenderFacts.joinValues_cons.
  change (map _ (templateItems segs))
    with (callTemplate (templateItems segs)
            (templateObject (objectLiteral (VStr <$> m)) (VStr <$> nv))).
  rewrite RenderFacts.callTemplate_segments, RenderFacts.joinValues_segments
    by exact Hkeys.
  reflexivity.
Qed.

Lemma template_render_witness :
  exists f,
    template (js "Hello ${name}, ${greeting}!") = Ok (Some f)
    /\ forall (m : gmap jsstring jsstring) (nv : option jsstring),
         joinValues []
           (f (templateObject (objectLiteral (VStr <$> m)) (VStr <$> nv)))
         = Some (js "Hello "
                 ++ substitute m nv [(js "name", js ", "); (js "greeting", js "!")]).
Proof.
  exact (template_render (js "Hello ")
           [(js "name", js ", "); (js "greeting", js "!")] eq_refl eq_refl eq_refl).
Defined.

(** The escape hatch: a pattern that is a non-empty source without line
    terminators between two slashes, with letters i and m after the second
    slash or nothing, gives a RegExp of that very source; its flags are the
    letters after the slash, and the [flags] argument when there are
    none. *)
Theorem wildcardToRegExp_raw src fl flags :
  src <> [] ->
  forallb (fun c => negb (isLineTerminator c)) src = true ->
  forallb isFlagChar fl = true ->
  wildcardToRegExp (js "/" ++ src ++ js "/" ++ fl) flags
  = NewRegExp src (match fl with [] => flags | _ :: _ => Some fl end).
Proof.
  intros Hne Hsrc Hfl.
  apply KebabFacts.forallb_Forall in Hsrc. apply KebabFacts.forallb_Forall in Hfl.
  destruct (HatchFacts.exec_rawPattern src fl Hne) as [y [Hy [H1 H2]]];
    [eapply Forall_impl; [exact Hsrc|]; intros c Hc; simpl in Hc;
     apply negb_true_iff, Hc | exact Hfl |].
  unfold wildcardToRegExp. change (js "/" ++ src ++ js "/" ++ fl)
    with (47%N :: src ++ 47%N :: fl).
  rewrite Hy, H1, H2. destruct fl; reflexivity.
Qed.

Lemma wildcardToRegExp_raw_witness :
  wildcardToRegExp (js "/^ab+c$/i") (Some (js "m")) = NewRegExp (js "^ab+c$") (Some (js "i"))
  /\ wildcardToRegExp (js "/a/b/") (Some (js "m")) = NewRegExp (js "a/b") (Some (js "m")).
Proof.
  split.
  - exact (wildcardToRegExp_raw (js "^ab+c$") (js "i") (Some (js "m"))
             ltac:(discriminate) eq_refl eq_refl).
  - exact (wildcardToRegExp_raw (js "a/b") [] (Some (js "m"))
             ltac:(discriminate) eq_refl eq_refl).
Defined.

(** Every other pattern is a glob, whatever it looks like: the pattern is
    escaped, anchored and matched against the whole string.  A pattern
    between slashes with a flag other than i and m is such a glob. *)
Theorem wildcardToRegExp_glob_unless_raw p :
  (forall src fl, ~ rawForm p src fl) ->
  forall flags,
    wildcardToRegExp p flags = NewRegExp (globSource p) flags
    /\ forall s, regExpTest (wildcardToRegExp p None) s = Some (globMatch p s).
Proof.
  intros H flags. apply HatchFacts.exec_rawPattern_None in H. split.
  - apply GlobFacts.wildcardToRegExp_glob, H.
  - intros s. apply GlobFacts.regExpTest_glob, H.
Qed.

Lemma wildcardToRegExp_glob_unless_raw_witness :
  wildcardToRegExp (js "/abc/g") (Some (js "i"))
  = NewRegExp (js "^\/abc\/g$") (Some (js "i"))
  /\ regExpTest (wildcardToRegExp (js "/abc/g") None) (js "/abc/g") = Some true
  /\ regExpTest (wildcardToRegExp (js "/abc/g") None) (js "abc") = Some false.
Proof.
  assert (H : forall src fl, ~ rawForm (js "/abc/g") src fl).
  { intros src fl Hr. apply HatchFacts.rawForm_last in Hr. discriminate Hr. }
  split; [|split].
  - exact (proj1 (wildcardToRegExp_glob_unless_raw (js "/abc/g") H (Some (js "i")))).
  - exact (proj2 (wildcardToRegExp_glob_unless_raw (js "/abc/g") H None) (js "/abc/g")).
  - exact (proj2 (wildcardToRegExp_glob_unless_raw (js "/abc/g") H None) (js "abc")).
Defined.

(** A glob without [*] and [+] matches itself and no other string: the
    characters that mean something in a pattern stand for themselves. *)
Theorem wildcardToRegExp_literal p s :
  (forall src fl, ~ rawForm p src fl) ->
  isLiteralGlob p = true ->
  regExpTest (wildcardToRegExp p None) s = Some (bool_decide (s = p)).
Proof.
  intros H Hp. apply HatchFacts.exec_rawPattern_None in H.
  rewrite GlobFacts.regExpTest_glob by exact H.
  rewrite HatchFacts.globMatch_literal by exact Hp. reflexivity.
Qed.

Lemma wildcardToRegExp_literal_witness :
  regExpTest (wildcardToRegExp (js "a.b(c)") None) (js "a.b(c)") = Some true
  /\ regExpTest (wildcardToRegExp (js "a.b(c)") None) (js "axb(c)") = Some false.
Proof.
  assert (H : forall src fl, ~ rawForm (js "a.b(c)") src fl).
  { intros src fl [Hr _]. discriminate Hr. }
  split.
  - exact (wildcardToRegExp_literal (js "a.b(c)") (js "a.b(c)") H eq_refl).
  - exact (wildcardToRegExp_literal (js "a.b(c)") (js "axb(c)") H eq_refl).
Defined.

(** A glob with one wildcard between two parts without wildcards matches
    the strings that begin with the first part and end with the second,
    with a run of code units in between that holds no line terminator; for
    [+] the run is not empty. *)
Theorem wildcardToRegExp_one_wildcard a w b s :
  (forall src fl, ~ rawForm (a ++ w :: b) src fl) ->
  isWildcard w = true ->
  isLiteralGlob a = true ->
  isLiteralGlob b = true ->
  exists r,
    regExpTest (wildcardToRegExp (a ++ w :: b) None) s = Some r
    /\ (r = true <->
        exists m, s = a ++ m ++ b
                  /\ Forall (fun c => isLineTerminator c = false) m
                  /\ (w = 43%N -> m <> [])).
Proof.
  intros H Hw Ha Hb. apply HatchFacts.exec_rawPattern_None in H.
  eexists. split; [apply GlobFacts.regExpTest_glob, H|].
  apply HatchFacts.globMatch_wildcard; assumption.
Qed.

Lemma wildcardToRegExp_one_wildcard_witness :
  exists r,
    regExpTest (wildcardToRegExp (js "img-+.png") None) (js "img-001.png") = Some r
    /\ (r = true <->
        exists m, js "img-001.png" = js "img-" ++ m ++ js ".png"
                  /\ Forall (fun c => isLineTerminator c = false) m
                  /\ (43%N = 43%N -> m <> [])).
Proof.
  refine (wildcardToRegExp_one_wildcard (js "img-") 43 (js ".png") (js "img-001.png")
            _ eq_refl eq_refl eq_refl).
  intros src fl [Hr _]. discriminate Hr.
Defined.

(** The code generation of [template] never throws: every piece that the
    split gives is a string, so the loop never reads the first character
    of [undefined], and for every template text [template] gets as far as
    the call of [Function] with a body between [return [] and a closing
    bracket. *)
Theorem template_generation_never_throws :
  forall tpl, exists fn, templateSource tpl = Ok (js "return [" ++ fn ++ js "]").
Proof. apply GenerationFacts.templateSource_Ok. Qed.

(** A text without placeholders that holds one double quote comes back as
    it is: the escaping of the first double quote is enough for it. *)
Theorem template_one_quote a b :
  forallb isLiteralChar a = true ->
  forallb isLiteralChar b = true ->
  exists f,
    template (a ++ 34%N :: b) = Ok (Some f)
    /\ forall d, f d = [VStr (a ++ 34%N :: b)].
Proof.
  intros Ha Hb.
  apply KebabFacts.forallb_Forall in Ha. apply KebabFacts.forallb_Forall in Hb.
  unfold template. rewrite GenerationFacts.templateProgram_quote by assumption.
  eexists. split; reflexivity.
Qed.

Lemma template_one_quote_witness :
  exists f,
    template (js "5' 10" ++ 34%N :: js " tall") = Ok (Some f)
    /\ forall d, f d = [VStr (js "5' 10" ++ 34%N :: js " tall")].
Proof. exact (template_one_quote (js "5' 10") (js " tall") eq_refl eq_refl). Defined.
